(** * Krotov's method: the optimization driver of [krotov/optimize.py]

    A shallow embedding of [optimize_pulses] and its helpers
    ([_initialize_krotov_controls], [_forward_propagation],
    [_backward_propagation], [_forward_propagation_step],
    [_derivative_wrt_pulse]), followed by the properties of the driver.

    Conventions of the embedding.
    - Python floats are idealised as real numbers ([R]); complex numbers are
      pairs of reals.
    - A Python exception is a [Raise e] result.  Pure helpers live in the
      error monad [res]; code that reads or writes mutable objects, or reads
      the clock, lives in the state-and-error monad [M].
    - numpy arrays of pulse values and the Python lists that hold them are
      mutable, shared objects: they live in a store ([world]) and are named
      by their addresses, so aliasing between [guess_pulses],
      [optimized_pulses], [result.optimized_controls] and
      [result.all_pulses] is the aliasing of the source.
    - An array of pulse values has a dtype, which a copy keeps: assigning a
      float to an item of an integer array stores its truncation.
    - The state algebra, the operator algebra and the functions imported from
      modules that are not part of [optimize.py] are parameters, bundled in
      the classes [Physics] and [Conversions].
    - [logging] calls have no effect on any value and are left out. *)

From Stdlib Require Import Reals ZArith List Lia Lra Bool.
From stdpp Require Import base option list.

(** ** Exceptions and results *)

Inductive exn : Type :=
| IndexError
| TypeError
| AttributeError
| UnboundLocalError
| NotImplementedError
| ValueError
| KeyError.

Inductive res (A : Type) : Type :=
| Ok (a : A)
| Raise (e : exn).
Arguments Ok {A} a.
Arguments Raise {A} e.

#[global] Instance res_ret : MRet res := fun A a => Ok a.
#[global] Instance res_bind : MBind res := fun A B f m =>
  match m with
  | Ok a => f a
  | Raise e => Raise e
  end.

(** ** numpy arrays of pulse values *)

(** An array has a dtype.  A floating-point array holds reals (the
    idealisation of floats), an integer array holds integers (overflow is
    left out).  Arrays of other dtypes are outside the embedding. *)
Inductive dtype : Type := float64 | int64.

Inductive ndarray : Type :=
| FloatArray (data : list R)
| IntArray (data : list Z).

Definition dtype_of (a : ndarray) : dtype :=
  match a with
  | FloatArray _ => float64
  | IntArray _ => int64
  end.

(** The items of an array, as the floats that reading them gives. *)
Definition tolist (a : ndarray) : list R :=
  match a with
  | FloatArray data => data
  | IntArray data => IZR <$> data
  end.

(** ** The store of mutable objects and the clock *)

(** [arrays] holds the numpy arrays of pulse values, [lists] the Python lists
    of such arrays (a list holds the addresses of its items).  An address is
    the position of the object in its store; allocation appends, and
    nothing is ever freed.  (Reading or writing at an address that names
    no object raises [IndexError]; no such address arises in a run.)
    [time_queries] counts the calls of [time.clock] and [time.localtime]
    made so far. *)
Record world : Type := World {
  arrays : list ndarray;
  lists : list (list nat);
  time_queries : nat
}.

Definition set_arrays (a : list ndarray) (w : world) : world :=
  World a (lists w) (time_queries w).
Definition set_lists (l : list (list nat)) (w : world) : world :=
  World (arrays w) l (time_queries w).

Definition M (A : Type) : Type := world -> res (A * world).

#[global] Instance M_ret : MRet M := fun A a w => Ok (a, w).
#[global] Instance M_bind : MBind M := fun A B f m w =>
  match m w with
  | Ok (a, w') => f a w'
  | Raise e => Raise e
  end.

Definition raise {A : Type} (e : exn) : M A := fun _ => Raise e.
Definition lift {A : Type} (r : res A) : M A := fun w =>
  match r with
  | Ok a => Ok (a, w)
  | Raise e => Raise e
  end.

(** [for x in l: acc = f(acc, x)] *)
Fixpoint foldM {m : Type -> Type} `{MBind m, MRet m} {A B : Type}
    (f : A -> B -> m A) (l : list B) (a : A) : m A :=
  match l with
  | [] => mret a
  | x :: l' => a' ← f a x; foldM f l' a'
  end.

(** [seq[i]] with a non-negative index. *)
Definition getitem {A : Type} (l : list A) (i : nat) : res A :=
  match l !! i with
  | Some x => Ok x
  | None => Raise IndexError
  end.

(** [seq[i] = x] with a non-negative index. *)
Definition setitem {A : Type} (l : list A) (i : nat) (x : A) : res (list A) :=
  if decide (i < length l) then Ok (<[i := x]> l) else Raise IndexError.

(** [enumerate(l)] *)
Definition enumerate {A : Type} (l : list A) : list (nat * A) :=
  zip (seq 0 (length l)) l.

(** [range(a, b)] on Python integers. *)
Definition py_range (a b : Z) : list Z :=
  (fun i => (a + Z.of_nat i)%Z) <$> seq 0 (Z.to_nat (b - a)).

(** Complex numbers, as far as the driver computes with them. *)
Record complex : Type := Cx { re : R; im : R }.
Definition C0 : complex := Cx 0 0.
Definition Cadd (a b : complex) : complex := Cx (re a + re b) (im a + im b).
Definition Cscale (a : complex) (x : R) : complex := Cx (re a * x) (im a * x).

(** [int(x)] of a float: truncation towards zero. *)
Definition int_of_float (x : R) : Z :=
  if Rlt_dec x 0 then (- Int_part (- x))%Z else Int_part x.

(** The value that an item of dtype [d] holds after a float [x] has been
    assigned to it: the cast of numpy's item assignment truncates towards
    zero for an integer dtype. *)
Definition cast (d : dtype) (x : R) : R :=
  match d with
  | float64 => x
  | int64 => IZR (int_of_float x)
  end.

(** [a[i]] with a non-negative index. *)
Definition array_getitem (a : ndarray) (i : nat) : res R :=
  getitem (tolist a) i.

(** [a[i] = x] with a non-negative index and a float [x]: the array after
    the assignment. *)
Definition array_setitem (a : ndarray) (i : nat) (x : R) : res ndarray :=
  match a with
  | FloatArray data =>
      data ← setitem data i x; mret (FloatArray data)
  | IntArray data =>
      data ← setitem data i (int_of_float x); mret (IntArray data)
  end.

(** *** Operations on the store *)

Definition alloc_array (a : ndarray) : M nat := fun w =>
  Ok (length (arrays w), set_arrays (arrays w ++ [a]) w).
Definition alloc_list (l : list nat) : M nat := fun w =>
  Ok (length (lists w), set_lists (lists w ++ [l]) w).
Definition read_array (l : nat) : M ndarray := fun w =>
  lift (getitem (arrays w) l) w.
Definition read_list (l : nat) : M (list nat) := fun w =>
  lift (getitem (lists w) l) w.
Definition write_array (l : nat) (a : ndarray) : M unit := fun w =>
  match setitem (arrays w) l a with
  | Ok arrs => Ok (tt, set_arrays arrs w)
  | Raise e => Raise e
  end.
Definition write_list (l : nat) (items : list nat) : M unit := fun w =>
  match setitem (lists w) l items with
  | Ok ls => Ok (tt, set_lists ls w)
  | Raise e => Raise e
  end.

(** The values of a list of pulse arrays, as a callee that only reads them
    sees them. *)
Definition read_pulses (pulses : nat) : M (list ndarray) :=
  items ← read_list pulses; mapM read_array items.

(** ** External collaborators *)

(** The state and operator algebra ([qutip.Qobj]) and the system clock. *)
Class Physics : Type := {
  State : Type;             (* states and costates *)
  Op : Type;                (* operators *)
  Term : Type;              (* an entry of a nested operator list *)
  Control : Type;           (* a control, before discretization *)
  Plugged : Type;           (* an operator with pulse values plugged in *)
  InfoValue : Type;         (* whatever the info hook returns *)
  LocalTime : Type;         (* time.struct_time *)
  PulseOptionsDict : Type;  (* the [pulse_options] dictionary *)
  SigmaFn : Type;
  ConstraintFn : Type;
  term_operator : Term -> Op;            (* [entry[0]] *)
  op_add : Op -> Op -> Op;               (* [A + B] *)
  op_mul : Op -> State -> State;         (* [A * psi] *)
  int_mul : Z -> State -> State;         (* [n * psi], [n] a Python int *)
  overlap : State -> State -> complex;   (* [chi.overlap(psi)] *)
  state_norm : State -> R;               (* [chi.norm()] *)
  state_div : State -> R -> State;       (* [chi / x] *)
  clock : nat -> R;                      (* answer of the k-th time query *)
  localtime : nat -> LocalTime
}.

Module Objective.
(** Modelled from the spec: the class [krotov.Objective], which is not
    part of [optimize.py].  A Hamiltonian in nested-list format, the
    ordered dissipation operators (each in the same format), an initial
    state and a target state. *)
Record t `{Physics} : Type := {
  H : list Term;
  c_ops : list (list Term);
  initial_state : State;
  target_state : State
}.
End Objective.

(** Modelled from the spec: the class [krotov.PulseOptions], which is not
    part of [optimize.py].  A step-size weight (positive by the contract of
    the class; division by it is the division of real numbers) and a shape
    function of time. *)
Record PulseOptions : Type := {
  lambda_a : R;
  shape : R -> R
}.

(** [pulses_mapping[i_objective][slot][i_pulse]] lists the positions of the
    terms of the slot (0: the Hamiltonian, k+1: the k-th dissipation
    operator) that depend on the pulse. *)
Definition slot_mapping : Type := list (list nat).
Definition objective_mapping : Type := list slot_mapping.

(** The functions of [krotov.structural_conversions] and the [adjoint]
    property of [krotov.Objective].  [plug_in_pulse_values] reads the
    pulses that it is given, and raises as the reads that it makes do. *)
Class Conversions `{Physics} : Type := {
  adjoint : Objective.t -> Objective.t;
  extract_controls : list Objective.t -> list Control;
  extract_controls_mapping :
    list Objective.t -> list Control -> list objective_mapping;
  pulse_options_dict_to_list :
    PulseOptionsDict -> list Control -> res (list PulseOptions);
  discretize : Control -> list R -> res ndarray;
  _tlist_midpoints : list R -> list R;
  control_onto_interval : ndarray -> list R -> list R -> ndarray;
  pulse_onto_tlist : ndarray -> ndarray;
  plug_in_pulse_values :
    list Term -> list ndarray -> slot_mapping -> nat -> res Plugged
}.

(** What [_derivative_wrt_pulse] returns: the Python integer [0] or an
    operator. *)
Inductive derivative `{Physics} : Type :=
| DInt (z : Z)
| DOp (mu : Op).

(** Modelled from the spec: the class [krotov.result.Result], which is not
    part of [optimize.py].  The constructor gives empty histories;
    [all_pulses] and [optimized_controls] hold addresses of Python lists. *)
Module Result.
Section Fields.
Context `{Physics}.

Record t : Type := {
  tlist : list R;
  tlist_midpoints : list R;
  start_local_time : option LocalTime;
  end_local_time : option LocalTime;
  objectives : list Objective.t;
  guess_controls : list ndarray;
  controls_mapping : list objective_mapping;
  iters : list Z;
  iter_seconds : list Z;
  info_vals : list (option InfoValue);
  tau_vals : list (list complex);
  all_pulses : list nat;
  states : list State;
  optimized_controls : option nat
}.

Definition new : t :=
  Build_t [] [] None None [] [] [] [] [] [] [] [] [] None.

Definition set_tlist (x : list R) (r : t) : t :=
  Build_t x (tlist_midpoints r) (start_local_time r) (end_local_time r)
    (objectives r) (guess_controls r) (controls_mapping r) (iters r)
    (iter_seconds r) (info_vals r) (tau_vals r) (all_pulses r) (states r)
    (optimized_controls r).
Definition set_tlist_midpoints (x : list R) (r : t) : t :=
  Build_t (tlist r) x (start_local_time r) (end_local_time r)
    (objectives r) (guess_controls r) (controls_mapping r) (iters r)
    (iter_seconds r) (info_vals r) (tau_vals r) (all_pulses r) (states r)
    (optimized_controls r).
Definition set_start_local_time (x : LocalTime) (r : t) : t :=
  Build_t (tlist r) (tlist_midpoints r) (Some x) (end_local_time r)
    (objectives r) (guess_controls r) (controls_mapping r) (iters r)
    (iter_seconds r) (info_vals r) (tau_vals r) (all_pulses r) (states r)
    (optimized_controls r).
Definition set_end_local_time (x : LocalTime) (r : t) : t :=
  Build_t (tlist r) (tlist_midpoints r) (start_local_time r) (Some x)
    (objectives r) (guess_controls r) (controls_mapping r) (iters r)
    (iter_seconds r) (info_vals r) (tau_vals r) (all_pulses r) (states r)
    (optimized_controls r).
Definition set_objectives (x : list Objective.t) (r : t) : t :=
  Build_t (tlist r) (tlist_midpoints r) (start_local_time r)
    (end_local_time r) x (guess_controls r) (controls_mapping r) (iters r)
    (iter_seconds r) (info_vals r) (tau_vals r) (all_pulses r) (states r)
    (optimized_controls r).
Definition set_guess_controls (x : list ndarray) (r : t) : t :=
  Build_t (tlist r) (tlist_midpoints r) (start_local_time r)
    (end_local_time r) (objectives r) x (controls_mapping r) (iters r)
    (iter_seconds r) (info_vals r) (tau_vals r) (all_pulses r) (states r)
    (optimized_controls r).
Definition set_controls_mapping (x : list objective_mapping) (r : t) : t :=
  Build_t (tlist r) (tlist_midpoints r) (start_local_time r)
    (end_local_time r) (objectives r) (guess_controls r) x (iters r)
    (iter_seconds r) (info_vals r) (tau_vals r) (all_pulses r) (states r)
    (optimized_controls r).
Definition append_iters (x : Z) (r : t) : t :=
  Build_t (tlist r) (tlist_midpoints r) (start_local_time r)
    (end_local_time r) (objectives r) (guess_controls r)
    (controls_mapping r) (iters r ++ [x]) (iter_seconds r) (info_vals r)
    (tau_vals r) (all_pulses r) (states r) (optimized_controls r).
Definition append_iter_seconds (x : Z) (r : t) : t :=
  Build_t (tlist r) (tlist_midpoints r) (start_local_time r)
    (end_local_time r) (objectives r) (guess_controls r)
    (controls_mapping r) (iters r) (iter_seconds r ++ [x]) (info_vals r)
    (tau_vals r) (all_pulses r) (states r) (optimized_controls r).
Definition append_info_vals (x : option InfoValue) (r : t) : t :=
  Build_t (tlist r) (tlist_midpoints r) (start_local_time r)
    (end_local_time r) (objectives r) (guess_controls r)
    (controls_mapping r) (iters r) (iter_seconds r) (info_vals r ++ [x])
    (tau_vals r) (all_pulses r) (states r) (optimized_controls r).
Definition append_tau_vals (x : list complex) (r : t) : t :=
  Build_t (tlist r) (tlist_midpoints r) (start_local_time r)
    (end_local_time r) (objectives r) (guess_controls r)
    (controls_mapping r) (iters r) (iter_seconds r) (info_vals r)
    (tau_vals r ++ [x]) (all_pulses r) (states r) (optimized_controls r).
Definition append_all_pulses (x : nat) (r : t) : t :=
  Build_t (tlist r) (tlist_midpoints r) (start_local_time r)
    (end_local_time r) (objectives r) (guess_controls r)
    (controls_mapping r) (iters r) (iter_seconds r) (info_vals r)
    (tau_vals r) (all_pulses r ++ [x]) (states r) (optimized_controls r).
Definition set_states (x : list State) (r : t) : t :=
  Build_t (tlist r) (tlist_midpoints r) (start_local_time r)
    (end_local_time r) (objectives r) (guess_controls r)
    (controls_mapping r) (iters r) (iter_seconds r) (info_vals r)
    (tau_vals r) (all_pulses r) x (optimized_controls r).
Definition set_optimized_controls (x : nat) (r : t) : t :=
  Build_t (tlist r) (tlist_midpoints r) (start_local_time r)
    (end_local_time r) (objectives r) (guess_controls r)
    (controls_mapping r) (iters r) (iter_seconds r) (info_vals r)
    (tau_vals r) (all_pulses r) (states r) (Some x).
End Fields.
End Result.

Section Model.
Context `{Conversions}.

(** [mu * psi] for either kind of [mu]. *)
Definition derivative_mul (mu : derivative) (psi : State) : State :=
  match mu with
  | DInt z => int_mul z psi
  | DOp A => op_mul A psi
  end.

Definition _derivative_wrt_pulse (objective : Objective.t) (pulses : nat)
    (mapping : objective_mapping) (i_pulse : nat) : res derivative :=
  slot ← getitem mapping 0;
  ham_mapping ← getitem slot i_pulse;
  if decide (length ham_mapping = 0) then mret (DInt 0)
  else
    k ← getitem ham_mapping 0;
    term ← getitem (Objective.H objective) k;
    mu ← foldM (fun mu i =>
                  k ← getitem ham_mapping i;
                  term ← getitem (Objective.H objective) k;
                  mret (op_add mu (term_operator term)))
               (drop 1 ham_mapping) (term_operator term);
    _ ← foldM (fun (_ : unit) i_c_op =>
                 slot ← getitem mapping (i_c_op + 1);
                 c_mapping ← getitem slot i_pulse;
                 if decide (length c_mapping ≠ 0)
                 then Raise NotImplementedError
                 else mret tt)
              (seq 0 (length (Objective.c_ops objective))) tt;
    mret (DOp mu).

(** *** Time *)

(** [time.clock()] *)
Definition time_clock : M R := fun w =>
  Ok (clock (time_queries w),
      World (arrays w) (lists w) (S (time_queries w))).

(** [time.localtime()] *)
Definition time_localtime : M LocalTime := fun w =>
  Ok (localtime (time_queries w),
      World (arrays w) (lists w) (S (time_queries w))).

(** *** Storage of propagated states *)

(** Modelled from the spec: the default storage constructor,
    [functools.partial(numpy.empty, dtype=object)]: an array of [N] empty
    slots ([None]). *)
Definition storage_array : Type := list (option State).
Definition storage (N : nat) : storage_array := replicate N None.

(** The state held by slot [i] of a storage array.  Reading an empty slot
    would hand [None] to code that expects a state; every slot the driver
    reads has been written before. *)
Definition get_state (a : storage_array) (i : nat) : res State :=
  slot ← getitem a i;
  match slot with
  | Some s => Ok s
  | None => Raise AttributeError
  end.

(** Modelled from the spec: [krotov.parallelization.serial_map], the default
    [parallel_map]: [[task(i, *args) for i in values]], in order. *)
Definition serial_map {A B : Type} (task : A -> M B) (values : list A)
    : M (list B) :=
  mapM task values.

(** *** Propagation *)

Section Propagation.
Variable propagator : Plugged -> State -> R -> list Plugged -> bool -> State.

(** [plug_in_pulse_values(op, pulses, mapping, time_index)], reading the
    current values of the pulse arrays. *)
Definition call_plug_in_pulse_values (op : list Term) (pulses : nat)
    (mapping : slot_mapping) (time_index : nat) : M Plugged :=
  values ← read_pulses pulses;
  lift (plug_in_pulse_values op values mapping time_index).

(** The three assignments [H = ...], [c_ops = ...], [dt = ...] that each of
    the three propagation routines makes before it calls the propagator. *)
Definition operators_at (obj : Objective.t) (pulses : nat)
    (mapping : objective_mapping) (tlist : list R) (time_index : nat)
    : M (Plugged * list Plugged * R) :=
  slot ← lift (getitem mapping 0);
  H ← call_plug_in_pulse_values (Objective.H obj) pulses slot time_index;
  c_ops ← mapM (fun '(ic, c_op) =>
                  slot ← lift (getitem mapping (ic + 1));
                  call_plug_in_pulse_values c_op pulses slot time_index)
               (enumerate (Objective.c_ops obj));
  t1 ← lift (getitem tlist (time_index + 1));
  t0 ← lift (getitem tlist time_index);
  mret (H, c_ops, (t1 - t0)%R).

(** [_forward_propagation] with [store_all=True], the only way the driver
    calls it. *)
Definition _forward_propagation (i_objective : nat)
    (objectives : list Objective.t) (pulses : nat)
    (pulses_mapping : list objective_mapping) (tlist : list R)
    : M storage_array :=
  obj ← lift (getitem objectives i_objective);
  let state := Objective.initial_state obj in
  storage_array ← lift (setitem (storage (length tlist)) 0 (Some state));
  mapping ← lift (getitem pulses_mapping i_objective);
  '(state, storage_array) ←
    foldM (fun '(state, storage_array) time_index =>
             '(H, c_ops, dt) ←
               operators_at obj pulses mapping tlist time_index;
             let state := propagator H state dt c_ops false in
             storage_array ←
               lift (setitem storage_array (time_index + 1) (Some state));
             mret (state, storage_array))
          (seq 0 (length tlist - 1)) (state, storage_array);
  mret storage_array.

Definition _backward_propagation (i_state : nat) (chi_states : list State)
    (adjoint_objectives : list Objective.t) (pulses : nat)
    (pulses_mapping : list objective_mapping) (tlist : list R)
    : M storage_array :=
  state ← lift (getitem chi_states i_state);
  obj ← lift (getitem adjoint_objectives i_state);
  storage_array ←
    lift (setitem (storage (length tlist)) (length tlist - 1) (Some state));
  mapping ← lift (getitem pulses_mapping i_state);
  '(state, storage_array) ←
    foldM (fun '(state, storage_array) time_index =>
             '(H, c_ops, dt) ←
               operators_at obj pulses mapping tlist time_index;
             let state := propagator H state dt c_ops true in
             storage_array ←
               lift (setitem storage_array time_index (Some state));
             mret (state, storage_array))
          (reverse (seq 0 (length tlist - 1))) (state, storage_array);
  mret storage_array.

Definition _forward_propagation_step (i_state : nat)
    (states : list storage_array) (objectives : list Objective.t)
    (pulses : nat) (pulses_mapping : list objective_mapping)
    (tlist : list R) (time_index : nat) : M State :=
  trajectory ← lift (getitem states i_state);
  state ← lift (get_state trajectory time_index);
  obj ← lift (getitem objectives i_state);
  mapping ← lift (getitem pulses_mapping i_state);
  '(H, c_ops, dt) ← operators_at obj pulses mapping tlist time_index;
  mret (propagator H state dt c_ops false).

End Propagation.

(** *** [copy.deepcopy] of a list of arrays *)

Fixpoint memo_lookup (memo : list (nat * nat)) (l : nat) : option nat :=
  match memo with
  | [] => None
  | (k, v) :: memo' => if decide (k = l) then Some v else memo_lookup memo' l
  end.

(** Every array is copied once; an array that occurs twice in the list is
    copied to one new array that occurs twice ([deepcopy] keeps a memo). *)
Fixpoint deepcopy_items (memo : list (nat * nat)) (items : list nat)
    : M (list nat) :=
  match items with
  | [] => mret []
  | l :: items' =>
      match memo_lookup memo l with
      | Some l' =>
          rest ← deepcopy_items memo items';
          mret (l' :: rest)
      | None =>
          a ← read_array l;
          l' ← alloc_array a;
          rest ← deepcopy_items ((l, l') :: memo) items';
          mret (l' :: rest)
      end
  end.

Definition deepcopy (pulses : nat) : M nat :=
  items ← read_list pulses;
  items' ← deepcopy_items [] items;
  alloc_list items'.

(** *** The local variables of [optimize_pulses] that the loop carries *)

(** [optimized_pulses] and [fw_states] are bound only once the loop body
    has assigned them ([None]: not bound yet); [backward_states] is [None]
    before the first iteration. *)
Record locals : Type := {
  result : Result.t;
  guess_pulses : nat;
  optimized_pulses : option nat;
  backward_states : option (list storage_array);
  forward_states : list storage_array;
  fw_states : option (list State);
  fw_states_T : list State;
  tau_vals : list complex
}.

Definition InfoHook : Type :=
  list Objective.t -> list Objective.t -> option (list storage_array) ->
  list storage_array -> list State -> list complex -> R -> R -> Z -> InfoValue.

Section Iteration.
Variable objectives : list Objective.t.
Variable adjoint_objectives : list Objective.t.
Variable pulses_mapping : list objective_mapping.
Variable options_list : list PulseOptions.
Variable tlist : list R.
Variable tlist_midpoints : list R.
Variable propagator : Plugged -> State -> R -> list Plugged -> bool -> State.
Variable chi_constructor :
  list State -> list Objective.t -> list (list complex) -> list State.
Variable info_hook : option InfoHook.
Variable store_all_pulses : bool.

(** The body of [for (i_obj, objective) in enumerate(objectives)]
    (lines 158-165). *)
Definition accumulate_update (guess_pulses : nat)
    (backward_states forward_states : list storage_array)
    (chi_norms : list R) (i_pulse time_index : nat)
    (delta_eps : list (list complex)) (io : nat * Objective.t)
    : res (list (list complex)) :=
  let '(i_obj, objective) := io in
  bw ← getitem backward_states i_obj;
  chi ← get_state bw time_index;
  mapping ← getitem pulses_mapping i_obj;
  mu ← _derivative_wrt_pulse objective guess_pulses mapping i_pulse;
  fw ← getitem forward_states i_obj;
  psi ← get_state fw time_index;
  let update := overlap chi (derivative_mul mu psi) in
  nrm ← getitem chi_norms i_obj;
  let update := Cscale update nrm in
  row ← getitem delta_eps i_pulse;
  x ← getitem row time_index;
  row ← setitem row time_index (Cadd x update);
  setitem delta_eps i_pulse row.

(** The body of [for (i_pulse, guess_pulse) in enumerate(guess_pulses)]
    (lines 157-169). *)
Definition update_pulse (guess_pulses optimized_pulses : nat)
    (backward_states forward_states : list storage_array)
    (chi_norms : list R) (time_index : nat) (t : R)
    (delta_eps : list (list complex)) (ip : nat * nat)
    : M (list (list complex)) :=
  let '(i_pulse, guess_pulse) := ip in
  delta_eps ←
    lift (foldM (accumulate_update guess_pulses backward_states
                   forward_states chi_norms i_pulse time_index)
                (enumerate objectives) delta_eps);
  options ← lift (getitem options_list i_pulse);
  let lambda_a := lambda_a options in
  let S := shape options t in
  row ← lift (getitem delta_eps i_pulse);
  x ← lift (getitem row time_index);
  let Delta_eps := (S / lambda_a * im x)%R in
  items ← read_list optimized_pulses;
  l ← lift (getitem items i_pulse);
  a ← read_array l;
  v ← lift (array_getitem a time_index);
  a ← lift (array_setitem a time_index (v + Delta_eps)%R);
  _ ← write_array l a;
  mret delta_eps.

(** The body of [for (time_index, t) in enumerate(tlist_midpoints)]
    (lines 155-178). *)
Definition time_step (guess_pulses optimized_pulses : nat)
    (backward_states : list storage_array) (chi_norms : list R)
    (acc : list (list complex) * list storage_array * option (list State))
    (it : nat * R)
    : M (list (list complex) * list storage_array * option (list State)) :=
  let '(delta_eps, forward_states, _) := acc in
  let '(time_index, t) := it in
  guess_items ← read_list guess_pulses;
  delta_eps ←
    foldM (update_pulse guess_pulses optimized_pulses backward_states
             forward_states chi_norms time_index t)
          (enumerate guess_items) delta_eps;
  fw_states ←
    serial_map (fun i_state =>
                  _forward_propagation_step propagator i_state forward_states
                    objectives optimized_pulses pulses_mapping tlist
                    time_index)
               (seq 0 (length objectives));
  forward_states ←
    lift (foldM (fun forward_states i_obj =>
                   s ← getitem fw_states i_obj;
                   trajectory ← getitem forward_states i_obj;
                   trajectory ← setitem trajectory (time_index + 1) (Some s);
                   setitem forward_states i_obj trajectory)
                (seq 0 (length objectives)) forward_states);
  mret (delta_eps, forward_states, Some fw_states).

(** The body of [for krotov_iteration in range(iter_start+1, iter_stop+1)]
    (lines 128-208). *)
Definition krotov_iteration_body (st : locals) (krotov_iteration : Z)
    : M locals :=
  tic ← time_clock;
  (* boundary condition for the backward propagation *)
  let chi_states :=
    chi_constructor (fw_states_T st) objectives
      (Result.tau_vals (result st)) in
  let chi_norms := state_norm <$> chi_states in
  let chi_states := zip_with state_div chi_states chi_norms in
  (* backward propagation *)
  backward_states ←
    serial_map (fun i_state =>
                  _backward_propagation propagator i_state chi_states
                    adjoint_objectives (guess_pulses st) pulses_mapping tlist)
               (seq 0 (length objectives));
  (* forward propagation and pulse update *)
  let forward_states :=
    replicate (length objectives) (storage (length tlist)) in
  forward_states ←
    lift (foldM (fun forward_states i_obj =>
                   obj ← getitem objectives i_obj;
                   trajectory ← getitem forward_states i_obj;
                   trajectory ←
                     setitem trajectory 0
                       (Some (Objective.initial_state obj));
                   setitem forward_states i_obj trajectory)
                (seq 0 (length objectives)) forward_states);
  guess_items ← read_list (guess_pulses st);
  let delta_eps :=
    replicate (length guess_items)
      (replicate (length tlist_midpoints) C0) in
  optimized_pulses ← deepcopy (guess_pulses st);
  '(delta_eps, forward_states, fw_states) ←
    foldM (time_step (guess_pulses st) optimized_pulses backward_states
             chi_norms)
          (enumerate tlist_midpoints)
          (delta_eps, forward_states, fw_states st);
  fw_states_T ←
    match fw_states with
    | Some states => mret states
    | None => raise UnboundLocalError
    end;
  let tau_vals :=
    zip_with (fun fw_state_T obj =>
                overlap fw_state_T (Objective.target_state obj))
             fw_states_T objectives in
  toc ← time_clock;
  (* update [result] with the finished iteration *)
  let info :=
    match info_hook with
    | None => None
    | Some hook =>
        Some (hook objectives adjoint_objectives (Some backward_states)
                forward_states fw_states_T tau_vals tic toc krotov_iteration)
    end in
  let result := Result.append_iters krotov_iteration (result st) in
  let result :=
    Result.append_iter_seconds (int_of_float (toc - tic)) result in
  let result := Result.append_info_vals info result in
  let result := Result.append_tau_vals tau_vals result in
  let result := Result.set_optimized_controls optimized_pulses result in
  let result :=
    if store_all_pulses
    then Result.append_all_pulses optimized_pulses result
    else result in
  let result := Result.set_states fw_states_T result in
  (* prepare for the next iteration: [guess_pulses = optimized_pulses] *)
  mret {| result := result;
          guess_pulses := optimized_pulses;
          optimized_pulses := Some optimized_pulses;
          backward_states := Some backward_states;
          forward_states := forward_states;
          fw_states := fw_states;
          fw_states_T := fw_states_T;
          tau_vals := tau_vals |}.

(** The boundary costates that the iteration starting from [st] asks the
    constructor for, their norms, and the costates it propagates backward
    (lines 133-135). *)
Definition boundary_chi (st : locals) : list State :=
  chi_constructor (fw_states_T st) objectives (Result.tau_vals (result st)).
Definition boundary_norms (st : locals) : list R :=
  state_norm <$> boundary_chi st.
Definition normalized_chi (st : locals) : list State :=
  zip_with state_div (boundary_chi st) (boundary_norms st).

End Iteration.

Definition _initialize_krotov_controls (objectives : list Objective.t)
    (pulse_options : PulseOptionsDict) (tlist : list R)
    : M (list ndarray * nat * list objective_mapping * list PulseOptions) :=
  let guess_controls := extract_controls objectives in
  let pulses_mapping := extract_controls_mapping objectives guess_controls in
  options_list ←
    lift (pulse_options_dict_to_list pulse_options guess_controls);
  guess_controls ←
    lift (mapM (fun control => discretize control tlist) guess_controls);
  let tlist_midpoints := _tlist_midpoints tlist in
  items ←
    mapM (fun control =>
            alloc_array
              (control_onto_interval control tlist tlist_midpoints))
         guess_controls;
  guess_pulses ← alloc_list items;
  mret (guess_controls, guess_pulses, pulses_mapping, options_list).

(** Lines 75-124 of [optimize_pulses]: everything before the loop.  Returns
    the values that stay fixed during the loop and the initial [locals]. *)
Definition krotov_initialization (objectives : list Objective.t)
    (pulse_options : PulseOptionsDict) (tlist : list R)
    (propagator : Plugged -> State -> R -> list Plugged -> bool -> State)
    (info_hook : option InfoHook) (store_all_pulses : bool)
    : M (list objective_mapping * list PulseOptions * locals) :=
  let adjoint_objectives := adjoint <$> objectives in
  '(guess_controls, guess_pulses, pulses_mapping, options_list) ←
    _initialize_krotov_controls objectives pulse_options tlist;
  let tlist_midpoints := _tlist_midpoints tlist in
  let result := Result.new in
  let result := Result.set_tlist tlist result in
  let result := Result.set_tlist_midpoints tlist_midpoints result in
  start ← time_localtime;
  let result := Result.set_start_local_time start result in
  let result := Result.set_objectives objectives result in
  let result := Result.set_guess_controls guess_controls result in
  let result := Result.set_controls_mapping pulses_mapping result in
  (* initial forward propagation *)
  tic ← time_clock;
  forward_states ←
    serial_map (fun i_objective =>
                  _forward_propagation propagator i_objective objectives
                    guess_pulses pulses_mapping tlist)
               (seq 0 (length objectives));
  toc ← time_clock;
  fw_states_T ←
    lift (mapM (fun states => get_state states (length states - 1))
               forward_states);
  let tau_vals :=
    zip_with (fun state_T obj =>
                overlap state_T (Objective.target_state obj))
             fw_states_T objectives in
  info ←
    match info_hook with
    | None => raise TypeError   (* [None] is not callable *)
    | Some hook =>
        mret (hook objectives adjoint_objectives None forward_states
                fw_states_T tau_vals tic toc 0%Z)
    end;
  let result := Result.append_iters 0%Z result in
  let result :=
    Result.append_iter_seconds (int_of_float (toc - tic)) result in
  let result := Result.append_info_vals (Some info) result in
  let result :=
    Result.append_iter_seconds (int_of_float (toc - tic)) result in
  let result := Result.append_tau_vals tau_vals result in
  let result :=
    if store_all_pulses
    then Result.append_all_pulses guess_pulses result
    else result in
  let result := Result.set_states fw_states_T result in
  mret (pulses_mapping, options_list,
        {| result := result;
           guess_pulses := guess_pulses;
           optimized_pulses := None;
           backward_states := None;
           forward_states := forward_states;
           fw_states := None;
           fw_states_T := fw_states_T;
           tau_vals := tau_vals |}).

(** Lines 210-213 of [optimize_pulses]: everything after the loop. *)
Definition krotov_finalization (st : locals) : M Result.t :=
  stop ← time_localtime;
  let result := Result.set_end_local_time stop (result st) in
  pulses ←
    match optimized_pulses st with
    | Some pulses => mret pulses
    | None => raise UnboundLocalError
    end;
  items ← read_list pulses;
  _ ← foldM (fun (_ : unit) '(i, pulse) =>
               a ← read_array pulse;
               new ← alloc_array (pulse_onto_tlist a);
               controls ←
                 match Result.optimized_controls result with
                 | Some controls => mret controls
                 | None => raise TypeError
                 end;
               current ← read_list controls;
               current ← lift (setitem current i new);
               write_list controls current)
            (enumerate items) tt;
  mret result.

(** [optimize_pulses], with the default [storage] and [parallel_map]. *)
Definition optimize_pulses (objectives : list Objective.t)
    (pulse_options : PulseOptionsDict) (tlist : list R)
    (propagator : Plugged -> State -> R -> list Plugged -> bool -> State)
    (chi_constructor :
       list State -> list Objective.t -> list (list complex) -> list State)
    (sigma : option SigmaFn) (iter_start iter_stop : Z)
    (check_convergence : option (Result.t -> bool))
    (state_dependent_constraint : option ConstraintFn)
    (info_hook : option InfoHook) (store_all_pulses : bool)
    : M Result.t :=
  '(pulses_mapping, options_list, st) ←
    krotov_initialization objectives pulse_options tlist propagator
      info_hook store_all_pulses;
  st ← foldM (krotov_iteration_body objectives (adjoint <$> objectives)
                pulses_mapping options_list tlist (_tlist_midpoints tlist)
                propagator chi_constructor info_hook store_all_pulses)
             (py_range (iter_start + 1) (iter_stop + 1)) st;
  krotov_finalization st.

End Model.

(** ** Vocabulary of the properties *)

(** The world after one more time query. *)
Definition tick (w : world) : world :=
  World (arrays w) (lists w) (S (time_queries w)).

Definition same_heap (w1 w2 : world) : Prop :=
  arrays w1 = arrays w2 /\ lists w1 = lists w2.

(** [m] neither changes the world nor depends on anything but the arrays
    and the lists. *)
Definition reads {A : Type} (m : M A) : Prop :=
  forall w1 w2, same_heap w1 w2 ->
    match m w1, m w2 with
    | Ok (a1, w1'), Ok (a2, w2') => a1 = a2 /\ w1' = w1 /\ w2' = w2
    | Raise e1, Raise e2 => e1 = e2
    | _, _ => False
    end.

(** The list at address [pulses] holds distinct, allocated arrays. *)
Definition pulses_wf (w : world) (pulses : nat) : Prop :=
  exists items,
    lists w !! pulses = Some items /\ NoDup items /\
    Forall (fun l => l < length (arrays w)) items.

(** The array of pulse [p] in the list of pulses at address [pulses]. *)
Definition pulse_array (w : world) (pulses p : nat) : option ndarray :=
  items ← lists w !! pulses; l ← items !! p; arrays w !! l.

(** Its value on interval [n]. *)
Definition pulse_at (w : world) (pulses p n : nat) : option R :=
  a ← pulse_array w pulses p; tolist a !! n.

(** Its dtype. *)
Definition pulse_dtype (w : world) (pulses p : nat) : option dtype :=
  dtype_of <$> pulse_array w pulses p.

(** The array [a] with item [n] holding the cast of [x]. *)
Definition array_set (a : ndarray) (n : nat) (x : R) : ndarray :=
  match a with
  | FloatArray data => FloatArray (<[n := x]> data)
  | IntArray data => IntArray (<[n := int_of_float x]> data)
  end.

(** The number of pulses in the list. *)
Definition n_pulses (w : world) (pulses : nat) : option nat :=
  length <$> lists w !! pulses.

(** The state in slot [n] of trajectory [i]. *)
Definition state_at `{Physics} (trajectories : list (list (option State)))
    (i n : nat) : option State :=
  trajectory ← trajectories !! i; slot ← trajectory !! n; slot.

(** [u] is the contribution of objective [io] (its index and itself) to the
    update of pulse [p] on interval [n]:
    [chi.overlap(mu * psi) * chi_norm], with [chi] and [psi] the backward
    and the forward state of the objective at the midpoint and [mu] what
    [_derivative_wrt_pulse] returns: the product [mu * psi] is that of an
    integer with a state when [mu] is the [0] of a pulse that no term
    depends on, and that of an operator with a state otherwise. *)
Definition is_update `{Conversions} (pulses_mapping : list objective_mapping)
    (guess_pulses : nat)
    (backward_states forward_states : list storage_array)
    (chi_norms : list R) (p n : nat) (io : nat * Objective.t)
    (u : complex) : Prop :=
  exists chi mapping mu psi nrm,
    state_at backward_states io.1 n = Some chi /\
    pulses_mapping !! io.1 = Some mapping /\
    _derivative_wrt_pulse io.2 guess_pulses mapping p = Ok mu /\
    state_at forward_states io.1 n = Some psi /\
    chi_norms !! io.1 = Some nrm /\
    u = Cscale (overlap chi
                  match mu with
                  | DInt z => int_mul z psi
                  | DOp mu => op_mul mu psi
                  end) nrm.

(** [values] are the arrays that the list of pulses at address [pulses]
    holds, in order. *)
Definition pulse_values (w : world) (pulses : nat) (values : list ndarray)
    : Prop :=
  n_pulses w pulses = Some (length values) /\
  forall p, pulse_array w pulses p = values !! p.

(** [ham], [c_ops] and [dt] are what a propagation routine hands to the
    propagator for interval [n], when the store is [w]:
    [plug_in_pulse_values(obj.H, pulses, mapping[0], n)], the list of
    [plug_in_pulse_values(c_op, pulses, mapping[ic+1], n)] for the
    dissipation operators [c_op] of [obj], of index [ic], and
    [tlist[n+1] - tlist[n]]. *)
Definition plugged_in `{Conversions} (obj : Objective.t) (pulses : nat)
    (mapping : objective_mapping) (tlist : list R) (n : nat) (w : world)
    (ham : Plugged) (c_ops : list Plugged) (dt : R) : Prop :=
  exists values slot t0 t1,
    pulse_values w pulses values /\
    mapping !! 0 = Some slot /\
    plug_in_pulse_values (Objective.H obj) values slot n = Ok ham /\
    length c_ops = length (Objective.c_ops obj) /\
    (forall ic c_op, Objective.c_ops obj !! ic = Some c_op ->
       exists c_slot c,
         mapping !! (ic + 1) = Some c_slot /\
         plug_in_pulse_values c_op values c_slot n = Ok c /\
         c_ops !! ic = Some c) /\
    tlist !! n = Some t0 /\ tlist !! (n + 1) = Some t1 /\
    dt = (t1 - t0)%R.


(** ** A concrete setting: one two-level system and one control

    The state algebra is that of a two-level system; the conversions follow
    the description of [krotov.structural_conversions].  The setting provides
    the concrete inputs on which the driver is evaluated below. *)
Module Scenario.

Definition vec : Type := complex * complex.
Definition mat : Type := vec * vec.

Definition Cmul (a b : complex) : complex :=
  Cx (re a * re b - im a * im b) (re a * im b + im a * re b).
Definition Cconj (a : complex) : complex := Cx (re a) (- im a).
Definition Creal (x : R) : complex := Cx x 0.

Definition dot (u v : vec) : complex :=
  Cadd (Cmul (Cconj u.1) v.1) (Cmul (Cconj u.2) v.2).
Definition mat_add (A B : mat) : mat :=
  ((Cadd A.1.1 B.1.1, Cadd A.1.2 B.1.2),
   (Cadd A.2.1 B.2.1, Cadd A.2.2 B.2.2)).
Definition mat_vec (A : mat) (v : vec) : vec :=
  (Cadd (Cmul A.1.1 v.1) (Cmul A.1.2 v.2),
   Cadd (Cmul A.2.1 v.1) (Cmul A.2.2 v.2)).
Definition mat_dag (A : mat) : mat :=
  ((Cconj A.1.1, Cconj A.2.1), (Cconj A.1.2, Cconj A.2.2)).
Definition vec_scale (x : R) (v : vec) : vec :=
  (Cscale v.1 x, Cscale v.2 x).

(** A control is known by its identity ([tag]), not by its values; the
    values are those of a float or of an integer array. *)
Inductive samples : Type :=
| FloatSamples (f : R -> R)
| IntSamples (f : R -> Z).

Record control : Type := { tag : nat; values : samples }.
Definition term : Type := mat * option control.

#[export] Instance physics : Physics := {|
  State := vec;
  Op := mat;
  Term := term;
  Control := control;
  Plugged := list (mat * option R);
  InfoValue := list complex;
  LocalTime := nat;
  PulseOptionsDict := list (nat * PulseOptions);
  SigmaFn := unit;
  ConstraintFn := unit;
  term_operator := fst;
  op_add := mat_add;
  op_mul := mat_vec;
  int_mul := fun z v => vec_scale (IZR z) v;
  overlap := dot;
  state_norm := fun v => sqrt (re (dot v v));
  state_div := fun v x => vec_scale (/ x) v;
  clock := INR;
  localtime := fun k => k
|}.

Definition has_tag (k : nat) (t : term) : bool :=
  match t.2 with
  | Some c => bool_decide (tag c = k)
  | None => false
  end.

Definition add_control (acc : list control) (t : term) : list control :=
  match t.2 with
  | Some c =>
      if existsb (fun c' => bool_decide (tag c' = tag c)) acc
      then acc else acc ++ [c]
  | None => acc
  end.

Definition positions (k : nat) (op : list term) : list nat :=
  (fst <$> filter (fun it => has_tag k it.2 = true) (enumerate op)).

(** The value, on interval [time_index], of the pulse that the term at
    position [k] depends on, if there is one: [pulses[i][time_index]]. *)
Definition pulse_value (pulses : list ndarray) (mapping : slot_mapping)
    (time_index k : nat) : res (option R) :=
  match list_find (fun ps : list nat => k ∈ ps) mapping with
  | Some found =>
      pulse ← getitem pulses found.1;
      x ← array_getitem pulse time_index;
      mret (Some x)
  | None => mret None
  end.

Definition plug (op : list term) (pulses : list ndarray)
    (mapping : slot_mapping) (time_index : nat)
    : res (list (mat * option R)) :=
  mapM (fun kt : nat * term =>
          x ← pulse_value pulses mapping time_index kt.1;
          mret (kt.2.1, x))
       (enumerate op).

Definition midpoints (tlist : list R) : list R :=
  zip_with (fun a b => ((a + b) / 2)%R) tlist (drop 1 tlist).

(** Interior intervals take the mean of the two grid values, the first
    and the last interval the value at the boundary of the grid. *)
Definition onto_interval (c : list R) : list R :=
  imap (fun i m =>
          if decide (i = 0) then default 0%R (c !! 0)
          else if decide (i = length c - 2)
               then default 0%R (c !! (length c - 1))
               else m)
       (midpoints c).

(** Back onto the grid: the boundary points copy the adjacent interval,
    interior points take the mean of the two adjacent intervals. *)
Definition onto_tlist (p : list R) : list R :=
  take 1 p ++ midpoints p ++ drop (length p - 1) p.

(** The same two conversions for the items of an integer array, where a
    mean is truncated towards zero. *)
Definition int_midpoints (l : list Z) : list Z :=
  zip_with (fun a b => Z.quot (a + b) 2) l (drop 1 l).

Definition int_onto_interval (c : list Z) : list Z :=
  imap (fun i m =>
          if decide (i = 0) then default 0%Z (c !! 0)
          else if decide (i = length c - 2)
               then default 0%Z (c !! (length c - 1))
               else m)
       (int_midpoints c).

Definition int_onto_tlist (p : list Z) : list Z :=
  take 1 p ++ int_midpoints p ++ drop (length p - 1) p.

(** The two conversions keep the dtype of the array they are given. *)
Definition array_onto_interval (c : ndarray) : ndarray :=
  match c with
  | FloatArray data => FloatArray (onto_interval data)
  | IntArray data => IntArray (int_onto_interval data)
  end.
Definition array_onto_tlist (p : ndarray) : ndarray :=
  match p with
  | FloatArray data => FloatArray (onto_tlist data)
  | IntArray data => IntArray (int_onto_tlist data)
  end.

Definition sample (c : control) (tlist : list R) : ndarray :=
  match values c with
  | FloatSamples f => FloatArray (f <$> tlist)
  | IntSamples f => IntArray (f <$> tlist)
  end.

Definition objective : Type := @Objective.t physics.

Definition all_terms (obj : objective) : list term :=
  Objective.H obj ++ concat (Objective.c_ops obj).

Definition dag (op : list term) : list term :=
  (fun t : term => (mat_dag t.1, t.2)) <$> op.

Definition adjoint_objective (obj : objective) : objective :=
  {| Objective.H := dag (Objective.H obj);
     Objective.c_ops := dag <$> Objective.c_ops obj;
     Objective.initial_state := Objective.initial_state obj;
     Objective.target_state := Objective.target_state obj |}.

Definition controls_of (objs : list objective) : list control :=
  foldl add_control [] (concat (all_terms <$> objs)).

Definition mapping_of (objs : list objective) (controls : list control)
    : list objective_mapping :=
  (fun obj : objective =>
     (fun op : list term =>
        (fun c : control => positions (tag c) op) <$> controls)
       <$> (Objective.H obj :: Objective.c_ops obj))
    <$> objs.

Definition options_of (dict : list (nat * PulseOptions))
    (controls : list control) : res (list PulseOptions) :=
  mapM (fun c : control =>
          match list_find (fun kv : nat * PulseOptions => kv.1 = tag c)
                  dict with
          | Some found => Ok found.2.2
          | None => Raise KeyError
          end)
       controls.

#[export] Instance conversions : Conversions := {|
  adjoint := adjoint_objective;
  extract_controls := controls_of;
  extract_controls_mapping := mapping_of;
  pulse_options_dict_to_list := options_of;
  discretize := fun c tlist => Ok (sample c tlist);
  _tlist_midpoints := midpoints;
  control_onto_interval := fun c _ _ => array_onto_interval c;
  pulse_onto_tlist := array_onto_tlist;
  plug_in_pulse_values := plug
|}.

(** *** The inputs *)

Definition c (x : R) : complex := Cx x 0.
Definition sigma_z : mat := ((c 1, c 0), (c 0, c (-1))).
Definition sigma_x : mat := ((c 0, c 1), (c 1, c 0)).
Definition ket0 : vec := (c 1, c 0).
Definition ket1 : vec := (c 0, c 1).

(** The guess control: constant 1. *)
Definition eps : control :=
  {| tag := 0; values := FloatSamples (fun _ => 1%R) |}.

(** [H = [sigma_z, [sigma_x, eps]]], no dissipation, from ket 0 to
    ket 1. *)
Definition flip : objective :=
  {| Objective.H := [(sigma_z, None); (sigma_x, Some eps)];
     Objective.c_ops := [];
     Objective.initial_state := ket0;
     Objective.target_state := ket1 |}.

Definition grid : list R := [0; 1 / 4; 1 / 2; 3 / 4; 1]%R.

Definition options (shape : R -> R) : list (nat * PulseOptions) :=
  [(0, {| lambda_a := 1; shape := shape |})].

(** The propagator that returns the state unchanged. *)
Definition identity_propagator
    (H : list (mat * option R)) (state : vec) (dt : R)
    (c_ops : list (list (mat * option R))) (backwards : bool) : vec :=
  state.

(** The boundary condition that returns the target states unchanged. *)
Definition target_chi (fw_states_T : list vec)
    (objectives : list objective) (tau_vals : list (list complex))
    : list vec :=
  Objective.target_state <$> objectives.

(** An info hook that reports the overlaps with the targets. *)
Definition report_tau : InfoHook :=
  fun _ _ _ _ _ tau_vals _ _ _ => tau_vals.

Definition empty_world : world := World [] [] 0.

Definition run (shape : R -> R) (iter_start iter_stop : Z)
    (check_convergence : option (Result.t -> bool))
    (info_hook : option InfoHook) : res (Result.t * world) :=
  optimize_pulses [flip] (options shape) grid identity_propagator
    target_chi None iter_start iter_stop check_convergence None info_hook
    false empty_world.

(** The initialization of such a run, and one pass of its loop. *)
Definition start (shape : R -> R)
    : res (list objective_mapping * list PulseOptions * locals * world) :=
  krotov_initialization [flip] (options shape) grid identity_propagator
    (Some report_tau) false empty_world.

Definition iteration (pm : list objective_mapping)
    (ol : list PulseOptions) : locals -> Z -> M locals :=
  krotov_iteration_body [flip] (adjoint <$> [flip]) pm ol grid
    (midpoints grid) identity_propagator target_chi (Some report_tau)
    false.

(** An objective whose control enters two terms of the Hamiltonian, and one
    whose control enters a dissipation operator only. *)
Definition two_terms : objective :=
  {| Objective.H :=
       [(sigma_z, None); (sigma_x, Some eps); (sigma_z, Some eps)];
     Objective.c_ops := [];
     Objective.initial_state := ket0;
     Objective.target_state := ket1 |}.

Definition dissipative : objective :=
  {| Objective.H := [(sigma_z, None)];
     Objective.c_ops := [[(sigma_x, Some eps)]];
     Objective.initial_state := ket0;
     Objective.target_state := ket1 |}.

(** An objective whose control enters the Hamiltonian and a dissipation
    operator, and one with a dissipation operator that no control enters. *)
Definition driven_dissipative : objective :=
  {| Objective.H := [(sigma_z, None); (sigma_x, Some eps)];
     Objective.c_ops := [[(sigma_x, Some eps)]];
     Objective.initial_state := ket0;
     Objective.target_state := ket1 |}.

Definition damped : objective :=
  {| Objective.H := [(sigma_z, None); (sigma_x, Some eps)];
     Objective.c_ops := [[(sigma_z, None)]];
     Objective.initial_state := ket0;
     Objective.target_state := ket1 |}.



Definition rotated_chi (fw_states_T : list vec)
    (objectives : list objective) (tau_vals : list (list complex))
    : list vec :=
  (fun _ => (c 0, Cx 0 (-1))) <$> objectives.

Definition start_with (obj : objective) (shape : R -> R)
    : res (list objective_mapping * list PulseOptions * locals * world) :=
  krotov_initialization [obj] (options shape) grid identity_propagator
    (Some report_tau) false empty_world.

Definition iteration_with (obj : objective) (pm : list objective_mapping)
    (ol : list PulseOptions) : locals -> Z -> M locals :=
  krotov_iteration_body [obj] (adjoint <$> [obj]) pm ol grid
    (midpoints grid) identity_propagator rotated_chi (Some report_tau)
    false.

(** A store that holds a list and an array before the run starts. *)
Definition used_world : world := World [FloatArray [2]%R] [[0]] 7.

(** The run of the setting that keeps the pulses of all iterations, from a
    store that is not empty. *)
Definition run_all (iter_start iter_stop : Z) : res (Result.t * world) :=
  optimize_pulses [flip] (options (fun _ => 1%R)) grid identity_propagator
    target_chi None iter_start iter_stop None None (Some report_tau) true
    used_world.
End Scenario.

(** * Lemmas *)

(** ** Reasoning about the two monads *)

Lemma res_bind_Ok {A B : Type} (m : res A) (f : A -> res B) (b : B) :
  m ≫= f = Ok b -> exists a, m = Ok a /\ f a = Ok b.
Proof. destruct m as [a|e]; simpl; [eauto | discriminate]. Qed.

Lemma M_bind_Ok {A B : Type} (m : M A) (f : A -> M B) w b w' :
  (m ≫= f) w = Ok (b, w') ->
  exists a w1, m w = Ok (a, w1) /\ f a w1 = Ok (b, w').
Proof.
  unfold mbind, M_bind. destruct (m w) as [[a w1]|e]; [eauto | discriminate].
Qed.

Lemma lift_Ok {A : Type} (r : res A) w a w' :
  lift r w = Ok (a, w') -> r = Ok a /\ w' = w.
Proof. destruct r; simpl; intros E; inversion E; auto. Qed.

Lemma getitem_Ok {A : Type} (l : list A) i x :
  getitem l i = Ok x <-> l !! i = Some x.
Proof.
  unfold getitem. destruct (l !! i); split; intros E; inversion E; auto.
Qed.

Lemma setitem_Ok {A : Type} (l : list A) i x l' :
  setitem l i x = Ok l' <-> i < length l /\ l' = <[i := x]> l.
Proof.
  unfold setitem. case_decide; split.
  - intros E; inversion E; auto.
  - intros [_ ->]; auto.
  - discriminate.
  - intros [? _]; lia.
Qed.

Lemma array_setitem_Ok (a : ndarray) i x a' :
  array_setitem a i x = Ok a' <->
  i < length (tolist a) /\ a' = array_set a i x.
Proof.
  destruct a as [data|data]; simpl; rewrite ?length_fmap; split.
  all: first
    [ intros E; apply res_bind_Ok in E; destruct E as (d & Ed & E);
      apply setitem_Ok in Ed; destruct Ed as [Hi ->]; inversion E; auto
    | intros [Hi ->];
      rewrite (proj2 (setitem_Ok _ _ _ _) (conj Hi eq_refl)); reflexivity ].
Qed.

Lemma tolist_array_set (a : ndarray) n x :
  tolist (array_set a n x) = <[n := cast (dtype_of a) x]> (tolist a).
Proof.
  destruct a as [data|data]; simpl; [reflexivity|].
  apply list_fmap_insert.
Qed.

Lemma dtype_of_array_set (a : ndarray) n x :
  dtype_of (array_set a n x) = dtype_of a.
Proof. destruct a; reflexivity. Qed.

Lemma Int_part_IZR (z : Z) : Int_part (IZR z) = z.
Proof. symmetry. apply Int_part_spec. lra. Qed.

Lemma int_of_float_IZR (z : Z) : int_of_float (IZR z) = z.
Proof.
  unfold int_of_float. destruct (Rlt_dec (IZR z) 0) as [Hneg|Hpos].
  - rewrite <- opp_IZR, Int_part_IZR. lia.
  - apply Int_part_IZR.
Qed.

Lemma ndarray_eq (a b : ndarray) :
  dtype_of a = dtype_of b -> tolist a = tolist b -> a = b.
Proof.
  destruct a as [x|x], b as [y|y]; simpl; intros Hd Hl;
    try discriminate Hd.
  - congruence.
  - f_equal. revert y Hl. induction x as [|z x IH]; intros [|z' y] Hl;
      try discriminate Hl; [reflexivity|].
    inversion Hl as [[Hz Hrest]]. apply eq_IZR in Hz. subst z'.
    f_equal. apply IH. exact Hrest.
Qed.

(** What an array holds is not changed by the cast to its dtype. *)
Lemma cast_tolist (a : ndarray) n v :
  tolist a !! n = Some v -> cast (dtype_of a) v = v.
Proof.
  destruct a as [data|data]; simpl; [reflexivity|].
  rewrite list_lookup_fmap. destruct (data !! n) as [z|]; [|discriminate].
  intros E. inversion E; subst v. f_equal. apply int_of_float_IZR.
Qed.

Lemma foldM_cons {m : Type -> Type} `{MBind m, MRet m} {A B : Type}
    (f : A -> B -> m A) (x : B) (l : list B) (a : A) :
  foldM f (x :: l) a = f a x ≫= fun a' => foldM f l a'.
Proof. reflexivity. Qed.

Ltac inv_step :=
  match goal with
  | E : (_ ≫= _) _ = Ok (_, _) |- _ =>
      apply M_bind_Ok in E; destruct E as (? & ? & ? & E)
  | E : _ ≫= _ = Ok _ |- _ =>
      apply res_bind_Ok in E; destruct E as (? & ? & E)
  | E : lift _ _ = Ok (_, _) |- _ =>
      apply lift_Ok in E; destruct E as [E ->]
  | E : mret _ _ = Ok (_, _) |- _ => inversion E; subst; clear E
  | E : mret _ = Ok _ |- _ => inversion E; subst; clear E
  | E : getitem _ _ = Ok _ |- _ => apply getitem_Ok in E
  | E : setitem _ _ _ = Ok _ |- _ =>
      apply setitem_Ok in E; destruct E as [? ->]
  | E : (let '(_, _) := ?p in _) _ = Ok _ |- _ => destruct p
  | E : (let '(_, _) := ?p in _) = Ok _ |- _ => destruct p
  | E : raise _ _ = Ok _ |- _ => discriminate E
  | E : Raise _ = Ok _ |- _ => discriminate E
  end.
Ltac inv_monad := repeat inv_step.

(** Split conjunctions only (unlike [splits], leave quantifiers and
    existentials alone). *)
Ltac splits := repeat match goal with |- _ /\ _ => split end.

Section Derivative.
Context `{Conversions}.

Lemma getitem_Raise {A : Type} (l : list A) i e :
  getitem l i = Raise e -> e = IndexError /\ length l <= i.
Proof.
  unfold getitem. destruct (l !! i) eqn:E; intros Eq; inversion Eq.
  split; [reflexivity|]. apply lookup_ge_None. exact E.
Qed.

Lemma getitem_ge {A : Type} (l : list A) i :
  length l <= i -> getitem l i = Raise IndexError.
Proof.
  intros Hi. unfold getitem. rewrite (proj2 (lookup_ge_None l i) Hi).
  reflexivity.
Qed.

(** The loop [for i in ham_mapping[1:]: mu += objective.H[ham_mapping[i]][0]]
    raises [IndexError] as soon as one of the positions it runs over is not
    an index of [ham_mapping]. *)
Lemma sum_of_terms_IndexError (objective : Objective.t)
    (ham_mapping : list nat) i l mu :
  i ∈ l -> length ham_mapping <= i ->
  foldM (fun mu i =>
           k ← getitem ham_mapping i;
           term ← getitem (Objective.H objective) k;
           mret (op_add mu (term_operator term))) l mu
  = Raise IndexError.
Proof.
  intros Hin Hi. revert mu. induction l as [|x l IH]; intros mu.
  - inversion Hin.
  - rewrite foldM_cons. apply elem_of_cons in Hin.
    destruct Hin as [<-|Hin].
    + rewrite (getitem_ge ham_mapping i Hi). reflexivity.
    + destruct (getitem ham_mapping x) as [k|e] eqn:Ek.
      * destruct (getitem (Objective.H objective) k) as [term|e] eqn:Et.
        -- simpl. rewrite Et. simpl. apply IH. exact Hin.
        -- apply getitem_Raise in Et as Hraise. destruct Hraise as [-> _].
           simpl. rewrite Et. reflexivity.
      * apply getitem_Raise in Ek. destruct Ek as [-> _]. reflexivity.
Qed.

(** C2: the derivative is not the sum of the operators of the listed
    terms.  When a term position [i] after the first one is not smaller
    than the number of listed positions (as for the positions 1 and 2), the
    call raises [IndexError], whatever the objective: the loop over the
    remaining positions uses the position as an index into the list of
    positions itself. *)
Theorem derivative_of_positions_raises_IndexError
    (objective : Objective.t) pulses mapping slot i_pulse ham_mapping i :
  mapping !! 0 = Some slot -> slot !! i_pulse = Some ham_mapping ->
  i ∈ drop 1 ham_mapping -> length ham_mapping <= i ->
  _derivative_wrt_pulse objective pulses mapping i_pulse = Raise IndexError.
Proof.
  intros Hslot Hham Hin Hi. unfold _derivative_wrt_pulse.
  rewrite (proj2 (getitem_Ok _ _ _) Hslot). simpl.
  rewrite (proj2 (getitem_Ok _ _ _) Hham). simpl.
  destruct ham_mapping as [|k0 rest]; [inversion Hin|].
  simpl. simpl in Hin.
  destruct (getitem (Objective.H objective) k0) as [term|e] eqn:Et.
  - simpl.
    rewrite (sum_of_terms_IndexError objective (k0 :: rest) i rest _ Hin Hi).
    reflexivity.
  - apply getitem_Raise in Et. destruct Et as [-> _]. reflexivity.
Qed.

(** C3: for a pulse that no term of the Hamiltonian depends on, the
    derivative is the integer 0 and nothing is raised, whatever the
    mappings of the dissipation operators (the rest of [mapping]) say: the
    function returns before it looks at them. *)
Theorem derivative_of_no_position_skips_dissipation_check
    (objective : Objective.t) pulses mapping slot i_pulse :
  mapping !! 0 = Some slot -> slot !! i_pulse = Some [] ->
  _derivative_wrt_pulse objective pulses mapping i_pulse = Ok (DInt 0).
Proof.
  intros Hslot Hham. unfold _derivative_wrt_pulse.
  rewrite (proj2 (getitem_Ok _ _ _) Hslot). simpl.
  rewrite (proj2 (getitem_Ok _ _ _) Hham). reflexivity.
Qed.

End Derivative.

(** ** Computations that only read the store *)

Lemma same_heap_refl w : same_heap w w.
Proof. split; reflexivity. Qed.

Lemma reads_unchanged {A : Type} (m : M A) w a w' :
  reads m -> m w = Ok (a, w') -> w' = w.
Proof.
  intros Hm E. specialize (Hm w w (same_heap_refl w)). rewrite E in Hm.
  tauto.
Qed.

Lemma reads_same_heap {A : Type} (m : M A) w1 w2 a w1' :
  reads m -> same_heap w1 w2 -> m w1 = Ok (a, w1') -> m w2 = Ok (a, w2).
Proof.
  intros Hm Hw E. specialize (Hm w1 w2 Hw). rewrite E in Hm.
  destruct (m w2) as [[a2 w2']|]; [|contradiction].
  destruct Hm as (-> & _ & ->). reflexivity.
Qed.

Lemma reads_ret {A : Type} (a : A) : reads (mret a).
Proof. intros w1 w2 _. simpl. auto. Qed.

Lemma reads_lift {A : Type} (r : res A) : reads (lift r).
Proof. intros w1 w2 _. destruct r; simpl; auto. Qed.

Lemma reads_raise {A : Type} (e : exn) : reads (@raise A e).
Proof. intros w1 w2 _. reflexivity. Qed.

Lemma reads_bind {A B : Type} (m : M A) (f : A -> M B) :
  reads m -> (forall a, reads (f a)) -> reads (m ≫= f).
Proof.
  intros Hm Hf w1 w2 Hw. specialize (Hm w1 w2 Hw).
  unfold mbind, M_bind.
  destruct (m w1) as [[a1 w1']|e1], (m w2) as [[a2 w2']|e2]; try tauto.
  destruct Hm as (-> & -> & ->). apply Hf, Hw.
Qed.

Lemma reads_read_array l : reads (read_array l).
Proof.
  intros w1 w2 [Ha _]. unfold read_array. rewrite Ha.
  destruct (getitem (arrays w2) l); simpl; auto.
Qed.

Lemma reads_read_list l : reads (read_list l).
Proof.
  intros w1 w2 [_ Hl]. unfold read_list. rewrite Hl.
  destruct (getitem (lists w2) l); simpl; auto.
Qed.

Lemma reads_mapM {A B : Type} (f : A -> M B) (l : list A) :
  (forall a, reads (f a)) -> reads (mapM f l).
Proof.
  intros Hf. induction l as [|a l IH]; simpl.
  - apply reads_ret.
  - apply reads_bind; [apply Hf|]. intros b.
    apply reads_bind; [apply IH|]. intros bs. apply reads_ret.
Qed.

Lemma reads_foldM {A B : Type} (f : A -> B -> M A) (l : list B) (a : A) :
  (forall a b, reads (f a b)) -> reads (foldM f l a).
Proof.
  intros Hf. revert a. induction l as [|b l IH]; intros a; simpl.
  - apply reads_ret.
  - apply reads_bind; [apply Hf|]. intros a'. apply IH.
Qed.

Lemma reads_read_pulses pulses : reads (read_pulses pulses).
Proof.
  apply reads_bind; [apply reads_read_list|]. intros items.
  apply reads_mapM. intros l. apply reads_read_array.
Qed.

Create HintDb reads.
#[local] Hint Resolve reads_ret reads_lift reads_raise reads_read_array
  reads_read_list reads_read_pulses : reads.

Ltac reads :=
  repeat first
    [ progress eauto with reads
    | apply reads_bind; [|intros ?]
    | apply reads_mapM; intros ?
    | apply reads_foldM; intros ? ?
    | progress cbv beta
    | match goal with
      | |- context [match ?p with (_, _) => _ end] => is_var p; destruct p
      end ].

Section ReadOnly.
Context `{Conversions}.
Variable propagator : Plugged -> State -> R -> list Plugged -> bool -> State.

Lemma reads_operators_at obj pulses mapping tlist time_index :
  reads (operators_at obj pulses mapping tlist time_index).
Proof. unfold operators_at, call_plug_in_pulse_values. reads. Qed.

Lemma reads_forward_propagation i objectives pulses pulses_mapping tlist :
  reads (_forward_propagation propagator i objectives pulses pulses_mapping
           tlist).
Proof.
  unfold _forward_propagation. pose proof reads_operators_at. reads.
Qed.

Lemma reads_backward_propagation i chi adj pulses pulses_mapping tlist :
  reads (_backward_propagation propagator i chi adj pulses pulses_mapping
           tlist).
Proof.
  unfold _backward_propagation. pose proof reads_operators_at. reads.
Qed.

Lemma reads_forward_propagation_step i states objectives pulses
    pulses_mapping tlist time_index :
  reads (_forward_propagation_step propagator i states objectives pulses
           pulses_mapping tlist time_index).
Proof.
  unfold _forward_propagation_step. pose proof reads_operators_at. reads.
Qed.

End ReadOnly.

(** ** The shape of one iteration *)

Section IterationShape.
Context `{Conversions}.
Variable objectives : list Objective.t.
Variable adjoint_objectives : list Objective.t.
Variable pulses_mapping : list objective_mapping.
Variable options_list : list PulseOptions.
Variable tlist : list R.
Variable tlist_midpoints : list R.
Variable propagator : Plugged -> State -> R -> list Plugged -> bool -> State.
Variable chi_constructor :
  list State -> list Objective.t -> list (list complex) -> list State.
Variable info_hook : option InfoHook.
Variable store_all_pulses : bool.

Abbreviation body :=
  (krotov_iteration_body objectives adjoint_objectives pulses_mapping
     options_list tlist tlist_midpoints propagator chi_constructor info_hook
     store_all_pulses).

Lemma krotov_iteration_body_inv st k w st' w' :
  body st k w = Ok (st', w') ->
  exists bws fs0 gitems o w_b delta fs fws w_c,
    serial_map (fun i_state =>
                  _backward_propagation propagator i_state (normalized_chi objectives chi_constructor st)
                    adjoint_objectives (guess_pulses st) pulses_mapping tlist)
               (seq 0 (length objectives)) (tick w) = Ok (bws, tick w) /\
    foldM (fun forward_states i_obj =>
             obj ← getitem objectives i_obj;
             trajectory ← getitem forward_states i_obj;
             trajectory ←
               setitem trajectory 0 (Some (Objective.initial_state obj));
             setitem forward_states i_obj trajectory)
          (seq 0 (length objectives))
          (replicate (length objectives) (storage (length tlist)))
      = Ok fs0 /\
    lists w !! guess_pulses st = Some gitems /\
    deepcopy (guess_pulses st) (tick w) = Ok (o, w_b) /\
    foldM (time_step objectives pulses_mapping options_list tlist propagator
             (guess_pulses st) o bws (boundary_norms objectives chi_constructor st))
          (enumerate tlist_midpoints)
          (replicate (length gitems) (replicate (length tlist_midpoints) C0),
           fs0, fw_states st) w_b
      = Ok ((delta, fs, Some fws), w_c) /\
    w' = tick w_c /\
    guess_pulses st' = o /\
    optimized_pulses st' = Some o /\
    backward_states st' = Some bws /\
    forward_states st' = fs /\
    fw_states st' = Some fws /\
    fw_states_T st' = fws /\
    Result.iters (result st') = Result.iters (result st) ++ [k] /\
    Result.iter_seconds (result st')
      = Result.iter_seconds (result st)
          ++ [int_of_float (clock (time_queries w_c)
                            - clock (time_queries w))] /\
    length (Result.info_vals (result st'))
      = S (length (Result.info_vals (result st))) /\
    Result.optimized_controls (result st') = Some o.
Proof.
  intros E. unfold krotov_iteration_body in E.
  apply M_bind_Ok in E. destruct E as (tic & w_a & Etic & E).
  unfold time_clock in Etic. inversion Etic; subst tic w_a; clear Etic.
  fold (tick w) in E.
  apply M_bind_Ok in E. destruct E as (bws & w1 & Ebw & E).
  assert (w1 = tick w) as ->.
  { eapply reads_unchanged; [|exact Ebw]. apply reads_mapM. intros i.
    apply reads_backward_propagation. }
  apply M_bind_Ok in E. destruct E as (fs0 & w1 & Efs0 & E).
  apply lift_Ok in Efs0. destruct Efs0 as [Efs0 ->].
  apply M_bind_Ok in E. destruct E as (gitems & w1 & Eg & E).
  unfold read_list in Eg. apply lift_Ok in Eg. destruct Eg as [Eg ->].
  apply getitem_Ok in Eg. simpl in Eg.
  apply M_bind_Ok in E. destruct E as (o & w_b & Edc & E).
  apply M_bind_Ok in E. destruct E as ([[delta fs] fws] & w_c & Eloop & E).
  apply M_bind_Ok in E. destruct E as (fwsT & w1 & Efw & E).
  destruct fws as [fws|]; [|discriminate Efw].
  inversion Efw; subst fwsT w1; clear Efw.
  apply M_bind_Ok in E. destruct E as (toc & w1 & Etoc & E).
  unfold time_clock in Etoc. inversion Etoc; subst toc w1; clear Etoc.
  inversion E; subst st' w'; clear E. simpl.
  exists bws, fs0, gitems, o, w_b, delta, fs, fws, w_c.
  splits; try assumption; try reflexivity.
  - destruct store_all_pulses; reflexivity.
  - destruct store_all_pulses; reflexivity.
  - destruct store_all_pulses; simpl; rewrite length_app; simpl; lia.
  - destruct store_all_pulses; reflexivity.
Qed.

End IterationShape.

(** ** Initialization, loop and finalization *)

Section Driver.
Context `{Conversions}.
Variable objectives : list Objective.t.
Variable pulse_options : PulseOptionsDict.
Variable tlist : list R.
Variable propagator : Plugged -> State -> R -> list Plugged -> bool -> State.
Variable chi_constructor :
  list State -> list Objective.t -> list (list complex) -> list State.
Variable store_all_pulses : bool.

Lemma mapM_alloc_array {A : Type} (f : A -> ndarray) (cs : list A) w items w' :
  mapM (fun c => alloc_array (f c)) cs w = Ok (items, w') ->
  items = seq (length (arrays w)) (length cs) /\
  w' = set_arrays (arrays w ++ (f <$> cs)) w.
Proof.
  revert w items w'. induction cs as [|c cs IH]; intros w items w' E.
  - inversion E; subst. simpl. rewrite app_nil_r. destruct w'; auto.
  - simpl in E. apply M_bind_Ok in E. destruct E as (l & w1 & El & E).
    inversion El; subst l w1; clear El.
    apply M_bind_Ok in E. destruct E as (rest & w2 & Erest & E).
    inversion E; subst items w'; clear E.
    apply IH in Erest. destruct Erest as [-> ->]. simpl.
    rewrite length_app. simpl. rewrite Nat.add_1_r. split; [reflexivity|].
    unfold set_arrays; simpl. rewrite <- app_assoc. reflexivity.
Qed.

Lemma initialize_krotov_controls_inv w gc g pm ol w' :
  _initialize_krotov_controls objectives pulse_options tlist w
    = Ok ((gc, g, pm, ol), w') ->
  pm = extract_controls_mapping objectives (extract_controls objectives) /\
  pulse_options_dict_to_list pulse_options (extract_controls objectives)
    = Ok ol /\
  g = length (lists w) /\
  exists pulses,
    length pulses = length gc /\
    arrays w' = arrays w ++ pulses /\
    lists w' = lists w ++ [seq (length (arrays w)) (length pulses)] /\
    time_queries w' = time_queries w.
Proof.
  intros E. unfold _initialize_krotov_controls in E.
  apply M_bind_Ok in E. destruct E as (ol' & w1 & Eol & E).
  apply lift_Ok in Eol. destruct Eol as [Eol ->].
  apply M_bind_Ok in E. destruct E as (gc' & w1 & Egc & E).
  apply lift_Ok in Egc. destruct Egc as [Egc ->].
  apply M_bind_Ok in E. destruct E as (items & w1 & Eitems & E).
  apply mapM_alloc_array in Eitems. destruct Eitems as [-> ->].
  apply M_bind_Ok in E. destruct E as (g' & w2 & Eg & E).
  inversion Eg; subst g' w2; clear Eg.
  inversion E; subst; clear E. simpl.
  splits; try assumption; try reflexivity.
  exists ((fun control =>
             control_onto_interval control tlist (_tlist_midpoints tlist))
            <$> gc).
  splits; rewrite ?length_fmap; reflexivity.
Qed.

Lemma krotov_initialization_inv info_hook w pm ol st w' :
  krotov_initialization objectives pulse_options tlist propagator info_hook
    store_all_pulses w = Ok ((pm, ol, st), w') ->
  exists gc w1,
    _initialize_krotov_controls objectives pulse_options tlist w
      = Ok ((gc, guess_pulses st, pm, ol), w1) /\
    arrays w' = arrays w1 /\ lists w' = lists w1 /\
    is_Some info_hook /\
    optimized_pulses st = None /\
    Result.iters (result st) = [0%Z] /\
    length (Result.iter_seconds (result st)) = 2 /\
    length (Result.info_vals (result st)) = 1.
Proof.
  intros E. unfold krotov_initialization in E.
  apply M_bind_Ok in E. destruct E as ([[[gc g] pm'] ol'] & w1 & Einit & E).
  apply M_bind_Ok in E. destruct E as (start & w2 & Estart & E).
  inversion Estart; subst start w2; clear Estart.
  apply M_bind_Ok in E. destruct E as (tic & w2 & Etic & E).
  inversion Etic; subst tic w2; clear Etic. simpl in E.
  apply M_bind_Ok in E. destruct E as (fs & w2 & Efs & E).
  apply reads_unchanged in Efs as Hw2;
    [|apply reads_mapM; intros i; apply reads_forward_propagation].
  subst w2.
  apply M_bind_Ok in E. destruct E as (toc & w2 & Etoc & E).
  inversion Etoc; subst toc w2; clear Etoc. simpl in E.
  apply M_bind_Ok in E. destruct E as (fwT & w2 & EfwT & E).
  apply lift_Ok in EfwT. destruct EfwT as [EfwT ->].
  apply M_bind_Ok in E. destruct E as (info & w2 & Einfo & E).
  destruct info_hook as [hook|]; [|discriminate Einfo].
  inversion Einfo; subst info w2; clear Einfo.
  inversion E; subst; clear E. simpl.
  exists gc, w1. splits; eauto.
  - destruct store_all_pulses; reflexivity.
  - destruct store_all_pulses; reflexivity.
  - destruct store_all_pulses; reflexivity.
Qed.

Lemma krotov_initialization_no_hook w :
  exists e,
    krotov_initialization objectives pulse_options tlist propagator None
      store_all_pulses w = Raise e.
Proof.
  destruct (krotov_initialization objectives pulse_options tlist propagator
              None store_all_pulses w) as [[[[pm ol] st] w']|e] eqn:E.
  - apply krotov_initialization_inv in E.
    destruct E as (? & ? & _ & _ & _ & [? Hhook] & _). discriminate Hhook.
  - eauto.
Qed.

Lemma krotov_finalization_inv st w r w' :
  krotov_finalization st w = Ok (r, w') ->
  is_Some (optimized_pulses st) /\
  Result.iters r = Result.iters (result st) /\
  Result.iter_seconds r = Result.iter_seconds (result st) /\
  Result.info_vals r = Result.info_vals (result st) /\
  Result.optimized_controls r = Result.optimized_controls (result st).
Proof.
  intros E. unfold krotov_finalization in E.
  apply M_bind_Ok in E. destruct E as (stop & w1 & Estop & E).
  apply M_bind_Ok in E. destruct E as (pulses & w2 & Ep & E).
  destruct (optimized_pulses st); [|discriminate Ep].
  apply M_bind_Ok in E. destruct E as (items & w3 & _ & E).
  apply M_bind_Ok in E. destruct E as (u & w4 & _ & E).
  inversion E; subst. simpl. eauto 10.
Qed.

Lemma krotov_finalization_unbound st w :
  optimized_pulses st = None ->
  krotov_finalization st w = Raise UnboundLocalError.
Proof.
  intros E. unfold krotov_finalization, time_localtime, mbind, M_bind.
  rewrite E. reflexivity.
Qed.

Lemma krotov_loop_inv pm ol info_hook its st w st' w' :
  foldM (krotov_iteration_body objectives (adjoint <$> objectives) pm ol
           tlist (_tlist_midpoints tlist) propagator chi_constructor
           info_hook store_all_pulses) its st w = Ok (st', w') ->
  Result.iters (result st') = Result.iters (result st) ++ its /\
  length (Result.iter_seconds (result st'))
    = length (Result.iter_seconds (result st)) + length its /\
  length (Result.info_vals (result st'))
    = length (Result.info_vals (result st)) + length its.
Proof.
  revert st w. induction its as [|k its IH]; intros st w E.
  - inversion E; subst. rewrite app_nil_r. simpl.
    splits; first [reflexivity | lia].
  - simpl in E. apply M_bind_Ok in E. destruct E as (st1 & w1 & E1 & E).
    apply IH in E. destruct E as (-> & -> & ->).
    apply krotov_iteration_body_inv in E1.
    destruct E1 as (? & ? & ? & ? & ? & ? & ? & ? & ? & _ & _ & _ & _ & _
                    & _ & _ & _ & _ & _ & _ & _ & -> & -> & -> & _).
    rewrite <- app_assoc, length_app. simpl.
    splits; first [reflexivity | lia].
Qed.

(** What a completed run has recorded. *)
Lemma optimize_pulses_history sigma iter_start iter_stop check_convergence
    state_dependent_constraint info_hook w r w' :
  optimize_pulses objectives pulse_options tlist propagator chi_constructor
    sigma iter_start iter_stop check_convergence state_dependent_constraint
    info_hook store_all_pulses w = Ok (r, w') ->
  Result.iters r = 0%Z :: py_range (iter_start + 1) (iter_stop + 1) /\
  length (Result.iter_seconds r) = S (length (Result.iters r)) /\
  length (Result.info_vals r) = length (Result.iters r).
Proof.
  intros E. unfold optimize_pulses in E.
  apply M_bind_Ok in E. destruct E as ([[pm ol] st0] & w1 & Einit & E).
  apply M_bind_Ok in E. destruct E as (st & w2 & Eloop & E).
  apply krotov_initialization_inv in Einit.
  destruct Einit as (? & ? & _ & _ & _ & _ & _ & Hit & Hsec & Hinfo).
  apply krotov_loop_inv in Eloop. destruct Eloop as (Hit' & Hsec' & Hinfo').
  apply krotov_finalization_inv in E.
  destruct E as (_ & -> & -> & -> & _).
  rewrite Hit', Hsec', Hinfo', Hit, Hsec, Hinfo. simpl.
  splits; first [reflexivity | lia].
Qed.

End Driver.

(** ** [deepcopy] *)

Lemma Forall2_impl_Forall {A B : Type} (P : A -> Prop)
    (R1 R2 : A -> B -> Prop) (l : list A) (k : list B) :
  Forall P l -> Forall2 R1 l k ->
  (forall x y, P x -> R1 x y -> R2 x y) -> Forall2 R2 l k.
Proof.
  intros HP HR Himpl. revert HP.
  induction HR; intros HP; inversion HP; subst; constructor; eauto.
Qed.

Lemma deepcopy_items_frame memo items w items' w' :
  deepcopy_items memo items w = Ok (items', w') ->
  length items' = length items /\
  exists new,
    w' = set_arrays (arrays w ++ new) w /\
    Forall (fun l' => l' ∈ memo.*2 \/
                      length (arrays w) <= l' < length (arrays w ++ new))
           items'.
Proof.
  revert memo w items' w'.
  induction items as [|l items IH]; intros memo w items' w' E; simpl in E.
  - inversion E; subst. split; [reflexivity|]. exists [].
    rewrite app_nil_r. destruct w'; auto.
  - destruct (memo_lookup memo l) as [l'|] eqn:Hmemo.
    + apply M_bind_Ok in E. destruct E as (rest & w1 & Erest & E).
      inversion E; subst; clear E.
      apply IH in Erest. destruct Erest as (Hlen & new & -> & Hnew).
      split; [simpl; lia|]. exists new. split; [reflexivity|].
      constructor; [|exact Hnew]. left.
      clear -Hmemo. induction memo as [|[k v] memo IH]; [discriminate|].
      simpl in Hmemo. case_decide.
      * inversion Hmemo; subst. simpl. left.
      * simpl. right. auto.
    + apply M_bind_Ok in E. destruct E as (a & w1 & Ea & E).
      apply reads_unchanged in Ea as Hw1; [subst w1|apply reads_read_array].
      apply M_bind_Ok in E. destruct E as (l' & w1 & El' & E).
      inversion El'; subst l' w1; clear El'.
      apply M_bind_Ok in E. destruct E as (rest & w1 & Erest & E).
      inversion E; subst; clear E.
      apply IH in Erest. destruct Erest as (Hlen & new & -> & Hnew).
      split; [simpl; lia|]. exists (a :: new). simpl in *.
      split; [unfold set_arrays; simpl; rewrite <- app_assoc; reflexivity|].
      rewrite <- app_assoc in Hnew. simpl in Hnew.
      rewrite !length_app in *. simpl in *.
      constructor; [right; lia|].
      eapply Forall_impl; [exact Hnew|]. simpl. intros x [Hx|Hx].
      * apply elem_of_cons in Hx. destruct Hx as [->|Hx]; [right; lia|auto].
      * right. lia.
Qed.

Lemma deepcopy_items_nodup memo items w items' w' :
  NoDup items ->
  (forall l, l ∈ items -> memo_lookup memo l = None) ->
  Forall (fun l => l < length (arrays w)) items ->
  deepcopy_items memo items w = Ok (items', w') ->
  exists contents,
    Forall2 (fun l a => arrays w !! l = Some a) items contents /\
    items' = seq (length (arrays w)) (length items) /\
    w' = set_arrays (arrays w ++ contents) w.
Proof.
  revert memo w items' w'.
  induction items as [|l items IH]; intros memo w items' w' Hnd Hmemo Hval E;
    simpl in E.
  - inversion E; subst. exists []. rewrite app_nil_r.
    destruct w'; splits; auto.
  - rewrite (Hmemo l) in E by left.
    apply M_bind_Ok in E. destruct E as (a & w1 & Ea & E).
    apply reads_unchanged in Ea as Hw1; [subst w1|apply reads_read_array].
    unfold read_array in Ea. apply lift_Ok in Ea. destruct Ea as [Ea _].
    apply getitem_Ok in Ea.
    apply M_bind_Ok in E. destruct E as (l' & w1 & El' & E).
    inversion El'; subst l' w1; clear El'.
    apply M_bind_Ok in E. destruct E as (rest & w1 & Erest & E).
    inversion E; subst; clear E.
    apply NoDup_cons in Hnd. destruct Hnd as [Hl Hnd].
    apply Forall_cons in Hval. destruct Hval as [Hlv Hval].
    apply IH in Erest; [|exact Hnd| |].
    + destruct Erest as (contents & Hc & -> & ->). exists (a :: contents).
      simpl. rewrite length_app. simpl. rewrite Nat.add_1_r.
      splits.
      * constructor; [exact Ea|].
        eapply Forall2_impl_Forall; [exact Hval|exact Hc|].
        simpl. intros x y Hx Hxy. rewrite lookup_app_l in Hxy; assumption.
      * reflexivity.
      * unfold set_arrays. simpl. rewrite <- app_assoc. reflexivity.
    + intros l2 Hl2. simpl. case_decide; [subst; contradiction|].
      apply Hmemo. right. exact Hl2.
    + simpl. rewrite length_app. simpl.
      eapply Forall_impl; [exact Hval|]. simpl. intros. lia.
Qed.

(** ** The pulse update *)

Section PulseUpdate.
Context `{Conversions}.
Variable objectives : list Objective.t.
Variable pulses_mapping : list objective_mapping.
Variable options_list : list PulseOptions.
Variable tlist : list R.
Variable propagator : Plugged -> State -> R -> list Plugged -> bool -> State.

Lemma get_state_Ok (a : list (option State)) n s :
  get_state a n = Ok s <-> a !! n = Some (Some s).
Proof.
  unfold get_state, getitem, mbind, res_bind.
  destruct (a !! n) as [[s'|]|]; split; intros E; inversion E; reflexivity.
Qed.

Lemma state_at_Some (ts : list (list (option State))) i n t s :
  ts !! i = Some t -> t !! n = Some (Some s) -> state_at ts i n = Some s.
Proof. intros E1 E2. unfold state_at. rewrite E1. simpl. rewrite E2. auto. Qed.

Lemma accumulate_update_inv g bws fs norms p n delta io delta' :
  accumulate_update pulses_mapping g bws fs norms p n delta io = Ok delta' ->
  exists u row x,
    is_update pulses_mapping g bws fs norms p n io u /\
    delta !! p = Some row /\ row !! n = Some x /\
    delta' = <[p := <[n := Cadd x u]> row]> delta.
Proof.
  intros E. unfold accumulate_update in E. destruct io as [i_obj objective].
  apply res_bind_Ok in E. destruct E as (bw & Ebw & E).
  apply res_bind_Ok in E. destruct E as (chi & Echi & E).
  apply res_bind_Ok in E. destruct E as (mapping & Emap & E).
  apply res_bind_Ok in E. destruct E as (mu & Emu & E).
  apply res_bind_Ok in E. destruct E as (fw & Efw & E).
  apply res_bind_Ok in E. destruct E as (psi & Epsi & E).
  apply res_bind_Ok in E. destruct E as (nrm & Enrm & E).
  apply res_bind_Ok in E. destruct E as (row & Erow & E).
  apply res_bind_Ok in E. destruct E as (x & Ex & E).
  apply res_bind_Ok in E. destruct E as (row' & Erow' & E).
  apply getitem_Ok in Ebw, Emap, Efw, Enrm, Erow, Ex.
  apply get_state_Ok in Echi, Epsi.
  apply setitem_Ok in Erow', E. destruct Erow' as [_ ->], E as [_ ->].
  exists (Cscale (overlap chi (derivative_mul mu psi)) nrm), row, x.
  splits; try assumption; try reflexivity.
  exists chi, mapping, mu, psi, nrm. simpl.
  splits; eauto using state_at_Some.
Qed.

Lemma accumulate_updates_inv g bws fs norms p n ios delta delta' row x :
  foldM (accumulate_update pulses_mapping g bws fs norms p n) ios delta
    = Ok delta' ->
  delta !! p = Some row -> row !! n = Some x ->
  exists updates,
    Forall2 (is_update pulses_mapping g bws fs norms p n) ios updates /\
    delta' = <[p := <[n := foldl Cadd x updates]> row]> delta.
Proof.
  revert delta row x.
  induction ios as [|io ios IH]; intros delta row x E Hrow Hx; simpl in E.
  - inversion E; subst. exists []. split; [constructor|]. simpl.
    rewrite (list_insert_id row) by assumption.
    rewrite list_insert_id by assumption. reflexivity.
  - apply res_bind_Ok in E. destruct E as (delta1 & E1 & E).
    apply accumulate_update_inv in E1.
    destruct E1 as (u & row0 & x0 & Hu & Hrow0 & Hx0 & ->).
    rewrite Hrow in Hrow0. inversion Hrow0; subst row0; clear Hrow0.
    rewrite Hx in Hx0. inversion Hx0; subst x0; clear Hx0.
    apply lookup_lt_Some in Hrow as Hp. apply lookup_lt_Some in Hx as Hn.
    eapply IH in E;
      [|apply list_lookup_insert_eq; exact Hp
       |apply list_lookup_insert_eq; exact Hn].
    destruct E as (updates & Hups & ->).
    exists (u :: updates). split; [constructor; assumption|]. simpl.
    rewrite !list_insert_insert_eq. reflexivity.
Qed.

Lemma update_pulse_inv g o bws fs norms n t delta p gl w delta' w' :
  update_pulse objectives pulses_mapping options_list g o bws fs norms n t
    delta (p, gl) w = Ok (delta', w') ->
  exists options row x oitems l a v,
    foldM (accumulate_update pulses_mapping g bws fs norms p n)
          (enumerate objectives) delta = Ok delta' /\
    options_list !! p = Some options /\
    delta' !! p = Some row /\ row !! n = Some x /\
    lists w !! o = Some oitems /\ oitems !! p = Some l /\
    arrays w !! l = Some a /\ tolist a !! n = Some v /\
    w' = set_arrays
           (<[l := array_set a n
                     (v + shape options t / lambda_a options * im x)%R]>
              (arrays w)) w.
Proof.
  intros E. unfold update_pulse in E.
  apply M_bind_Ok in E. destruct E as (delta1 & w1 & Ed & E).
  apply lift_Ok in Ed. destruct Ed as [Ed ->].
  apply M_bind_Ok in E. destruct E as (options & w1 & Eo & E).
  apply lift_Ok in Eo. destruct Eo as [Eo ->].
  apply M_bind_Ok in E. destruct E as (row & w1 & Erow & E).
  apply lift_Ok in Erow. destruct Erow as [Erow ->].
  apply M_bind_Ok in E. destruct E as (x & w1 & Ex & E).
  apply lift_Ok in Ex. destruct Ex as [Ex ->].
  apply M_bind_Ok in E. destruct E as (oitems & w1 & Eoi & E).
  unfold read_list in Eoi. apply lift_Ok in Eoi. destruct Eoi as [Eoi ->].
  apply M_bind_Ok in E. destruct E as (l & w1 & El & E).
  apply lift_Ok in El. destruct El as [El ->].
  apply M_bind_Ok in E. destruct E as (a & w1 & Ea & E).
  unfold read_array in Ea. apply lift_Ok in Ea. destruct Ea as [Ea ->].
  apply M_bind_Ok in E. destruct E as (v & w1 & Ev & E).
  apply lift_Ok in Ev. destruct Ev as [Ev ->].
  apply M_bind_Ok in E. destruct E as (a1 & w1 & Ea1 & E).
  apply lift_Ok in Ea1. destruct Ea1 as [Ea1 ->].
  apply array_setitem_Ok in Ea1. destruct Ea1 as [_ ->].
  apply M_bind_Ok in E. destruct E as ([] & w1 & Ew & E).
  inversion E; subst delta1 w1; clear E.
  unfold write_array in Ew. unfold array_getitem in Ev.
  destruct (setitem (arrays w) l _) as [arrs|] eqn:Eset; [|discriminate Ew].
  inversion Ew; subst w'; clear Ew.
  apply getitem_Ok in Eo, Erow, Ex, Eoi, El, Ea, Ev.
  apply setitem_Ok in Eset. destruct Eset as [_ ->].
  exists options, row, x, oitems, l, a, v.
  splits; first [assumption | reflexivity].
Qed.

Lemma accumulate_updates_shape g bws fs norms p n ios delta delta' :
  foldM (accumulate_update pulses_mapping g bws fs norms p n) ios delta
    = Ok delta' ->
  (forall q, q <> p -> delta' !! q = delta !! q) /\
  (forall row', delta' !! p = Some row' ->
     exists row, delta !! p = Some row /\ length row' = length row).
Proof.
  revert delta. induction ios as [|io ios IH]; intros delta E; simpl in E.
  - inversion E; subst. split; [reflexivity|]. eauto.
  - apply res_bind_Ok in E. destruct E as (delta1 & E1 & E).
    apply accumulate_update_inv in E1.
    destruct E1 as (u & row & x & _ & Hrow & Hx & ->).
    apply IH in E. destruct E as [Hother Hrow'].
    apply lookup_lt_Some in Hrow as Hp. split.
    + intros q Hq. rewrite Hother by assumption.
      apply list_lookup_insert_ne. congruence.
    + intros row' E'. apply Hrow' in E'. destruct E' as (row1 & E1 & Hlen).
      rewrite list_lookup_insert_eq in E1 by assumption.
      inversion E1; subst row1. rewrite length_insert in Hlen. eauto.
Qed.

(** The effect of the loop over the pulses at one midpoint. *)
Lemma update_pulses_inv g o bws fs norms n t ips delta w delta' w' oitems :
  foldM (update_pulse objectives pulses_mapping options_list g o bws fs norms
           n t) ips delta w = Ok (delta', w') ->
  lists w !! o = Some oitems -> NoDup oitems -> NoDup ips.*1 ->
  lists w' = lists w /\ time_queries w' = time_queries w /\
  length (arrays w') = length (arrays w) /\
  (forall l, (forall p, p ∈ ips.*1 -> oitems !! p <> Some l) ->
     arrays w' !! l = arrays w !! l) /\
  (forall q, q ∉ ips.*1 -> delta' !! q = delta !! q) /\
  (forall p, p ∈ ips.*1 ->
     exists options l a v row x updates,
       options_list !! p = Some options /\ oitems !! p = Some l /\
       arrays w !! l = Some a /\ tolist a !! n = Some v /\
       delta !! p = Some row /\ row !! n = Some x /\
       Forall2 (is_update pulses_mapping g bws fs norms p n) (enumerate objectives)
         updates /\
       delta' !! p = Some (<[n := foldl Cadd x updates]> row) /\
       arrays w' !! l
         = Some (array_set a n
                   (v + shape options t / lambda_a options
                        * im (foldl Cadd x updates))%R)).
Proof.
  revert delta w.
  induction ips as [|[p0 gl] ips IH]; intros delta w E Ho Hnd Hips.
  - inversion E; subst. splits; auto. intros p Hp. inversion Hp.
  - rewrite foldM_cons in E.
    apply M_bind_Ok in E. destruct E as (delta1 & w1 & E1 & E).
    apply update_pulse_inv in E1.
    destruct E1 as (options & row1 & x1 & oitems0 & l0 & a0 & v0 & Eacc
                    & Hopt & Hrow1 & Hx1 & Ho0 & Hl0 & Ha0 & Hv0 & ->).
    rewrite Ho in Ho0. inversion Ho0; subst oitems0; clear Ho0.
    simpl in Hips. apply NoDup_cons in Hips. destruct Hips as [Hp0 Hips].
    pose proof (IH delta1 _ E Ho Hnd Hips) as IHE. simpl in IHE.
    destruct IHE as (Hlists & Htq & Hlen & Hframe & Hdelta & Hpulse).
    destruct (accumulate_updates_shape _ _ _ _ _ _ _ _ _ Eacc)
      as [Hother Hsame].
    destruct (Hsame _ Hrow1) as (row & Hrow & Hlenrow).
    assert (exists x, row !! n = Some x) as [x Hx].
    { apply lookup_lt_is_Some. rewrite <- Hlenrow.
      eapply lookup_lt_Some, Hx1. }
    destruct (accumulate_updates_inv _ _ _ _ _ _ _ _ _ _ _ Eacc Hrow Hx)
      as (updates & Hups & ->).
    apply lookup_lt_Some in Hrow as Hp0lt.
    rewrite list_lookup_insert_eq in Hrow1 by assumption.
    inversion Hrow1; subst row1; clear Hrow1.
    rewrite list_lookup_insert_eq in Hx1
      by (eapply lookup_lt_Some, Hx).
    inversion Hx1; subst x1; clear Hx1.
    apply lookup_lt_Some in Ha0 as Hl0lt.
    assert (forall p, p ∈ ips.*1 -> oitems !! p <> Some l0) as Hl0rest.
    { intros p Hp Hpl. assert (p = p0) as ->; [|contradiction].
      exact (NoDup_lookup _ _ _ _ Hnd Hpl Hl0). }
    splits.
    + exact Hlists.
    + exact Htq.
    + rewrite Hlen. apply length_insert.
    + intros l Hl. rewrite Hframe.
      * apply list_lookup_insert_ne. intros ->.
        apply (Hl p0); [left|exact Hl0].
      * intros p Hp. apply Hl. right. exact Hp.
    + intros q Hq. rewrite Hdelta.
      * apply list_lookup_insert_ne. intros ->. apply Hq. left.
      * intros Hq'. apply Hq. right. exact Hq'.
    + intros p Hp. simpl in Hp. apply elem_of_cons in Hp.
      destruct Hp as [->|Hp].
      * exists options, l0, a0, v0, row, x, updates.
        splits; try assumption.
        -- rewrite Hdelta by assumption.
           apply list_lookup_insert_eq. exact Hp0lt.
        -- rewrite Hframe by assumption.
           apply list_lookup_insert_eq. exact Hl0lt.
      * destruct (Hpulse p Hp)
          as (options' & l & a & v & row' & x' & updates' & H1 & H2 & H3
              & H4 & H5 & H6 & H7 & H8 & H9).
        assert (p <> p0) as Hne by (intros ->; contradiction).
        assert (l <> l0) as Hlne.
        { intros ->. apply Hne. exact (NoDup_lookup _ _ _ _ Hnd H2 Hl0). }
        rewrite list_lookup_insert_ne in H3 by congruence.
        rewrite list_lookup_insert_ne in H5 by congruence.
        exists options', l, a, v, row', x', updates'.
        splits; assumption.
Qed.

Lemma store_forward_states_inv (fws : list State) n idxs
    (fs fs' : list (list (option State))) :
  foldM (fun forward_states i_obj =>
           s ← getitem fws i_obj;
           trajectory ← getitem forward_states i_obj;
           trajectory ← setitem trajectory (n + 1) (Some s);
           setitem forward_states i_obj trajectory) idxs fs = Ok fs' ->
  forall i k, k <> n + 1 -> state_at fs' i k = state_at fs i k.
Proof.
  revert fs. induction idxs as [|i0 idxs IH]; intros fs E i k Hk.
  - inversion E; subst. reflexivity.
  - rewrite foldM_cons in E.
    apply res_bind_Ok in E. destruct E as (fs1 & E1 & E).
    rewrite (IH _ E) by assumption. clear IH E.
    apply res_bind_Ok in E1. destruct E1 as (s & _ & E1).
    apply res_bind_Ok in E1. destruct E1 as (tr & Etr & E1).
    apply res_bind_Ok in E1. destruct E1 as (tr' & Etr' & E1).
    apply getitem_Ok in Etr. apply setitem_Ok in Etr', E1.
    destruct Etr' as [_ ->], E1 as [Hi0 ->].
    unfold state_at. destruct (decide (i = i0)) as [->|Hne].
    + rewrite list_lookup_insert_eq by assumption. rewrite Etr. simpl.
      rewrite list_lookup_insert_ne by congruence. reflexivity.
    + rewrite list_lookup_insert_ne by congruence. reflexivity.
Qed.

Lemma enumerate_fst {A : Type} (l : list A) :
  (enumerate l).*1 = seq 0 (length l).
Proof. unfold enumerate. apply fst_zip. rewrite length_seq. lia. Qed.

(** The effect of one pass of the loop over the midpoints. *)
Lemma time_step_inv g o bws norms delta fs fws n t w delta' fs' fws' w'
    gitems oitems :
  time_step objectives pulses_mapping options_list tlist propagator g o bws
    norms (delta, fs, fws) (n, t) w = Ok ((delta', fs', fws'), w') ->
  lists w !! g = Some gitems -> lists w !! o = Some oitems ->
  NoDup oitems -> length oitems = length gitems ->
  lists w' = lists w /\ time_queries w' = time_queries w /\
  length (arrays w') = length (arrays w) /\
  (forall l, l ∉ oitems -> arrays w' !! l = arrays w !! l) /\
  (forall q, length gitems <= q -> delta' !! q = delta !! q) /\
  (forall i k, k <> n + 1 -> state_at fs' i k = state_at fs i k) /\
  is_Some fws' /\
  (forall p l, oitems !! p = Some l ->
     exists options a v row x updates,
       options_list !! p = Some options /\
       arrays w !! l = Some a /\ tolist a !! n = Some v /\
       delta !! p = Some row /\ row !! n = Some x /\
       Forall2 (is_update pulses_mapping g bws fs norms p n) (enumerate objectives)
         updates /\
       delta' !! p = Some (<[n := foldl Cadd x updates]> row) /\
       arrays w' !! l
         = Some (array_set a n
                   (v + shape options t / lambda_a options
                        * im (foldl Cadd x updates))%R)).
Proof.
  intros E Hg Ho Hnd Hlen. unfold time_step in E.
  apply M_bind_Ok in E. destruct E as (gitems' & w1 & Eg & E).
  unfold read_list in Eg. apply lift_Ok in Eg. destruct Eg as [Eg ->].
  apply getitem_Ok in Eg. rewrite Hg in Eg. inversion Eg; subst gitems'.
  clear Eg.
  apply M_bind_Ok in E. destruct E as (delta1 & w1 & Eup & E).
  apply M_bind_Ok in E. destruct E as (fws1 & w2 & Efw & E).
  apply reads_unchanged in Efw as Hw2;
    [subst w2
    |apply reads_mapM; intros i; apply reads_forward_propagation_step].
  apply M_bind_Ok in E. destruct E as (fs1 & w2 & Est & E).
  apply lift_Ok in Est. destruct Est as [Est ->].
  inversion E; subst delta1 fs1 fws' w1; clear E.
  pose proof (update_pulses_inv _ _ _ _ _ _ _ _ _ _ _ _ _ Eup Ho Hnd) as Hup.
  rewrite enumerate_fst in Hup. specialize (Hup (NoDup_seq _ _)).
  destruct Hup as (Hlists & Htq & Hlena & Hframe & Hdelta & Hpulse).
  splits; try assumption.
  - intros l Hl. apply Hframe. intros p _ Hpl. apply Hl.
    eapply list_elem_of_lookup_2, Hpl.
  - intros q Hq. apply Hdelta. rewrite elem_of_seq. lia.
  - eapply store_forward_states_inv, Est.
  - eauto.
  - intros p l Hpl.
    destruct (Hpulse p)
      as (options & l' & a & v & row & x & updates & H1 & H2 & H3 & H4
          & H5 & H6 & H7 & H8 & H9).
    { rewrite elem_of_seq. apply lookup_lt_Some in Hpl. lia. }
    rewrite Hpl in H2. inversion H2; subst l'.
    exists options, a, v, row, x, updates. splits; assumption.
Qed.

Lemma is_update_ext g bws fs fs' norms p n io u :
  (forall i, state_at fs' i n = state_at fs i n) ->
  is_update pulses_mapping g bws fs norms p n io u -> is_update pulses_mapping g bws fs' norms p n io u.
Proof.
  intros Hfs (chi & mapping & mu & psi & nrm & H1 & H2 & H3 & H4 & H5 & H6).
  exists chi, mapping, mu, psi, nrm. rewrite Hfs. splits; assumption.
Qed.

(** The effect of the whole loop over the midpoints, started at midpoint
    [n0] with the accumulators of the midpoints from [n0] on still zero. *)
Lemma time_loop_inv g o bws norms gitems oitems ts :
  forall n0 delta fs fws w delta' fs' fws' w',
  foldM (time_step objectives pulses_mapping options_list tlist propagator g
           o bws norms)
        (zip (seq n0 (length ts)) ts) (delta, fs, fws) w
    = Ok ((delta', fs', fws'), w') ->
  lists w !! g = Some gitems -> lists w !! o = Some oitems ->
  NoDup oitems -> length oitems = length gitems ->
  (forall p row m x,
     delta !! p = Some row -> row !! m = Some x -> n0 <= m -> x = C0) ->
  lists w' = lists w /\ time_queries w' = time_queries w /\
  length (arrays w') = length (arrays w) /\
  (forall l, l ∉ oitems -> arrays w' !! l = arrays w !! l) /\
  (forall i k, k <= n0 -> state_at fs' i k = state_at fs i k) /\
  (forall p l a, oitems !! p = Some l -> arrays w !! l = Some a ->
     exists a',
       arrays w' !! l = Some a' /\
       length (tolist a') = length (tolist a) /\
       (forall m, m < n0 \/ n0 + length ts <= m ->
          tolist a' !! m = tolist a !! m) /\
       (forall j t, ts !! j = Some t ->
          exists options v updates,
            options_list !! p = Some options /\
            tolist a !! (n0 + j) = Some v /\
            Forall2 (is_update pulses_mapping g bws fs' norms p (n0 + j))
              (enumerate objectives) updates /\
            tolist a' !! (n0 + j)
              = Some (cast (dtype_of a)
                        (v + shape options t / lambda_a options
                             * im (foldl Cadd C0 updates))%R)) /\
       dtype_of a' = dtype_of a).
Proof.
  induction ts as [|t ts IH];
    intros n0 delta fs fws w delta' fs' fws' w' E Hg Ho Hnd Hlen Hzero.
  - inversion E; subst. splits; auto.
    intros p l a _ Ha. exists a. splits; auto.
    intros j t Hj. inversion Hj.
  - change (zip (seq n0 (length (t :: ts))) (t :: ts))
      with ((n0, t) :: zip (seq (S n0) (length ts)) ts) in E.
    rewrite foldM_cons in E.
    apply M_bind_Ok in E. destruct E as ([[delta1 fs1] fws1] & w1 & E1 & E).
    pose proof (time_step_inv _ _ _ _ _ _ _ _ _ _ _ _ _ _ _ _ E1 Hg Ho Hnd
                  Hlen)
      as (Hl1 & Htq1 & Hlen1 & Hframe1 & Hdelta1 & Hfs1 & _ & Hpulse1).
    assert (forall p row m x,
              delta1 !! p = Some row -> row !! m = Some x -> S n0 <= m ->
              x = C0) as Hzero1.
    { intros p row m x Hrow Hx Hm.
      destruct (decide (p < length gitems)) as [Hp|Hp].
      - destruct (lookup_lt_is_Some_2 oitems p) as [l Hl]; [lia|].
        destruct (Hpulse1 p l Hl)
          as (? & ? & ? & row0 & x0 & ups & _ & _ & _ & Hrow0 & _ & _
              & Hrow1 & _).
        rewrite Hrow1 in Hrow. inversion Hrow; subst row.
        rewrite list_lookup_insert_ne in Hx by lia.
        eapply Hzero; [exact Hrow0|exact Hx|lia].
      - rewrite Hdelta1 in Hrow by lia.
        eapply Hzero; [exact Hrow|exact Hx|lia]. }
    rewrite <- Hl1 in Hg, Ho.
    pose proof (IH _ _ _ _ _ _ _ _ _ E Hg Ho Hnd Hlen Hzero1)
      as (Hl2 & Htq2 & Hlen2 & Hframe2 & Hfs2 & Hpulse2).
    splits.
    + congruence.
    + congruence.
    + congruence.
    + intros l Hl. rewrite Hframe2, Hframe1 by assumption. reflexivity.
    + intros i k Hk. rewrite Hfs2 by lia. apply Hfs1. lia.
    + intros p l a Hpl Ha.
      destruct (Hpulse1 p l Hpl)
        as (options & a0 & v & row & x & updates & Hopt & Ha0 & Hv & Hrow
            & Hx & Hups & _ & Ha1).
      rewrite Ha in Ha0. inversion Ha0; subst a0; clear Ha0.
      assert (x = C0) as -> by (eapply Hzero; [exact Hrow|exact Hx|lia]).
      destruct (Hpulse2 p l _ Hpl Ha1)
        as (a' & Ha' & Hlena' & Hsame & Hupd & Hdt).
      rewrite tolist_array_set in Hlena', Hsame.
      rewrite dtype_of_array_set in Hdt.
      exists a'. splits.
      * exact Ha'.
      * rewrite Hlena'. apply length_insert.
      * intros m Hm. simpl in Hm. rewrite Hsame by lia.
        apply list_lookup_insert_ne. lia.
      * intros j t' Hj. destruct j as [|j]; simpl in Hj.
        -- inversion Hj; subst t'. rewrite Nat.add_0_r.
           exists options, v, updates. splits; try assumption.
           ++ eapply Forall2_impl; [exact Hups|]. intros io u.
              apply is_update_ext. intros i. rewrite Hfs2 by lia.
              apply Hfs1. lia.
           ++ rewrite Hsame by lia. apply list_lookup_insert_eq.
              eapply lookup_lt_Some, Hv.
        -- destruct (Hupd j t' Hj)
             as (options' & v' & updates' & H1 & H2 & H3 & H4).
           replace (n0 + S j) with (S n0 + j) by lia.
           rewrite dtype_of_array_set in H4.
           exists options', v', updates'. splits; try assumption.
           rewrite tolist_array_set, list_lookup_insert_ne in H2 by lia.
           exact H2.
      * exact Hdt.
Qed.

End PulseUpdate.

(** ** One iteration, from a well-formed list of guess pulses *)

Section IterationEffect.
Context `{Conversions}.
Variable objectives : list Objective.t.
Variable adjoint_objectives : list Objective.t.
Variable pulses_mapping : list objective_mapping.
Variable options_list : list PulseOptions.
Variable tlist : list R.
Variable tlist_midpoints : list R.
Variable propagator : Plugged -> State -> R -> list Plugged -> bool -> State.
Variable chi_constructor :
  list State -> list Objective.t -> list (list complex) -> list State.
Variable info_hook : option InfoHook.
Variable store_all_pulses : bool.

Abbreviation body :=
  (krotov_iteration_body objectives adjoint_objectives pulses_mapping
     options_list tlist tlist_midpoints propagator chi_constructor info_hook
     store_all_pulses).

Lemma deepcopy_inv g w o w' gitems :
  deepcopy g w = Ok (o, w') ->
  lists w !! g = Some gitems -> NoDup gitems ->
  Forall (fun l => l < length (arrays w)) gitems ->
  exists contents,
    Forall2 (fun l a => arrays w !! l = Some a) gitems contents /\
    o = length (lists w) /\
    arrays w' = arrays w ++ contents /\
    lists w' = lists w ++ [seq (length (arrays w)) (length gitems)] /\
    time_queries w' = time_queries w.
Proof.
  intros E Hg Hnd Hval. unfold deepcopy in E.
  apply M_bind_Ok in E. destruct E as (items & w1 & Ei & E).
  unfold read_list in Ei. apply lift_Ok in Ei. destruct Ei as [Ei ->].
  apply getitem_Ok in Ei. rewrite Hg in Ei. inversion Ei; subst items.
  apply M_bind_Ok in E. destruct E as (items' & w1 & Ec & E).
  apply deepcopy_items_nodup in Ec; [|assumption|reflexivity|assumption].
  destruct Ec as (contents & Hc & -> & ->).
  inversion E; subst o w'; clear E. simpl.
  exists contents. splits; auto.
Qed.

Lemma krotov_iteration_body_effect st k w st' w' :
  body st k w = Ok (st', w') ->
  pulses_wf w (guess_pulses st) ->
  exists gitems bws,
    lists w !! guess_pulses st = Some gitems /\
    guess_pulses st' = length (lists w) /\
    optimized_pulses st' = Some (length (lists w)) /\
    lists w' = lists w ++ [seq (length (arrays w)) (length gitems)] /\
    length (arrays w') = length (arrays w) + length gitems /\
    (forall l, l < length (arrays w) -> arrays w' !! l = arrays w !! l) /\
    backward_states st' = Some bws /\
    (forall p gl a,
       gitems !! p = Some gl -> arrays w !! gl = Some a ->
       exists a',
         arrays w' !! (length (arrays w) + p) = Some a' /\
         length (tolist a') = length (tolist a) /\
         (forall m, length tlist_midpoints <= m ->
            tolist a' !! m = tolist a !! m) /\
         (forall n t, tlist_midpoints !! n = Some t ->
            exists options v updates,
              options_list !! p = Some options /\
              tolist a !! n = Some v /\
              Forall2 (is_update pulses_mapping (guess_pulses st) bws
                         (forward_states st')
                         (boundary_norms objectives chi_constructor st) p n)
                      (enumerate objectives) updates /\
              tolist a' !! n
                = Some (cast (dtype_of a)
                          (v + shape options t / lambda_a options
                               * im (foldl Cadd C0 updates))%R)) /\
         dtype_of a' = dtype_of a).
Proof.
  intros E (gitems & Hg & Hnd & Hval).
  apply krotov_iteration_body_inv in E.
  destruct E as (bws & fs0 & gitems' & o & w_b & delta & fs & fws & w_c
                 & _ & _ & Hg' & Edc & Eloop & -> & Hgo & Hopt & Hbws & Hfs
                 & _).
  rewrite Hg in Hg'. inversion Hg'; subst gitems'; clear Hg'.
  change (lists (tick w)) with (lists w) in *.
  destruct (deepcopy_inv _ _ _ _ gitems Edc Hg Hnd Hval)
    as (contents & Hc & -> & Harr & Hlists & Htq).
  simpl in Harr, Hlists.
  apply Forall2_length in Hc as Hclen.
  apply lookup_lt_Some in Hg as Hglt.
  assert (lists w_b !! guess_pulses st = Some gitems) as Hgb.
  { rewrite Hlists. rewrite lookup_app_l; assumption. }
  assert (lists w_b !! length (lists w)
          = Some (seq (length (arrays w)) (length gitems))) as Hob.
  { rewrite Hlists. apply list_lookup_middle. reflexivity. }
  unfold enumerate in Eloop.
  pose proof (time_loop_inv objectives pulses_mapping options_list tlist
                propagator _ _ _ _ gitems _ tlist_midpoints 0 _ _ _ _ _ _ _
                _ Eloop Hgb Hob (NoDup_seq _ _) (length_seq _ _)) as Hloop.
  destruct Hloop as (Hl & _ & Hlen & Hframe & _ & Hpulse).
  { intros p row m x Hrow Hx _.
    apply lookup_replicate in Hrow. destruct Hrow as [-> _].
    apply lookup_replicate in Hx. destruct Hx as [-> _]. reflexivity. }
  exists gitems, bws. simpl. splits; try assumption.
  - congruence.
  - rewrite Hlen, Harr, length_app. lia.
  - intros l Hlt. rewrite Hframe.
    + rewrite Harr. apply lookup_app_l. exact Hlt.
    + rewrite elem_of_seq. lia.
  - intros p gl a Hp Ha.
    destruct (Forall2_lookup_l _ _ _ _ _ Hc Hp) as (a0 & Ha0 & Hgl).
    simpl in Hgl. rewrite Ha in Hgl. inversion Hgl; subst a0; clear Hgl.
    apply lookup_lt_Some in Hp as Hplt.
    destruct (Hpulse p (length (arrays w) + p) a)
      as (a' & Ha' & Hlena' & Hsame & Hupd & Hdt).
    { apply lookup_seq_lt. exact Hplt. }
    { rewrite Harr. rewrite lookup_app_r by lia.
      replace (length (arrays w) + p - length (arrays w)) with p by lia.
      exact Ha0. }
    exists a'. splits; try assumption.
    + intros m Hm. apply Hsame. right. simpl. exact Hm.
    + intros n t Hn. destruct (Hupd n t Hn)
        as (options & v & updates & H1 & H2 & H3 & H4).
      simpl in H2, H3, H4. subst fs.
      exists options, v, updates. splits; assumption.
Qed.

Lemma krotov_iteration_body_wf st k w st' w' :
  body st k w = Ok (st', w') ->
  pulses_wf w (guess_pulses st) -> pulses_wf w' (guess_pulses st').
Proof.
  intros E Hwf.
  destruct (krotov_iteration_body_effect _ _ _ _ _ E Hwf)
    as (gitems & bws & _ & -> & _ & Hl & Hlen & _).
  exists (seq (length (arrays w)) (length gitems)). splits.
  - rewrite Hl. apply list_lookup_middle. reflexivity.
  - apply NoDup_seq.
  - apply Forall_forall. intros l Hin. apply elem_of_seq in Hin. lia.
Qed.

End IterationEffect.

(** ** The operators handed to the propagator *)

(** A relation between the items of [enumerate(l)] and a list, by index. *)
Lemma lookup_enumerate {A : Type} (l : list A) i j x :
  enumerate l !! i = Some (j, x) <-> j = i /\ l !! i = Some x.
Proof.
  unfold enumerate. rewrite lookup_zip_with_Some. split.
  - intros (j' & x' & Heq & Hj & Hx). inversion Heq; subst j' x'.
    apply lookup_seq in Hj. destruct Hj as [Hj _]. simpl in Hj. auto.
  - intros [-> Hx]. exists i, x. split; [reflexivity|]. split; [|exact Hx].
    apply lookup_seq_lt. eapply lookup_lt_Some, Hx.
Qed.

Lemma Forall2_enumerate {A B : Type} (P : nat * A -> B -> Prop)
    (l : list A) (us : list B) :
  Forall2 P (enumerate l) us <->
  length us = length l /\
  forall i x, l !! i = Some x -> exists u, us !! i = Some u /\ P (i, x) u.
Proof.
  assert (length (enumerate l) = length l) as Hlen.
  { unfold enumerate. rewrite length_zip_with, length_seq. lia. }
  split.
  - intros Hall. split.
    + apply Forall2_length in Hall. lia.
    + intros i x Hx.
      destruct (Forall2_lookup_l _ _ _ _ _ Hall
                  (proj2 (lookup_enumerate l i i x) (conj eq_refl Hx)))
        as (u & Hu & HP). eauto.
  - intros [Hlen' Hall]. apply Forall2_same_length_lookup_2; [lia|].
    intros i [j x] u Hix Hu. apply lookup_enumerate in Hix.
    destruct Hix as [-> Hx]. destruct (Hall i x Hx) as (u' & Hu' & HP).
    congruence.
Qed.


Lemma M_bind_intro {A B : Type} (m : M A) (f : A -> M B) w a w1 r :
  m w = Ok (a, w1) -> f a w1 = r -> (m ≫= f) w = r.
Proof. intros E <-. unfold mbind, M_bind. rewrite E. reflexivity. Qed.

Lemma lift_bind_intro {A B : Type} (x : res A) (f : A -> M B) w a r :
  x = Ok a -> f a w = r -> (lift x ≫= f) w = r.
Proof. intros -> <-. reflexivity. Qed.

Lemma mapM_reads_intro {A B : Type} (f : A -> M B) (l : list A) w bs :
  Forall2 (fun a b => f a w = Ok (b, w)) l bs ->
  mapM f l w = Ok (bs, w).
Proof.
  induction 1 as [|a b l bs Hab _ IH]; [reflexivity|].
  simpl. eapply M_bind_intro; [exact Hab|].
  eapply M_bind_intro; [exact IH|]. reflexivity.
Qed.

Lemma mapM_reads_inv {A B : Type} (f : A -> M B) (l : list A) w bs w' :
  (forall a, reads (f a)) ->
  mapM f l w = Ok (bs, w') ->
  w' = w /\ Forall2 (fun a b => f a w = Ok (b, w)) l bs.
Proof.
  intros Hf. revert bs. induction l as [|a l IH]; intros bs E.
  - inversion E; subst. split; [reflexivity|constructor].
  - simpl in E. apply M_bind_Ok in E. destruct E as (b & w1 & Eb & E).
    apply reads_unchanged in Eb as Hw1; [subst w1|apply Hf].
    apply M_bind_Ok in E. destruct E as (bs' & w1 & Ebs & E).
    inversion E; subst bs w'; clear E.
    apply IH in Ebs. destruct Ebs as [-> Hbs].
    split; [reflexivity|]. constructor; assumption.
Qed.

Lemma pulse_values_unique w pulses values1 values2 :
  pulse_values w pulses values1 -> pulse_values w pulses values2 ->
  values1 = values2.
Proof.
  intros [_ H1] [_ H2]. apply list_eq. intros p.
  rewrite <- H1, <- H2. reflexivity.
Qed.

(** What [read_pulses] returns. *)
Lemma read_pulses_Ok w pulses values w' :
  read_pulses pulses w = Ok (values, w') <->
  w' = w /\ pulse_values w pulses values.
Proof.
  unfold read_pulses, pulse_values, n_pulses, pulse_array. split.
  - intros E. apply M_bind_Ok in E. destruct E as (items & w1 & Ei & E).
    unfold read_list in Ei. apply lift_Ok in Ei. destruct Ei as [Ei ->].
    apply getitem_Ok in Ei.
    apply mapM_reads_inv in E; [|intros l; apply reads_read_array].
    destruct E as [-> Hall]. split; [reflexivity|]. rewrite Ei. simpl.
    split; [f_equal; eapply Forall2_length, Hall|].
    intros p. destruct (items !! p) as [l|] eqn:Hl; simpl.
    + destruct (Forall2_lookup_l _ _ _ _ _ Hall Hl) as (a & Ha & Ea).
      unfold read_array in Ea. apply lift_Ok in Ea. destruct Ea as [Ea _].
      apply getitem_Ok in Ea. congruence.
    + symmetry. apply lookup_ge_None. apply lookup_ge_None in Hl.
      apply Forall2_length in Hall. lia.
  - intros (-> & Hn & Hp).
    destruct (lists w !! pulses) as [items|] eqn:Hitems; [|discriminate Hn].
    simpl in Hn, Hp. inversion Hn as [Hlen].
    eapply M_bind_intro.
    { unfold read_list. rewrite (proj2 (getitem_Ok _ _ _) Hitems).
      reflexivity. }
    apply mapM_reads_intro. apply Forall2_same_length_lookup_2.
    + exact Hlen.
    + intros p l a Hl Ha. specialize (Hp p). rewrite Hl, Ha in Hp.
      simpl in Hp. unfold read_array.
      rewrite (proj2 (getitem_Ok _ _ _) Hp). reflexivity.
Qed.

Section Operators.
Context `{Conversions}.

(** What [operators_at] returns: the three assignments before the call of
    the propagator. *)
Lemma operators_at_Ok obj pulses mapping tlist n w ham c_ops dt w' :
  operators_at obj pulses mapping tlist n w = Ok ((ham, c_ops, dt), w') <->
  w' = w /\ plugged_in obj pulses mapping tlist n w ham c_ops dt.
Proof.
  unfold operators_at, call_plug_in_pulse_values, plugged_in. split.
  - intros E.
    apply M_bind_Ok in E. destruct E as (slot & w1 & Eslot & E).
    apply lift_Ok in Eslot. destruct Eslot as [Eslot ->].
    apply getitem_Ok in Eslot.
    apply M_bind_Ok in E. destruct E as (ham' & w1 & Eham & E).
    apply M_bind_Ok in Eham. destruct Eham as (values & w2 & Ev & Eham).
    apply read_pulses_Ok in Ev. destruct Ev as [-> Hvalues].
    apply lift_Ok in Eham. destruct Eham as [Eham ->].
    apply M_bind_Ok in E. destruct E as (c_ops' & w1 & Ec & E).
    apply mapM_reads_inv in Ec.
    2:{ intros [ic c_op]. apply reads_bind; [apply reads_lift|]. intros ?.
        apply reads_bind; [apply reads_read_pulses|]. intros ?.
        apply reads_lift. }
    destruct Ec as [-> Hc]. apply Forall2_enumerate in Hc.
    destruct Hc as [Hlen Hc].
    apply M_bind_Ok in E. destruct E as (t1 & w1 & Et1 & E).
    apply lift_Ok in Et1. destruct Et1 as [Et1 ->].
    apply M_bind_Ok in E. destruct E as (t0 & w1 & Et0 & E).
    apply lift_Ok in Et0. destruct Et0 as [Et0 ->].
    apply getitem_Ok in Et1, Et0.
    inversion E; subst ham' c_ops' dt w'; clear E.
    split; [reflexivity|]. exists values, slot, t0, t1.
    splits; try assumption; try reflexivity.
    intros ic c_op Hic. destruct (Hc ic c_op Hic) as (c & Hcl & Ecall).
    apply M_bind_Ok in Ecall. destruct Ecall as (c_slot & w1 & Es & Ecall).
    apply lift_Ok in Es. destruct Es as [Es ->]. apply getitem_Ok in Es.
    apply M_bind_Ok in Ecall. destruct Ecall as (values' & w1 & Ev & Ecall).
    apply read_pulses_Ok in Ev. destruct Ev as [-> Hvalues'].
    apply lift_Ok in Ecall. destruct Ecall as [Ecall _].
    rewrite (pulse_values_unique _ _ _ _ Hvalues' Hvalues) in Ecall.
    exists c_slot, c. auto.
  - intros (-> & values & slot & t0 & t1 & Hvalues & Hslot & Hham & Hlen
            & Hc & Ht0 & Ht1 & ->).
    assert (read_pulses pulses w = Ok (values, w)) as Ev.
    { apply read_pulses_Ok. auto. }
    eapply lift_bind_intro; [apply getitem_Ok; exact Hslot|].
    eapply M_bind_intro.
    { eapply M_bind_intro; [exact Ev|]. rewrite Hham. reflexivity. }
    eapply M_bind_intro.
    { apply mapM_reads_intro. apply Forall2_enumerate.
      split; [exact Hlen|]. intros ic c_op Hic.
      destruct (Hc ic c_op Hic) as (c_slot & c & Hs & Hplug & Hcl).
      exists c. split; [exact Hcl|].
      eapply lift_bind_intro; [apply getitem_Ok; exact Hs|].
      eapply M_bind_intro; [exact Ev|]. rewrite Hplug. reflexivity. }
    eapply lift_bind_intro; [apply getitem_Ok; exact Ht1|].
    eapply lift_bind_intro; [apply getitem_Ok; exact Ht0|].
    reflexivity.
Qed.

End Operators.

(** ** Backward propagation *)

Section BackwardPropagation.
Context `{Conversions}.
Variable propagator : Plugged -> State -> R -> list Plugged -> bool -> State.

Lemma backward_loop_inv obj pulses mapping tlist m :
  forall s (arr : list (option State)) w s' arr' w',
  foldM (fun '(state, storage_array) time_index =>
           '(H, c_ops, dt) ←
             operators_at obj pulses mapping tlist time_index;
           let state := propagator H state dt c_ops true in
           storage_array ←
             lift (setitem storage_array time_index (Some state));
           mret (state, storage_array))
        (reverse (seq 0 m)) (s, arr) w = Ok ((s', arr'), w') ->
  arr !! m = Some (Some s) ->
  w' = w /\ length arr' = length arr /\
  (forall k, m <= k -> arr' !! k = arr !! k) /\
  (forall n, n < m ->
     exists s1 ham c_ops dt,
       operators_at obj pulses mapping tlist n w = Ok ((ham, c_ops, dt), w) /\
       arr' !! (n + 1) = Some (Some s1) /\
       arr' !! n = Some (Some (propagator ham s1 dt c_ops true))).
Proof.
  induction m as [|m IH]; intros s arr w s' arr' w' E Hm.
  - inversion E; subst. splits; auto. intros n Hn. lia.
  - rewrite seq_S, reverse_app in E. simpl in E.
    change (reverse [m]) with [m] in E. simpl in E.
    apply M_bind_Ok in E. destruct E as ([s1 arr1] & w1 & E1 & E).
    apply M_bind_Ok in E1. destruct E1 as ([[Hm' c_ops] dt] & w2 & Eop & E1).
    apply reads_unchanged in Eop as Hw2;
      [subst w2|apply reads_operators_at].
    apply M_bind_Ok in E1. destruct E1 as (arr2 & w2 & Eset & E1).
    apply lift_Ok in Eset. destruct Eset as [Eset ->].
    apply setitem_Ok in Eset. destruct Eset as [Hlt ->].
    inversion E1; subst s1 arr1 w1; clear E1.
    apply IH in E; [|apply list_lookup_insert_eq; exact Hlt].
    destruct E as (-> & Hlen & Hge & Hrec).
    splits.
    + reflexivity.
    + rewrite Hlen. apply length_insert.
    + intros k Hk. rewrite Hge by lia. apply list_lookup_insert_ne. lia.
    + intros n Hn. destruct (decide (n = m)) as [->|Hne].
      * exists s, Hm', c_ops, dt. splits.
        -- exact Eop.
        -- rewrite Hge by lia. rewrite list_lookup_insert_ne by lia.
           rewrite Nat.add_1_r. exact Hm.
        -- rewrite Hge by lia. apply list_lookup_insert_eq. exact Hlt.
      * apply Hrec. lia.
Qed.

Lemma backward_propagation_inv i chi adj pulses pm tlist w bw w' :
  _backward_propagation propagator i chi adj pulses pm tlist w
    = Ok (bw, w') ->
  exists chi_i obj mapping,
    chi !! i = Some chi_i /\ adj !! i = Some obj /\
    pm !! i = Some mapping /\
    length bw = length tlist /\
    bw !! (length tlist - 1) = Some (Some chi_i) /\
    (forall n, n + 1 < length tlist ->
       exists s ham c_ops dt,
         operators_at obj pulses mapping tlist n w
           = Ok ((ham, c_ops, dt), w) /\
         bw !! (n + 1) = Some (Some s) /\
         bw !! n = Some (Some (propagator ham s dt c_ops true))).
Proof.
  intros E. unfold _backward_propagation in E.
  apply M_bind_Ok in E. destruct E as (chi_i & w1 & Echi & E).
  apply lift_Ok in Echi. destruct Echi as [Echi ->].
  apply M_bind_Ok in E. destruct E as (obj & w1 & Eobj & E).
  apply lift_Ok in Eobj. destruct Eobj as [Eobj ->].
  apply M_bind_Ok in E. destruct E as (arr & w1 & Earr & E).
  apply lift_Ok in Earr. destruct Earr as [Earr ->].
  apply M_bind_Ok in E. destruct E as (mapping & w1 & Emap & E).
  apply lift_Ok in Emap. destruct Emap as [Emap ->].
  apply M_bind_Ok in E. destruct E as ([s' arr'] & w1 & Eloop & E).
  inversion E; subst bw w1; clear E.
  apply getitem_Ok in Echi, Eobj, Emap.
  apply setitem_Ok in Earr. destruct Earr as [Hlt ->].
  unfold storage in *. rewrite length_replicate in Hlt.
  apply backward_loop_inv in Eloop;
    [|apply list_lookup_insert_eq; rewrite length_replicate; exact Hlt].
  destruct Eloop as (-> & Hlen & Hge & Hrec).
  rewrite length_insert, length_replicate in Hlen.
  exists chi_i, obj, mapping. splits; try assumption.
  - rewrite Hge by lia. apply list_lookup_insert_eq.
    rewrite length_replicate. exact Hlt.
  - intros n Hn. apply Hrec. lia.
Qed.

End BackwardPropagation.

(** ** Finalization *)

Section Finalization.
Context `{Conversions}.

Lemma finalization_loop_inv (result : Result.t) o rest :
  Result.optimized_controls result = Some o ->
  forall j w w' u cur,
  foldM (fun (_ : unit) '(i, pulse) =>
           a ← read_array pulse;
           new ← alloc_array (pulse_onto_tlist a);
           controls ←
             match Result.optimized_controls result with
             | Some controls => mret controls
             | None => raise TypeError
             end;
           current ← read_list controls;
           current ← lift (setitem current i new);
           write_list controls current)
        (zip (seq j (length rest)) rest) tt w = Ok (u, w') ->
  lists w !! o = Some cur ->
  Forall (fun l => l < length (arrays w)) rest ->
  exists cur',
    lists w' !! o = Some cur' /\ length cur' = length cur /\
    length (arrays w') = length (arrays w) + length rest /\
    (forall l, l < length (arrays w) -> arrays w' !! l = arrays w !! l) /\
    (forall i, i < j \/ j + length rest <= i -> cur' !! i = cur !! i) /\
    (forall idx l a,
       rest !! idx = Some l -> arrays w !! l = Some a ->
       cur' !! (j + idx) = Some (length (arrays w) + idx) /\
       arrays w' !! (length (arrays w) + idx) = Some (pulse_onto_tlist a)).
Proof.
  intros Hoc.
  induction rest as [|pulse rest IH]; intros j w w' u cur E Ho Hval.
  - inversion E; subst. exists cur. simpl. splits; auto.
    intros idx l a Hl. inversion Hl.
  - change (zip (seq j (length (pulse :: rest))) (pulse :: rest))
      with ((j, pulse) :: zip (seq (S j) (length rest)) rest) in E.
    rewrite foldM_cons in E.
    apply M_bind_Ok in E. destruct E as ([] & w2 & E1 & E).
    apply M_bind_Ok in E1. destruct E1 as (a & w1 & Ea & E1).
    unfold read_array in Ea. apply lift_Ok in Ea. destruct Ea as [Ea ->].
    apply getitem_Ok in Ea.
    apply M_bind_Ok in E1. destruct E1 as (new & w1 & Enew & E1).
    inversion Enew; subst new w1; clear Enew.
    rewrite Hoc in E1.
    apply M_bind_Ok in E1. destruct E1 as (controls & w1 & Ec & E1).
    inversion Ec; subst controls w1; clear Ec.
    apply M_bind_Ok in E1. destruct E1 as (current & w1 & Ecur & E1).
    unfold read_list in Ecur. apply lift_Ok in Ecur.
    destruct Ecur as [Ecur ->]. apply getitem_Ok in Ecur. simpl in Ecur.
    rewrite Ho in Ecur. inversion Ecur; subst current; clear Ecur.
    apply M_bind_Ok in E1. destruct E1 as (current & w1 & Eset & E1).
    apply lift_Ok in Eset. destruct Eset as [Eset ->].
    apply setitem_Ok in Eset. destruct Eset as [Hj ->].
    unfold write_list in E1. simpl in E1.
    destruct (setitem (lists w) o _) as [ls|] eqn:Els; [|discriminate E1].
    inversion E1; subst w2; clear E1.
    apply setitem_Ok in Els. destruct Els as [Holt ->].
    apply Forall_cons in Hval. destruct Hval as [Hpulse Hval].
    eapply IH in E; cycle 1.
    + unfold set_arrays, set_lists. cbn [arrays lists time_queries].
      apply list_lookup_insert_eq. exact Holt.
    + unfold set_arrays, set_lists. cbn [arrays lists time_queries].
      rewrite length_app. simpl.
      eapply Forall_impl; [exact Hval|]. simpl. intros. lia.
    + destruct E as (cur' & Ho' & Hlen' & Hlena & Hframe & Hsame & Hnew).
      unfold set_arrays, set_lists in Ho', Hlen', Hlena, Hframe, Hsame, Hnew.
      cbn [arrays lists time_queries] in Ho', Hlen', Hlena, Hframe, Hsame,
        Hnew.
      rewrite length_insert in Hlen'.
      rewrite length_app in Hlena. simpl in Hlena.
      assert (forall l, l < length (arrays w) + 1 ->
                arrays w' !! l
                = (arrays w ++ [pulse_onto_tlist a]) !! l) as Hframe'.
      { intros l Hl. apply Hframe. rewrite length_app. simpl. exact Hl. }
      exists cur'. splits.
      * exact Ho'.
      * exact Hlen'.
      * simpl. lia.
      * intros l Hl. rewrite Hframe' by lia. apply lookup_app_l. exact Hl.
      * intros i Hi. simpl in Hi. rewrite Hsame by lia.
        apply list_lookup_insert_ne. lia.
      * intros idx l a0 Hl Ha0. destruct idx as [|idx]; simpl in Hl.
        -- inversion Hl; subst l. rewrite Ea in Ha0. inversion Ha0; subst a0.
           rewrite !Nat.add_0_r. split.
           ++ rewrite Hsame by lia. apply list_lookup_insert_eq. exact Hj.
           ++ rewrite Hframe' by lia. apply list_lookup_middle. reflexivity.
        -- destruct (Hnew idx l a0 Hl) as [H1 H2].
           { apply lookup_app_l_Some. exact Ha0. }
           rewrite length_app in H1, H2. simpl in H1, H2.
           replace (j + S idx) with (S (j + idx)) by lia.
           replace (length (arrays w) + S idx)
             with (length (arrays w) + 1 + idx) by lia.
           split; assumption.
Qed.

Lemma krotov_finalization_effect st w r w' o items :
  krotov_finalization st w = Ok (r, w') ->
  optimized_pulses st = Some o ->
  Result.optimized_controls (result st) = Some o ->
  lists w !! o = Some items ->
  Forall (fun l => l < length (arrays w)) items ->
  Result.optimized_controls r = Some o /\
  n_pulses w' o = n_pulses w o /\
  forall p, pulse_array w' o p = pulse_onto_tlist <$> pulse_array w o p.
Proof.
  intros E Hopt Hoc Ho Hval. unfold krotov_finalization in E.
  apply M_bind_Ok in E. destruct E as (stop & w1 & Estop & E).
  inversion Estop; subst stop w1; clear Estop.
  rewrite Hopt in E.
  apply M_bind_Ok in E. destruct E as (pulses & w1 & Ep & E).
  inversion Ep; subst pulses w1; clear Ep.
  apply M_bind_Ok in E. destruct E as (items' & w1 & Ei & E).
  unfold read_list in Ei. apply lift_Ok in Ei. destruct Ei as [Ei ->].
  apply getitem_Ok in Ei. simpl in Ei. rewrite Ho in Ei.
  inversion Ei; subst items'; clear Ei.
  apply M_bind_Ok in E. destruct E as (u & w1 & Eloop & E).
  inversion E; subst r w1; clear E.
  unfold enumerate in Eloop.
  eapply (finalization_loop_inv _ o) in Eloop;
    [|exact Hoc|exact Ho|exact Hval].
  simpl in Eloop.
  destruct Eloop as (cur' & Ho' & Hlen' & _ & _ & _ & Hnew).
  split; [exact Hoc|].
  unfold n_pulses, pulse_array. rewrite Ho', Ho. simpl.
  split; [congruence|].
  intros p. destruct (items !! p) as [l|] eqn:Hl; simpl.
  - destruct (lookup_lt_is_Some_2 (arrays w) l) as [a Ha].
    { eapply Forall_lookup_1 in Hval; [exact Hval|exact Hl]. }
    destruct (Hnew p l a Hl Ha) as [H1 H2]. simpl in H1.
    rewrite H1. simpl. rewrite H2, Ha. reflexivity.
  - apply lookup_ge_None in Hl.
    rewrite (proj2 (lookup_ge_None cur' p)) by lia. reflexivity.
Qed.

End Finalization.

(** * Properties of the driver *)

Section Run.
Context `{Conversions}.
Variable objectives : list Objective.t.
Variable pulse_options : PulseOptionsDict.
Variable tlist : list R.
Variable propagator : Plugged -> State -> R -> list Plugged -> bool -> State.
Variable chi_constructor :
  list State -> list Objective.t -> list (list complex) -> list State.
Variable store_all_pulses : bool.

Abbreviation initialization info_hook :=
  (krotov_initialization objectives pulse_options tlist propagator info_hook
     store_all_pulses).

Abbreviation iteration pulses_mapping options_list info_hook :=
  (krotov_iteration_body objectives (adjoint <$> objectives) pulses_mapping
     options_list tlist (_tlist_midpoints tlist) propagator chi_constructor
     info_hook store_all_pulses).

Lemma optimize_pulses_unfold sigma iter_start iter_stop check_convergence
    state_dependent_constraint info_hook w :
  optimize_pulses objectives pulse_options tlist propagator chi_constructor
    sigma iter_start iter_stop check_convergence state_dependent_constraint
    info_hook store_all_pulses w
  = match initialization info_hook w with
    | Ok ((pm, ol, st0), w1) =>
        match foldM (iteration pm ol info_hook)
                (py_range (iter_start + 1) (iter_stop + 1)) st0 w1 with
        | Ok (st, w2) => krotov_finalization st w2
        | Raise e => Raise e
        end
    | Raise e => Raise e
    end.
Proof.
  unfold optimize_pulses, mbind, M_bind.
  destruct (initialization info_hook w) as [[[[pm ol] st0] w1]|e];
    reflexivity.
Qed.

Lemma krotov_initialization_wf info_hook w pm ol st w' :
  initialization info_hook w = Ok ((pm, ol, st), w') ->
  pulses_wf w' (guess_pulses st).
Proof.
  intros E. apply krotov_initialization_inv in E.
  destruct E as (gc & w1 & E & Ha & Hl & _).
  apply initialize_krotov_controls_inv in E.
  destruct E as (_ & _ & Hg & pulses & _ & Ha1 & Hl1 & _).
  exists (seq (length (arrays w)) (length pulses)). splits.
  - rewrite Hl, Hl1, Hg. apply list_lookup_middle. reflexivity.
  - apply NoDup_seq.
  - apply Forall_forall. intros l Hin. apply elem_of_seq in Hin.
    rewrite Ha, Ha1, length_app. lia.
Qed.

Lemma krotov_loop_wf pm ol info_hook its st w st' w' :
  foldM (iteration pm ol info_hook) its st w = Ok (st', w') ->
  pulses_wf w (guess_pulses st) -> pulses_wf w' (guess_pulses st').
Proof.
  revert st w. induction its as [|k its IH]; intros st w E Hwf.
  - inversion E; subst. exact Hwf.
  - rewrite foldM_cons in E.
    apply M_bind_Ok in E. destruct E as (st1 & w1 & E1 & E).
    eapply IH; [exact E|]. eapply krotov_iteration_body_wf; eassumption.
Qed.

(** C9: in every iteration, each boundary costate is divided by its own
    norm, the quotient is stored in the last slot of the backward
    trajectory, and every earlier slot [n] holds the result of one call of
    the propagator, with [backwards=True], on the state of slot [n+1], the
    Hamiltonian and the dissipation operators of the adjoint objective with
    the values of the current guess pulses for interval [n] plugged in
    ([plugged_in]), and the time step [tlist[n+1] - tlist[n]]. *)
Theorem backward_propagation_normalized_and_backwards
    pulses_mapping options_list info_hook st k w st' w' :
  iteration pulses_mapping options_list info_hook st k w = Ok (st', w') ->
  exists bws,
    backward_states st' = Some bws /\
    length bws = length objectives /\
    forall i bw, bws !! i = Some bw ->
      exists chi adj mapping,
        chi_constructor (fw_states_T st) objectives
          (Result.tau_vals (result st)) !! i = Some chi /\
        (adjoint <$> objectives) !! i = Some adj /\
        pulses_mapping !! i = Some mapping /\
        length bw = length tlist /\
        bw !! (length tlist - 1)
          = Some (Some (state_div chi (state_norm chi))) /\
        forall n, n + 1 < length tlist ->
          exists s ham c_ops dt,
            plugged_in adj (guess_pulses st) mapping tlist n w ham c_ops
              dt /\
            bw !! (n + 1) = Some (Some s) /\
            bw !! n = Some (Some (propagator ham s dt c_ops true)).
Proof.
  intros E. apply krotov_iteration_body_inv in E.
  destruct E as (bws & fs0 & gitems & o & w_b & delta & fs & fws & w_c & Ebw
                 & _ & _ & _ & _ & _ & _ & _ & Hbws & _).
  exists bws. split; [exact Hbws|].
  apply mapM_reads_inv in Ebw;
    [|intros i; apply reads_backward_propagation].
  destruct Ebw as [_ Hall]. split.
  - apply Forall2_length in Hall. rewrite length_seq in Hall. congruence.
  - intros i bw Hi.
    destruct (Forall2_lookup_r _ _ _ _ _ Hall Hi) as (i' & Hi' & Ebw).
    apply lookup_seq in Hi'. destruct Hi' as [-> _]. simpl in Ebw.
    apply backward_propagation_inv in Ebw.
    destruct Ebw as (chi_i & adj & mapping & Hchi & Hadj & Hmap & Hlen
                     & Hlast & Hrec).
    unfold normalized_chi, boundary_norms, boundary_chi in Hchi.
    apply lookup_zip_with_Some in Hchi.
    destruct Hchi as (chi & nrm & -> & Hchi & Hnrm).
    rewrite list_lookup_fmap, Hchi in Hnrm. inversion Hnrm; subst nrm.
    exists chi, adj, mapping. splits; try assumption.
    intros n Hn. destruct (Hrec n Hn) as (s & Hm & c_ops & dt & Hop & Hs).
    exists s, Hm, c_ops, dt. split; [|exact Hs].
    eapply (operators_at_Ok _ _ _ _ _ _ _ _ _ w).
    eapply reads_same_heap; [apply reads_operators_at| |exact Hop].
    split; reflexivity.
Qed.


Lemma zero_shape_iteration pm ol info_hook st k w st' w' :
  iteration pm ol info_hook st k w = Ok (st', w') ->
  pulses_wf w (guess_pulses st) ->
  (forall options t,
     options ∈ ol -> t ∈ _tlist_midpoints tlist -> shape options t = 0%R) ->
  n_pulses w' (guess_pulses st') = n_pulses w (guess_pulses st) /\
  forall p,
    pulse_array w' (guess_pulses st') p = pulse_array w (guess_pulses st) p.
Proof.
  intros E Hwf Hzero.
  destruct (krotov_iteration_body_effect _ _ _ _ _ _ _ _ _ _ _ _ _ _ _ E
              Hwf)
    as (gitems & bws & Hg & Hg' & _ & Hl' & _ & _ & _ & Hpulse).
  destruct Hwf as (gitems' & Hg2 & _ & Hval).
  rewrite Hg in Hg2. inversion Hg2; subst gitems'; clear Hg2.
  unfold n_pulses, pulse_array. rewrite Hg, Hg', Hl'.
  rewrite list_lookup_middle by reflexivity. simpl. split.
  - rewrite length_seq. reflexivity.
  - intros p. destruct (gitems !! p) as [gl|] eqn:Hgl; simpl.
    + apply lookup_lt_Some in Hgl as Hp.
      rewrite lookup_seq_lt by assumption. simpl.
      destruct (lookup_lt_is_Some_2 (arrays w) gl) as [a Ha].
      { eapply Forall_lookup_1 in Hval; [exact Hval|exact Hgl]. }
      destruct (Hpulse p gl a Hgl Ha)
        as (a' & Ha' & Hlen & Hsame & Hupd & Hdt).
      rewrite Ha', Ha. f_equal. apply ndarray_eq; [exact Hdt|].
      apply list_eq. intros m.
      destruct (_tlist_midpoints tlist !! m) as [t|] eqn:Ht.
      * destruct (Hupd m t Ht) as (options & v & updates & Ho & Hv & _ & Hv').
        rewrite Hv', Hv. f_equal.
        rewrite (Hzero options t).
        -- unfold Rdiv. rewrite !Rmult_0_l, Rplus_0_r.
           eapply cast_tolist, Hv.
        -- eapply list_elem_of_lookup_2, Ho.
        -- eapply list_elem_of_lookup_2, Ht.
      * apply Hsame. apply lookup_ge_None. exact Ht.
    + apply lookup_ge_None in Hgl. rewrite lookup_seq_ge by assumption.
      reflexivity.
Qed.

Lemma zero_shape_loop pm ol info_hook its st w st' w' :
  foldM (iteration pm ol info_hook) its st w = Ok (st', w') ->
  pulses_wf w (guess_pulses st) ->
  (forall options t,
     options ∈ ol -> t ∈ _tlist_midpoints tlist -> shape options t = 0%R) ->
  n_pulses w' (guess_pulses st') = n_pulses w (guess_pulses st) /\
  forall p,
    pulse_array w' (guess_pulses st') p = pulse_array w (guess_pulses st) p.
Proof.
  revert st w. induction its as [|k its IH]; intros st w E Hwf Hzero.
  - inversion E; subst. auto.
  - rewrite foldM_cons in E.
    apply M_bind_Ok in E. destruct E as (st1 & w1 & E1 & E).
    destruct (zero_shape_iteration _ _ _ _ _ _ _ _ E1 Hwf Hzero) as [Hn Hp].
    pose proof (krotov_iteration_body_wf _ _ _ _ _ _ _ _ _ _ _ _ _ _ _ E1
                  Hwf) as Hwf1.
    destruct (IH _ _ E Hwf1 Hzero) as (Hn' & Hp').
    split; [congruence|]. intros p. rewrite Hp'. apply Hp.
Qed.

(** Once bound, [optimized_pulses] is the list that [guess_pulses] and
    [result.optimized_controls] name as well. *)
Lemma krotov_loop_optimized pm ol info_hook its st w st' w' :
  foldM (iteration pm ol info_hook) its st w = Ok (st', w') ->
  (forall o, optimized_pulses st = Some o ->
     o = guess_pulses st /\
     Result.optimized_controls (result st) = Some o) ->
  forall o, optimized_pulses st' = Some o ->
    o = guess_pulses st' /\ Result.optimized_controls (result st') = Some o.
Proof.
  revert st w. induction its as [|k its IH]; intros st w E Hopt.
  - inversion E; subst. exact Hopt.
  - rewrite foldM_cons in E.
    apply M_bind_Ok in E. destruct E as (st1 & w1 & E1 & E).
    eapply IH; [exact E|]. clear IH E.
    apply krotov_iteration_body_inv in E1.
    destruct E1 as (? & ? & ? & o1 & ? & ? & ? & ? & ? & _ & _ & _ & _ & _
                    & _ & Hg & Ho & _ & _ & _ & _ & _ & _ & _ & Hoc).
    intros o Ho'. rewrite Ho in Ho'. inversion Ho'; subst o. auto.
Qed.

(** C7: if the shape function of every control is zero at every midpoint,
    then after any number of iterations the optimized pulses are the guess
    pulses the run started from (as many arrays, with the same values), and
    the controls that a completed run returns are these guess pulses, put
    back onto the time grid. *)
Theorem zero_shape_keeps_guess_pulses info_hook w0 pm ol st0 w1 :
  initialization info_hook w0 = Ok ((pm, ol, st0), w1) ->
  (forall options t,
     options ∈ ol -> t ∈ _tlist_midpoints tlist -> shape options t = 0%R) ->
  (forall its st w,
     foldM (iteration pm ol info_hook) its st0 w1 = Ok (st, w) ->
     forall o, optimized_pulses st = Some o ->
       n_pulses w o = n_pulses w1 (guess_pulses st0) /\
       forall p, pulse_array w o p = pulse_array w1 (guess_pulses st0) p) /\
  (forall sigma iter_start iter_stop check_convergence
          state_dependent_constraint r w',
     optimize_pulses objectives pulse_options tlist propagator
       chi_constructor sigma iter_start iter_stop check_convergence
       state_dependent_constraint info_hook store_all_pulses w0
     = Ok (r, w') ->
     exists o,
       Result.optimized_controls r = Some o /\
       n_pulses w' o = n_pulses w1 (guess_pulses st0) /\
       forall p,
         pulse_array w' o p
         = pulse_onto_tlist <$> pulse_array w1 (guess_pulses st0) p).
Proof.
  intros Einit Hzero.
  pose proof (krotov_initialization_wf _ _ _ _ _ _ Einit) as Hwf.
  pose proof Einit as Hinv. apply krotov_initialization_inv in Hinv.
  destruct Hinv as (? & ? & _ & _ & _ & _ & Hnone & _).
  assert (forall its st w,
            foldM (iteration pm ol info_hook) its st0 w1 = Ok (st, w) ->
            forall o, optimized_pulses st = Some o ->
              o = guess_pulses st /\
              Result.optimized_controls (result st) = Some o /\
              pulses_wf w o /\
              n_pulses w o = n_pulses w1 (guess_pulses st0) /\
              forall p,
                pulse_array w o p = pulse_array w1 (guess_pulses st0) p)
    as Hloop.
  { intros its st w Eloop o Ho.
    destruct (krotov_loop_optimized _ _ _ _ _ _ _ _ Eloop) with (o := o)
      as [-> Hoc]; [intros o' Ho'; congruence|exact Ho|].
    destruct (zero_shape_loop _ _ _ _ _ _ _ _ Eloop Hwf Hzero) as [Hn Hp].
    splits; try assumption; try reflexivity.
    eapply krotov_loop_wf; eassumption. }
  split.
  - intros its st w Eloop o Ho.
    destruct (Hloop its st w Eloop o Ho) as (_ & _ & _ & Hn & Hp). auto.
  - intros sigma iter_start iter_stop check_convergence
      state_dependent_constraint r w' E.
    rewrite optimize_pulses_unfold, Einit in E.
    destruct (foldM (iteration pm ol info_hook) _ st0 w1)
      as [[st w]|e] eqn:Eloop; [|discriminate E].
    pose proof E as Hfin. apply krotov_finalization_inv in Hfin.
    destruct Hfin as ([o Ho] & _).
    destruct (Hloop _ st w Eloop o Ho)
      as (_ & Hoc & (items & Hitems & _ & Hval) & Hn & Hp).
    destruct (krotov_finalization_effect _ _ _ _ _ _ E Ho Hoc Hitems Hval)
      as (Hoc' & Hn' & Hp').
    exists o. splits.
    + exact Hoc'.
    + congruence.
    + intros p. rewrite Hp', Hp. reflexivity.
Qed.

(** C8: in every iteration of a run, no array and no list that exists when
    the iteration starts is changed (in particular not the guess pulses);
    the optimized pulses are a list and arrays that did not exist before,
    and this new list becomes the guess of the next iteration. *)
Theorem copy_on_update info_hook w0 pm ol st0 w1 its st w k st' w' :
  initialization info_hook w0 = Ok ((pm, ol, st0), w1) ->
  foldM (iteration pm ol info_hook) its st0 w1 = Ok (st, w) ->
  iteration pm ol info_hook st k w = Ok (st', w') ->
  (forall l a, arrays w !! l = Some a -> arrays w' !! l = Some a) /\
  (forall l items, lists w !! l = Some items -> lists w' !! l = Some items) /\
  exists o items,
    optimized_pulses st' = Some o /\ guess_pulses st' = o /\
    lists w !! o = None /\ lists w' !! o = Some items /\
    Forall (fun l => arrays w !! l = None /\ is_Some (arrays w' !! l)) items.
Proof.
  intros Einit Eloop E.
  apply krotov_initialization_wf in Einit.
  pose proof (krotov_loop_wf _ _ _ _ _ _ _ _ Eloop Einit) as Hwf.
  destruct (krotov_iteration_body_effect _ _ _ _ _ _ _ _ _ _ _ _ _ _ _ E
              Hwf)
    as (gitems & bws & Hg & Hg' & Hopt & Hl' & Hlen & Hframe & _ & _).
  splits.
  - intros l a Hl. rewrite Hframe; [exact Hl|].
    eapply lookup_lt_Some, Hl.
  - intros l items Hl. rewrite Hl'. apply lookup_app_l_Some. exact Hl.
  - exists (length (lists w)), (seq (length (arrays w)) (length gitems)).
    splits; try assumption.
    + apply lookup_ge_None. lia.
    + rewrite Hl'. apply list_lookup_middle. reflexivity.
    + apply Forall_forall. intros l Hin. apply elem_of_seq in Hin. split.
      * apply lookup_ge_None. lia.
      * apply lookup_lt_is_Some. lia.
Qed.

(** C1: a convergence predicate that is supplied does not end the loop:
    even if it answers [True] on every result, the run is the run without
    a predicate, and when it completes it has gone through every iteration
    up to [iter_stop]. *)
Theorem check_convergence_does_not_stop_the_loop sigma iter_start iter_stop
    (check_convergence : Result.t -> bool) state_dependent_constraint
    info_hook w :
  (forall result, check_convergence result = true) ->
  optimize_pulses objectives pulse_options tlist propagator chi_constructor
    sigma iter_start iter_stop (Some check_convergence)
    state_dependent_constraint info_hook store_all_pulses w
  = optimize_pulses objectives pulse_options tlist propagator chi_constructor
      sigma iter_start iter_stop None state_dependent_constraint info_hook
      store_all_pulses w /\
  forall r w',
    optimize_pulses objectives pulse_options tlist propagator chi_constructor
      sigma iter_start iter_stop (Some check_convergence)
      state_dependent_constraint info_hook store_all_pulses w = Ok (r, w') ->
    Result.iters r = 0%Z :: py_range (iter_start + 1) (iter_stop + 1).
Proof.
  intros _. split; [reflexivity|].
  intros r w' E. eapply optimize_pulses_history in E. apply E.
Qed.

(** C4: without an info hook the run never completes: the call of the
    hook after the initial propagation (iteration 0) is not guarded. *)
Theorem optimize_pulses_without_info_hook sigma iter_start iter_stop
    check_convergence state_dependent_constraint w :
  exists e,
    optimize_pulses objectives pulse_options tlist propagator chi_constructor
      sigma iter_start iter_stop check_convergence state_dependent_constraint
      None store_all_pulses w = Raise e.
Proof.
  rewrite optimize_pulses_unfold.
  destruct (krotov_initialization_no_hook objectives pulse_options tlist
              propagator store_all_pulses w) as [e ->].
  eauto.
Qed.

(** C5: a completed run from [iter_start=0] to [iter_stop=2] has recorded
    the iterations 0, 1, 2 and one info value for each of them, but four
    entries of [iter_seconds]. *)
Theorem iter_seconds_of_three_iterations sigma check_convergence
    state_dependent_constraint info_hook w r w' :
  optimize_pulses objectives pulse_options tlist propagator chi_constructor
    sigma 0 2 check_convergence state_dependent_constraint info_hook
    store_all_pulses w = Ok (r, w') ->
  Result.iters r = [0; 1; 2]%Z /\
  length (Result.iter_seconds r) = 4 /\
  length (Result.info_vals r) = 3.
Proof.
  intros E. apply optimize_pulses_history in E.
  destruct E as (Hit & Hsec & Hinfo). rewrite Hsec, Hinfo, Hit.
  splits; reflexivity.
Qed.

(** C10: with [iter_stop <= iter_start] the loop body is never entered and
    the run does not return a result; once the initialization has
    completed, what is raised is the unbound-local error of the
    finalization. *)
Theorem no_iteration_is_unbound_local sigma iter_start iter_stop
    check_convergence state_dependent_constraint info_hook w :
  (iter_stop <= iter_start)%Z ->
  py_range (iter_start + 1) (iter_stop + 1) = [] /\
  (exists e,
     optimize_pulses objectives pulse_options tlist propagator
       chi_constructor sigma iter_start iter_stop check_convergence
       state_dependent_constraint info_hook store_all_pulses w = Raise e) /\
  (forall pm ol st0 w1,
     initialization info_hook w = Ok ((pm, ol, st0), w1) ->
     optimize_pulses objectives pulse_options tlist propagator
       chi_constructor sigma iter_start iter_stop check_convergence
       state_dependent_constraint info_hook store_all_pulses w
     = Raise UnboundLocalError).
Proof.
  intros Hle.
  assert (py_range (iter_start + 1) (iter_stop + 1) = []) as Hrange.
  { unfold py_range.
    replace (Z.to_nat (iter_stop + 1 - (iter_start + 1))) with 0 by lia.
    reflexivity. }
  split; [exact Hrange|].
  rewrite optimize_pulses_unfold, Hrange.
  destruct (initialization info_hook w) as [[[[pm ol] st0] w1]|e] eqn:Einit.
  - apply krotov_initialization_inv in Einit.
    destruct Einit as (? & ? & _ & _ & _ & _ & Hnone & _).
    simpl. rewrite (krotov_finalization_unbound _ _ Hnone).
    split; [eauto|]. intros ? ? ? ? Eq. inversion Eq; subst. reflexivity.
  - split; [eauto|]. intros ? ? ? ? Eq. discriminate Eq.
Qed.

End Run.

(** * Further properties of the helpers *)

(** ** [_derivative_wrt_pulse] *)

Section DerivativeCases.
Context `{Conversions}.

(** The loop over the dissipation operators, on any list of their indices. *)
Lemma dissipation_check_Ok (mapping : objective_mapping) i_pulse l u :
  foldM (fun (_ : unit) i_c_op =>
           slot ← getitem mapping (i_c_op + 1);
           c_mapping ← getitem slot i_pulse;
           if decide (length c_mapping ≠ 0)
           then Raise NotImplementedError
           else mret tt) l u = Ok tt <->
  forall i_c, i_c ∈ l ->
    exists slot, mapping !! (i_c + 1) = Some slot /\ slot !! i_pulse = Some [].
Proof.
  revert u. induction l as [|x l IH]; intros [].
  - split; [|reflexivity]. intros _ i_c Hin. inversion Hin.
  - rewrite foldM_cons. split.
    + intros E. apply res_bind_Ok in E. destruct E as ([] & E1 & E).
      apply res_bind_Ok in E1. destruct E1 as (slot & Eslot & E1).
      apply res_bind_Ok in E1. destruct E1 as (cm & Ecm & E1).
      apply getitem_Ok in Eslot, Ecm.
      case_decide as Hlen; [discriminate E1|].
      assert (cm = []) as -> by (destruct cm; [reflexivity|simpl in Hlen; lia]).
      intros i_c Hin. apply elem_of_cons in Hin. destruct Hin as [->|Hin].
      * eauto.
      * apply (proj1 (IH tt) E). exact Hin.
    + intros Hall. destruct (Hall x) as (slot & Hslot & Hcm); [left|].
      rewrite (proj2 (getitem_Ok _ _ _) Hslot). simpl.
      rewrite (proj2 (getitem_Ok _ _ _) Hcm). simpl.
      apply IH. intros i_c Hin. apply Hall. right. exact Hin.
Qed.

Lemma dissipation_check_Raise (mapping : objective_mapping) i_pulse l u e :
  foldM (fun (_ : unit) i_c_op =>
           slot ← getitem mapping (i_c_op + 1);
           c_mapping ← getitem slot i_pulse;
           if decide (length c_mapping ≠ 0)
           then Raise NotImplementedError
           else mret tt) l u = Raise e ->
  e = IndexError \/
  (e = NotImplementedError /\
   exists i_c slot c_mapping,
     i_c ∈ l /\ mapping !! (i_c + 1) = Some slot /\
     slot !! i_pulse = Some c_mapping /\ c_mapping <> []).
Proof.
  revert u. induction l as [|x l IH]; intros u E.
  - discriminate E.
  - rewrite foldM_cons in E.
    destruct (getitem mapping (x + 1)) as [slot|e1] eqn:Eslot.
    2:{ apply getitem_Raise in Eslot. destruct Eslot as [-> _].
        inversion E. auto. }
    simpl in E.
    destruct (getitem slot i_pulse) as [cm|e1] eqn:Ecm.
    2:{ apply getitem_Raise in Ecm. destruct Ecm as [-> _].
        inversion E. auto. }
    simpl in E. apply getitem_Ok in Eslot, Ecm.
    case_decide as Hlen.
    + inversion E; subst e. right. split; [reflexivity|].
      exists x, slot, cm. splits; try assumption; [left|].
      intros ->. apply Hlen. reflexivity.
    + simpl in E. apply IH in E. destruct E as [->|(-> & i_c & s & c & Hin & ?)].
      * auto.
      * right. split; [reflexivity|]. exists i_c, s, c.
        split; [right; exact Hin|assumption].
Qed.

Lemma dissipation_check_total (mapping : objective_mapping) i_pulse l u :
  (forall i_c, i_c ∈ l ->
     exists c_slot c_mapping,
       mapping !! (i_c + 1) = Some c_slot /\
       c_slot !! i_pulse = Some c_mapping) ->
  foldM (fun (_ : unit) i_c_op =>
           slot ← getitem mapping (i_c_op + 1);
           c_mapping ← getitem slot i_pulse;
           if decide (length c_mapping ≠ 0)
           then Raise NotImplementedError
           else mret tt) l u <> Raise IndexError.
Proof.
  revert u. induction l as [|x l IH]; intros u Hwf E; [discriminate E|].
  rewrite foldM_cons in E.
  destruct (Hwf x) as (s & c & Hs & Hc); [left|].
  rewrite (proj2 (getitem_Ok _ _ _) Hs) in E. simpl in E.
  rewrite (proj2 (getitem_Ok _ _ _) Hc) in E. simpl in E.
  case_decide; [discriminate E|]. simpl in E.
  eapply IH, E. intros i_c Hin. apply Hwf. right. exact Hin.
Qed.

(** X1: [_derivative_wrt_pulse] raises nothing but an [IndexError] (an
    index into the mapping or into the Hamiltonian that is out of range) or
    the [NotImplementedError] of time-dependent dissipation operators; the
    latter only for a pulse that some term of the Hamiltonian depends on
    and that some dissipation operator of the objective depends on. *)
Theorem derivative_wrt_pulse_errors (objective : Objective.t) pulses
    (mapping : objective_mapping) i_pulse e :
  _derivative_wrt_pulse objective pulses mapping i_pulse = Raise e ->
  e = IndexError \/
  (e = NotImplementedError /\
   (exists slot ham_mapping,
      mapping !! 0 = Some slot /\ slot !! i_pulse = Some ham_mapping /\
      ham_mapping <> []) /\
   exists i_c slot c_mapping,
     i_c < length (Objective.c_ops objective) /\
     mapping !! (i_c + 1) = Some slot /\
     slot !! i_pulse = Some c_mapping /\ c_mapping <> []).
Proof.
  intros E. unfold _derivative_wrt_pulse in E.
  destruct (getitem mapping 0) as [slot|e1] eqn:Eslot.
  2:{ apply getitem_Raise in Eslot. destruct Eslot as [-> _].
      inversion E. auto. }
  simpl in E.
  destruct (getitem slot i_pulse) as [hm|e1] eqn:Ehm.
  2:{ apply getitem_Raise in Ehm. destruct Ehm as [-> _].
      inversion E. auto. }
  simpl in E. apply getitem_Ok in Eslot, Ehm.
  case_decide as Hlen; [discriminate E|].
  destruct (getitem hm 0) as [k|e1] eqn:Ek.
  2:{ apply getitem_Raise in Ek. destruct Ek as [-> _]. inversion E. auto. }
  simpl in E.
  destruct (getitem (Objective.H objective) k) as [term|e1] eqn:Et.
  2:{ apply getitem_Raise in Et. destruct Et as [-> _]. inversion E. auto. }
  simpl in E.
  match type of E with
  | (?fold ≫= _) = _ => destruct fold as [mu|e1] eqn:Esum
  end.
  2:{ inversion E; subst e1. left.
      clear -Esum. revert Esum.
      generalize (term_operator term). generalize (drop 1 hm) as l.
      induction l as [|x l IH]; intros mu Esum; [discriminate Esum|].
      rewrite foldM_cons in Esum.
      destruct (getitem hm x) as [k'|e1] eqn:Ek.
      2:{ apply getitem_Raise in Ek. destruct Ek as [-> _].
          inversion Esum. reflexivity. }
      simpl in Esum.
      destruct (getitem (Objective.H objective) k') as [t'|e1] eqn:Et.
      2:{ apply getitem_Raise in Et. destruct Et as [-> _].
          inversion Esum. reflexivity. }
      simpl in Esum. eapply IH, Esum. }
  simpl in E.
  match type of E with
  | (?fold ≫= _) = _ => destruct fold as [[]|e1] eqn:Echeck
  end; [discriminate E|].
  inversion E; subst e1. clear E.
  apply dissipation_check_Raise in Echeck.
  destruct Echeck as [->|(-> & i_c & s & c & Hin & Hs & Hc & Hne)]; [auto|].
  right. split; [reflexivity|]. split.
  - exists slot, hm. splits; try assumption. intros ->. apply Hlen. reflexivity.
  - exists i_c, s, c. apply elem_of_seq in Hin. splits; try assumption. lia.
Qed.

(** X2: for a pulse that exactly one term of the Hamiltonian depends on,
    and a mapping with an entry for every dissipation operator, the
    derivative is the operator of that term exactly when no dissipation
    operator depends on the pulse, and [NotImplementedError] is raised
    exactly when one does. *)
Theorem derivative_wrt_pulse_one_term (objective : Objective.t) pulses
    (mapping : objective_mapping) slot i_pulse k term :
  mapping !! 0 = Some slot -> slot !! i_pulse = Some [k] ->
  Objective.H objective !! k = Some term ->
  (forall i_c, i_c < length (Objective.c_ops objective) ->
     exists c_slot c_mapping,
       mapping !! (i_c + 1) = Some c_slot /\
       c_slot !! i_pulse = Some c_mapping) ->
  (_derivative_wrt_pulse objective pulses mapping i_pulse
   = Ok (DOp (term_operator term)) <->
   forall i_c c_slot c_mapping,
     i_c < length (Objective.c_ops objective) ->
     mapping !! (i_c + 1) = Some c_slot ->
     c_slot !! i_pulse = Some c_mapping -> c_mapping = []) /\
  (_derivative_wrt_pulse objective pulses mapping i_pulse
   = Raise NotImplementedError <->
   exists i_c c_slot c_mapping,
     i_c < length (Objective.c_ops objective) /\
     mapping !! (i_c + 1) = Some c_slot /\
     c_slot !! i_pulse = Some c_mapping /\ c_mapping <> []).
Proof.
  intros Hslot Hhm Hterm Hwf.
  assert (_derivative_wrt_pulse objective pulses mapping i_pulse
          = (foldM (fun (_ : unit) i_c_op =>
                      slot ← getitem mapping (i_c_op + 1);
                      c_mapping ← getitem slot i_pulse;
                      if decide (length c_mapping ≠ 0)
                      then Raise NotImplementedError
                      else mret tt)
                   (seq 0 (length (Objective.c_ops objective))) tt
             ≫= fun _ => Ok (DOp (term_operator term)))) as ->.
  { unfold _derivative_wrt_pulse.
    rewrite (proj2 (getitem_Ok _ _ _) Hslot). simpl.
    rewrite (proj2 (getitem_Ok _ _ _) Hhm). simpl.
    rewrite (proj2 (getitem_Ok _ _ _) Hterm). reflexivity. }
  match goal with
  | |- context [?fold ≫= _] => destruct fold as [[]|e] eqn:Echeck
  end; simpl.
  - pose proof (proj1 (dissipation_check_Ok _ _ _ _) Echeck) as Hempty.
    clear Echeck. rename Hempty into Echeck. split.
    + split; [|reflexivity]. intros _ i_c c_slot cm Hi Hs Hc.
      destruct (Echeck i_c) as (s & Hs' & Hc'); [apply elem_of_seq; lia|].
      congruence.
    + split; [discriminate|]. intros (i_c & c_slot & cm & Hi & Hs & Hc & Hne).
      destruct (Echeck i_c) as (s & Hs' & Hc'); [apply elem_of_seq; lia|].
      congruence.
  - assert (e = NotImplementedError /\
            exists i_c c_slot c_mapping,
              i_c < length (Objective.c_ops objective) /\
              mapping !! (i_c + 1) = Some c_slot /\
              c_slot !! i_pulse = Some c_mapping /\ c_mapping <> [])
      as [-> Hex].
    { pose proof Echeck as Hraise. apply dissipation_check_Raise in Hraise.
      destruct Hraise as [->|(-> & i_c & s & c & Hin & ? & ? & ?)].
      - exfalso. revert Echeck. apply dissipation_check_total.
        intros i_c Hin. apply Hwf. apply elem_of_seq in Hin. lia.
      - split; [reflexivity|]. exists i_c, s, c.
        apply elem_of_seq in Hin. splits; try assumption. lia. }
    split.
    + split; [discriminate|]. intros Hall.
      destruct Hex as (i_c & c_slot & cm & Hi & Hs & Hc & Hne).
      exfalso. apply Hne. eapply Hall; eassumption.
    + split; [intros _; exact Hex|reflexivity].
Qed.

(** What a returned derivative tells about the mapping. *)
Lemma derivative_wrt_pulse_Ok (objective : Objective.t) pulses
    (mapping : objective_mapping) i_pulse mu :
  _derivative_wrt_pulse objective pulses mapping i_pulse = Ok mu ->
  exists slot ham_mapping,
    mapping !! 0 = Some slot /\ slot !! i_pulse = Some ham_mapping /\
    ((ham_mapping = [] /\ mu = DInt 0) \/
     (ham_mapping <> [] /\ (exists op, mu = DOp op) /\
      forall i_c, i_c < length (Objective.c_ops objective) ->
        exists c_slot,
          mapping !! (i_c + 1) = Some c_slot /\
          c_slot !! i_pulse = Some [])).
Proof.
  intros E. unfold _derivative_wrt_pulse in E.
  apply res_bind_Ok in E. destruct E as (slot & Eslot & E).
  apply res_bind_Ok in E. destruct E as (hm & Ehm & E).
  apply getitem_Ok in Eslot, Ehm.
  exists slot, hm. split; [exact Eslot|]. split; [exact Ehm|].
  case_decide as Hlen.
  - left. inversion E. split; [|reflexivity].
    destruct hm; [reflexivity|discriminate Hlen].
  - right. split; [intros ->; apply Hlen; reflexivity|].
    apply res_bind_Ok in E. destruct E as (k & _ & E).
    apply res_bind_Ok in E. destruct E as (term & _ & E).
    apply res_bind_Ok in E. destruct E as (op & _ & E).
    apply res_bind_Ok in E. destruct E as ([] & Echeck & E).
    inversion E; subst mu. split; [eauto|].
    pose proof (proj1 (dissipation_check_Ok _ _ _ _) Echeck) as Hempty.
    intros i_c Hi. apply Hempty. apply elem_of_seq. lia.
Qed.

End DerivativeCases.

(** ** Forward propagation *)

Section ForwardPropagation.
Context `{Conversions}.
Variable propagator : Plugged -> State -> R -> list Plugged -> bool -> State.

Lemma forward_loop_inv obj pulses mapping tlist m :
  forall n0 s (arr : list (option State)) w s' arr' w',
  foldM (fun '(state, storage_array) time_index =>
           '(H, c_ops, dt) ←
             operators_at obj pulses mapping tlist time_index;
           let state := propagator H state dt c_ops false in
           storage_array ←
             lift (setitem storage_array (time_index + 1) (Some state));
           mret (state, storage_array))
        (seq n0 m) (s, arr) w = Ok ((s', arr'), w') ->
  arr !! n0 = Some (Some s) ->
  w' = w /\ length arr' = length arr /\
  (forall k, k <= n0 -> arr' !! k = arr !! k) /\
  (forall k, n0 + m < k -> arr' !! k = arr !! k) /\
  (forall n, n0 <= n < n0 + m ->
     exists s1 ham c_ops dt,
       operators_at obj pulses mapping tlist n w = Ok ((ham, c_ops, dt), w) /\
       arr' !! n = Some (Some s1) /\
       arr' !! (n + 1) = Some (Some (propagator ham s1 dt c_ops false))).
Proof.
  induction m as [|m IH]; intros n0 s arr w s' arr' w' E Hn0.
  - inversion E; subst. splits; auto. intros n Hn. lia.
  - simpl in E.
    apply M_bind_Ok in E. destruct E as ([s1 arr1] & w1 & E1 & E).
    apply M_bind_Ok in E1. destruct E1 as ([[ham c_ops] dt] & w2 & Eop & E1).
    apply reads_unchanged in Eop as Hw2;
      [subst w2|apply reads_operators_at].
    apply M_bind_Ok in E1. destruct E1 as (arr2 & w2 & Eset & E1).
    apply lift_Ok in Eset. destruct Eset as [Eset ->].
    apply setitem_Ok in Eset. destruct Eset as [Hlt ->].
    inversion E1; subst s1 arr1 w1; clear E1.
    apply IH in E;
      [|rewrite <- Nat.add_1_r; apply list_lookup_insert_eq; exact Hlt].
    destruct E as (-> & Hlen & Hle & Hgt & Hrec).
    splits.
    + reflexivity.
    + rewrite Hlen. apply length_insert.
    + intros k Hk. rewrite Hle by lia. apply list_lookup_insert_ne. lia.
    + intros k Hk. rewrite Hgt by lia. apply list_lookup_insert_ne. lia.
    + intros n Hn. destruct (decide (n = n0)) as [->|Hne].
      * exists s, ham, c_ops, dt. splits.
        -- exact Eop.
        -- rewrite Hle by lia. rewrite list_lookup_insert_ne by lia.
           exact Hn0.
        -- rewrite Hle by lia. apply list_lookup_insert_eq. exact Hlt.
      * apply Hrec. lia.
Qed.

Lemma forward_propagation_inv i objectives pulses pm tlist w fw w' :
  _forward_propagation propagator i objectives pulses pm tlist w
    = Ok (fw, w') ->
  exists obj mapping,
    objectives !! i = Some obj /\ pm !! i = Some mapping /\
    length fw = length tlist /\
    fw !! 0 = Some (Some (Objective.initial_state obj)) /\
    (forall n, n + 1 < length tlist ->
       exists s ham c_ops dt,
         operators_at obj pulses mapping tlist n w
           = Ok ((ham, c_ops, dt), w) /\
         fw !! n = Some (Some s) /\
         fw !! (n + 1) = Some (Some (propagator ham s dt c_ops false))).
Proof.
  intros E. unfold _forward_propagation in E.
  apply M_bind_Ok in E. destruct E as (obj & w1 & Eobj & E).
  apply lift_Ok in Eobj. destruct Eobj as [Eobj ->].
  apply M_bind_Ok in E. destruct E as (arr & w1 & Earr & E).
  apply lift_Ok in Earr. destruct Earr as [Earr ->].
  apply M_bind_Ok in E. destruct E as (mapping & w1 & Emap & E).
  apply lift_Ok in Emap. destruct Emap as [Emap ->].
  apply M_bind_Ok in E. destruct E as ([s' arr'] & w1 & Eloop & E).
  inversion E; subst fw w1; clear E.
  apply getitem_Ok in Eobj, Emap.
  apply setitem_Ok in Earr. destruct Earr as [Hlt ->].
  unfold storage in *. rewrite length_replicate in Hlt.
  apply forward_loop_inv in Eloop;
    [|apply list_lookup_insert_eq; rewrite length_replicate; exact Hlt].
  destruct Eloop as (-> & Hlen & Hle & _ & Hrec).
  rewrite length_insert, length_replicate in Hlen.
  exists obj, mapping. splits; try assumption.
  - rewrite Hle by lia. apply list_lookup_insert_eq.
    rewrite length_replicate. exact Hlt.
  - intros n Hn. apply Hrec. lia.
Qed.

(** X3: what [_forward_propagation] returns: it leaves the store as it
    is; the trajectory has one slot for each point of the time grid, none of
    them empty; slot 0 holds the initial state of the objective, and every
    slot [n+1] the result of one call of the propagator (forward) on the
    state of slot [n], the Hamiltonian and the dissipation operators of the
    objective with the values of the pulses for interval [n] plugged in
    ([plugged_in]: [mapping[0]] for the Hamiltonian, [mapping[ic+1]] for
    dissipation operator [ic]), and [dt = tlist[n+1] - tlist[n]]. *)
Theorem forward_propagation_trajectory i objectives pulses pm tlist w fw w' :
  _forward_propagation propagator i objectives pulses pm tlist w
    = Ok (fw, w') ->
  exists obj mapping,
    objectives !! i = Some obj /\ pm !! i = Some mapping /\
    w' = w /\ length fw = length tlist /\
    fw !! 0 = Some (Some (Objective.initial_state obj)) /\
    (forall n, n + 1 < length tlist ->
       exists s ham c_ops dt,
         plugged_in obj pulses mapping tlist n w ham c_ops dt /\
         fw !! n = Some (Some s) /\
         fw !! (n + 1) = Some (Some (propagator ham s dt c_ops false))) /\
    (forall n, n < length tlist -> exists s, fw !! n = Some (Some s)).
Proof.
  intros E.
  apply reads_unchanged in E as Hw; [|apply reads_forward_propagation].
  apply forward_propagation_inv in E.
  destruct E as (obj & mapping & Hobj & Hmap & Hlen & Hfirst & Hrec).
  exists obj, mapping. splits; try assumption.
  - intros n Hn. destruct (Hrec n Hn) as (s & ham & c_ops & dt & Hop & Hs).
    exists s, ham, c_ops, dt. split; [|exact Hs].
    apply operators_at_Ok in Hop. apply Hop.
  - intros n Hn. destruct n as [|n]; [eauto|].
    destruct (Hrec n) as (s1 & ham & c_ops & dt & _ & _ & Hn1); [lia|].
    rewrite Nat.add_1_r in Hn1. eauto.
Qed.

(** X4: one call of [_forward_propagation_step] at time index [n], on the
    trajectory that [_forward_propagation] has returned for the same
    pulses, returns the state in slot [n+1] of that trajectory. *)
Theorem forward_propagation_step_follows_trajectory i objectives pulses pm
    tlist w fw w' (states : list (list (option State))) n :
  _forward_propagation propagator i objectives pulses pm tlist w
    = Ok (fw, w') ->
  states !! i = Some fw -> n + 1 < length tlist ->
  exists s,
    _forward_propagation_step propagator i states objectives pulses pm tlist
      n w = Ok (s, w) /\
    fw !! (n + 1) = Some (Some s).
Proof.
  intros E Hi Hn. apply forward_propagation_inv in E.
  destruct E as (obj & mapping & Hobj & Hmap & Hlen & Hfirst & Hrec).
  destruct (Hrec n Hn) as (s & ham & c_ops & dt & Hop & Hs & Hs').
  exists (propagator ham s dt c_ops false). split; [|exact Hs'].
  unfold _forward_propagation_step.
  eapply lift_bind_intro; [apply getitem_Ok; exact Hi|].
  eapply lift_bind_intro; [apply get_state_Ok; exact Hs|].
  eapply lift_bind_intro; [apply getitem_Ok; exact Hobj|].
  eapply lift_bind_intro; [apply getitem_Ok; exact Hmap|].
  eapply M_bind_intro; [exact Hop|]. reflexivity.
Qed.



End ForwardPropagation.

(** * Further properties of the driver *)

(** ** What the driver records *)

Section Records.
Context `{Conversions}.
Variable objectives : list Objective.t.
Variable pulse_options : PulseOptionsDict.
Variable tlist : list R.
Variable propagator : Plugged -> State -> R -> list Plugged -> bool -> State.
Variable chi_constructor :
  list State -> list Objective.t -> list (list complex) -> list State.
Variable store_all_pulses : bool.

Abbreviation initialization info_hook :=
  (krotov_initialization objectives pulse_options tlist propagator info_hook
     store_all_pulses).

Abbreviation iteration pulses_mapping options_list info_hook :=
  (krotov_iteration_body objectives (adjoint <$> objectives) pulses_mapping
     options_list tlist (_tlist_midpoints tlist) propagator chi_constructor
     info_hook store_all_pulses).

Lemma initialize_krotov_controls_pulses w gc g pm ol w' :
  _initialize_krotov_controls objectives pulse_options tlist w
    = Ok ((gc, g, pm, ol), w') ->
  mapM (fun control => discretize control tlist) (extract_controls objectives)
    = Ok gc /\
  arrays w'
    = arrays w ++ ((fun control =>
                      control_onto_interval control tlist
                        (_tlist_midpoints tlist)) <$> gc) /\
  lists w' = lists w ++ [seq (length (arrays w)) (length gc)] /\
  g = length (lists w).
Proof.
  intros E. unfold _initialize_krotov_controls in E.
  apply M_bind_Ok in E. destruct E as (ol' & w1 & Eol & E).
  apply lift_Ok in Eol. destruct Eol as [Eol ->].
  apply M_bind_Ok in E. destruct E as (gc' & w1 & Egc & E).
  apply lift_Ok in Egc. destruct Egc as [Egc ->].
  apply M_bind_Ok in E. destruct E as (items & w1 & Eitems & E).
  apply mapM_alloc_array in Eitems. destruct Eitems as [-> ->].
  apply M_bind_Ok in E. destruct E as (g' & w2 & Eg & E).
  inversion Eg; subst g' w2; clear Eg.
  inversion E; subst; clear E. simpl.
  splits; try assumption; reflexivity.
Qed.

Lemma krotov_initialization_record info_hook w pm ol st w' :
  initialization info_hook w = Ok ((pm, ol, st), w') ->
  exists gc w1 hook,
    _initialize_krotov_controls objectives pulse_options tlist w
      = Ok ((gc, guess_pulses st, pm, ol), w1) /\
    info_hook = Some hook /\
    serial_map (fun i_objective =>
                  _forward_propagation propagator i_objective objectives
                    (guess_pulses st) pm tlist)
               (seq 0 (length objectives)) (tick (tick w1))
      = Ok (forward_states st, tick (tick w1)) /\
    mapM (fun states : list (option State) =>
            get_state states (length states - 1)) (forward_states st)
      = Ok (fw_states_T st) /\
    tau_vals st
      = zip_with (fun state_T obj =>
                    overlap state_T (Objective.target_state obj))
                 (fw_states_T st) objectives /\
    w' = tick (tick (tick w1)) /\
    backward_states st = None /\
    result st
      = Result.Build_t tlist (_tlist_midpoints tlist)
          (Some (localtime (time_queries w1))) None objectives gc pm [0%Z]
          [int_of_float (clock (S (S (time_queries w1)))
                         - clock (S (time_queries w1)));
           int_of_float (clock (S (S (time_queries w1)))
                         - clock (S (time_queries w1)))]
          [Some (hook objectives (adjoint <$> objectives) None
                   (forward_states st) (fw_states_T st) (tau_vals st)
                   (clock (S (time_queries w1)))
                   (clock (S (S (time_queries w1)))) 0%Z)]
          [tau_vals st]
          (if store_all_pulses then [guess_pulses st] else [])
          (fw_states_T st) None.
Proof.
  intros E. unfold krotov_initialization in E.
  apply M_bind_Ok in E. destruct E as ([[[gc g] pm'] ol'] & w1 & Einit & E).
  apply M_bind_Ok in E. destruct E as (start & w2 & Estart & E).
  inversion Estart; subst start w2; clear Estart.
  apply M_bind_Ok in E. destruct E as (tic & w2 & Etic & E).
  inversion Etic; subst tic w2; clear Etic. simpl in E.
  apply M_bind_Ok in E. destruct E as (fs & w2 & Efs & E).
  apply reads_unchanged in Efs as Hw2;
    [|apply reads_mapM; intros i; apply reads_forward_propagation].
  subst w2.
  apply M_bind_Ok in E. destruct E as (toc & w2 & Etoc & E).
  inversion Etoc; subst toc w2; clear Etoc. simpl in E.
  apply M_bind_Ok in E. destruct E as (fwT & w2 & EfwT & E).
  apply lift_Ok in EfwT. destruct EfwT as [EfwT ->].
  apply M_bind_Ok in E. destruct E as (info & w2 & Einfo & E).
  destruct info_hook as [hook|]; [|discriminate Einfo].
  inversion Einfo; subst info w2; clear Einfo.
  inversion E; subst; clear E. simpl.
  exists gc, w1, hook. splits; try assumption; try reflexivity.
  destruct store_all_pulses; reflexivity.
Qed.

Lemma krotov_iteration_body_record pm ol info_hook st k w st' w' :
  iteration pm ol info_hook st k w = Ok (st', w') ->
  exists o bws toc,
    guess_pulses st' = o /\ optimized_pulses st' = Some o /\
    backward_states st' = Some bws /\
    fw_states st' = Some (fw_states_T st') /\
    tau_vals st'
      = zip_with (fun fw_state_T obj =>
                    overlap fw_state_T (Objective.target_state obj))
                 (fw_states_T st') objectives /\
    result st'
      = Result.Build_t (Result.tlist (result st))
          (Result.tlist_midpoints (result st))
          (Result.start_local_time (result st))
          (Result.end_local_time (result st))
          (Result.objectives (result st))
          (Result.guess_controls (result st))
          (Result.controls_mapping (result st))
          (Result.iters (result st) ++ [k])
          (Result.iter_seconds (result st)
             ++ [int_of_float (toc - clock (time_queries w))])
          (Result.info_vals (result st)
             ++ [match info_hook with
                 | None => None
                 | Some hook =>
                     Some (hook objectives (adjoint <$> objectives)
                             (Some bws) (forward_states st')
                             (fw_states_T st') (tau_vals st')
                             (clock (time_queries w)) toc k)
                 end])
          (Result.tau_vals (result st) ++ [tau_vals st'])
          (if store_all_pulses
           then Result.all_pulses (result st) ++ [o]
           else Result.all_pulses (result st))
          (fw_states_T st') (Some o).
Proof.
  intros E. unfold krotov_iteration_body in E.
  apply M_bind_Ok in E. destruct E as (tic & w_a & Etic & E).
  unfold time_clock in Etic. inversion Etic; subst tic w_a; clear Etic.
  apply M_bind_Ok in E. destruct E as (bws & w1 & Ebw & E).
  apply M_bind_Ok in E. destruct E as (fs0 & w2 & Efs0 & E).
  apply M_bind_Ok in E. destruct E as (gitems & w3 & Eg & E).
  apply M_bind_Ok in E. destruct E as (o & w_b & Edc & E).
  apply M_bind_Ok in E. destruct E as ([[delta fs] fws] & w_c & Eloop & E).
  apply M_bind_Ok in E. destruct E as (fwsT & w4 & Efw & E).
  destruct fws as [fws|]; [|discriminate Efw].
  inversion Efw; subst fwsT w4; clear Efw.
  apply M_bind_Ok in E. destruct E as (toc & w5 & Etoc & E).
  unfold time_clock in Etoc. inversion Etoc; subst toc w5; clear Etoc.
  inversion E; subst st' w'; clear E. simpl.
  exists o, bws, (clock (time_queries w_c)).
  splits; try reflexivity.
  destruct store_all_pulses; reflexivity.
Qed.

Lemma krotov_finalization_record st w r w' :
  krotov_finalization st w = Ok (r, w') ->
  r = Result.set_end_local_time (localtime (time_queries w)) (result st).
Proof.
  intros E. unfold krotov_finalization in E.
  apply M_bind_Ok in E. destruct E as (stop & w1 & Estop & E).
  inversion Estop; subst stop w1; clear Estop.
  apply M_bind_Ok in E. destruct E as (pulses & w2 & Ep & E).
  apply M_bind_Ok in E. destruct E as (items & w3 & _ & E).
  apply M_bind_Ok in E. destruct E as (u & w4 & _ & E).
  inversion E; subst. reflexivity.
Qed.

(** What the loop leaves alone, and what grows with it. *)
Lemma krotov_loop_record pm ol info_hook its st w st' w' :
  foldM (iteration pm ol info_hook) its st w = Ok (st', w') ->
  Result.tlist (result st') = Result.tlist (result st) /\
  Result.tlist_midpoints (result st') = Result.tlist_midpoints (result st) /\
  Result.start_local_time (result st')
    = Result.start_local_time (result st) /\
  Result.end_local_time (result st') = Result.end_local_time (result st) /\
  Result.objectives (result st') = Result.objectives (result st) /\
  Result.guess_controls (result st') = Result.guess_controls (result st) /\
  Result.controls_mapping (result st')
    = Result.controls_mapping (result st) /\
  length (Result.tau_vals (result st'))
    = length (Result.tau_vals (result st)) + length its /\
  (Result.tau_vals (result st) <> [] ->
   last (Result.tau_vals (result st)) = Some (tau_vals st) ->
   last (Result.tau_vals (result st')) = Some (tau_vals st')) /\
  (Result.states (result st) = fw_states_T st ->
   Result.states (result st') = fw_states_T st') /\
  (tau_vals st
     = zip_with (fun s obj => overlap s (Objective.target_state obj))
                (fw_states_T st) objectives ->
   tau_vals st'
     = zip_with (fun s obj => overlap s (Objective.target_state obj))
                (fw_states_T st') objectives).
Proof.
  revert st w. induction its as [|k its IH]; intros st w E.
  - inversion E; subst. simpl. splits; auto.
  - rewrite foldM_cons in E.
    apply M_bind_Ok in E. destruct E as (st1 & w1 & E1 & E).
    apply IH in E.
    destruct E as (-> & -> & -> & -> & -> & -> & -> & -> & Hlast & Hstates
                   & Htau).
    apply krotov_iteration_body_record in E1.
    destruct E1 as (o & bws & toc & _ & _ & _ & _ & Htau1 & Hres).
    rewrite Hres in *. clear Hres.
    cbn [Result.tlist Result.tlist_midpoints Result.start_local_time
         Result.end_local_time Result.objectives Result.guess_controls
         Result.controls_mapping Result.tau_vals Result.states
         Result.info_vals] in *.
    splits; try reflexivity.
    + rewrite length_app. simpl. lia.
    + intros _ _. apply Hlast.
      * intros Hnil. apply app_eq_nil in Hnil. destruct Hnil. discriminate.
      * apply last_snoc.
    + intros _. apply Hstates. reflexivity.
    + intros _. apply Htau. exact Htau1.
Qed.

(** Every component of the run has succeeded when the run has. *)
Lemma optimize_pulses_Ok sigma iter_start iter_stop check_convergence
    state_dependent_constraint info_hook w r w' :
  optimize_pulses objectives pulse_options tlist propagator chi_constructor
    sigma iter_start iter_stop check_convergence state_dependent_constraint
    info_hook store_all_pulses w = Ok (r, w') ->
  exists pm ol st0 w1 st w2,
    initialization info_hook w = Ok ((pm, ol, st0), w1) /\
    foldM (iteration pm ol info_hook)
      (py_range (iter_start + 1) (iter_stop + 1)) st0 w1 = Ok (st, w2) /\
    krotov_finalization st w2 = Ok (r, w').
Proof.
  intros E. unfold optimize_pulses in E.
  apply M_bind_Ok in E. destruct E as ([[pm ol] st0] & w1 & Einit & E).
  apply M_bind_Ok in E. destruct E as (st & w2 & Eloop & E).
  exists pm, ol, st0, w1, st, w2. auto.
Qed.

(** X9: what the result of a completed run records of its inputs: the
    time grid and its midpoints, the objectives, the mapping of the
    extracted controls, the discretized guess controls, the local time of
    the first time query as start, and an end time. *)
Theorem result_records_the_inputs sigma iter_start iter_stop
    check_convergence state_dependent_constraint info_hook w r w' :
  optimize_pulses objectives pulse_options tlist propagator chi_constructor
    sigma iter_start iter_stop check_convergence state_dependent_constraint
    info_hook store_all_pulses w = Ok (r, w') ->
  Result.tlist r = tlist /\
  Result.tlist_midpoints r = _tlist_midpoints tlist /\
  Result.objectives r = objectives /\
  Result.controls_mapping r
    = extract_controls_mapping objectives (extract_controls objectives) /\
  mapM (fun control => discretize control tlist)
       (extract_controls objectives) = Ok (Result.guess_controls r) /\
  Result.start_local_time r = Some (localtime (time_queries w)) /\
  is_Some (Result.end_local_time r).
Proof.
  intros E. apply optimize_pulses_Ok in E.
  destruct E as (pm & ol & st0 & w1 & st & w2 & Einit & Eloop & Efin).
  apply krotov_finalization_record in Efin. subst r.
  apply krotov_loop_record in Eloop.
  destruct Eloop as (Ht & Hm & Hs & _ & Ho & Hg & Hc & _).
  apply krotov_initialization_record in Einit.
  destruct Einit as (gc & w0 & hook & Ei & _ & _ & _ & _ & _ & _ & Hres).
  rewrite Hres in *. clear Hres.
  pose proof (initialize_krotov_controls_inv _ _ _ _ _ _ _ _ _ Ei)
    as (Hpm & _ & _ & pulses & _ & _ & _ & Htq).
  apply initialize_krotov_controls_pulses in Ei.
  destruct Ei as (Hgc & _).
  cbn [Result.tlist Result.tlist_midpoints Result.start_local_time
       Result.end_local_time Result.objectives Result.guess_controls
       Result.controls_mapping Result.set_end_local_time] in *.
  splits; try congruence. eauto.
Qed.

(** X10: the result of a completed run has one entry of [tau_vals] for
    each recorded iteration, and the last entry holds the overlaps of
    [result.states] with the target states of the objectives. *)
Theorem result_records_the_iterations sigma iter_start iter_stop
    check_convergence state_dependent_constraint info_hook w r w' :
  optimize_pulses objectives pulse_options tlist propagator chi_constructor
    sigma iter_start iter_stop check_convergence state_dependent_constraint
    info_hook store_all_pulses w = Ok (r, w') ->
  length (Result.tau_vals r) = length (Result.iters r) /\
  last (Result.tau_vals r)
    = Some (zip_with (fun s obj => overlap s (Objective.target_state obj))
                     (Result.states r) objectives).
Proof.
  intros E. pose proof E as Hh. apply optimize_pulses_history in Hh.
  destruct Hh as (Hiters & _ & _).
  apply optimize_pulses_Ok in E.
  destruct E as (pm & ol & st0 & w1 & st & w2 & Einit & Eloop & Efin).
  apply krotov_finalization_record in Efin. subst r.
  apply krotov_loop_record in Eloop.
  destruct Eloop as (_ & _ & _ & _ & _ & _ & _ & Hlen & Hlast & Hstates
                     & Htau).
  apply krotov_initialization_record in Einit.
  destruct Einit as (gc & w0 & hook & _ & -> & _ & _ & Htau0 & _ & _ & Hres).
  rewrite Hres in *. clear Hres.
  cbn [Result.tau_vals Result.states Result.info_vals Result.iters
       Result.set_end_local_time] in *.
  splits.
  - rewrite Hlen, Hiters. reflexivity.
  - rewrite Hlast, Hstates, Htau by (simpl; congruence). reflexivity.
Qed.





End Records.

(** ** The initial propagation *)

Lemma mapM_res_inv {A B : Type} (f : A -> res B) (l : list A) (bs : list B) :
  mapM f l = Ok bs -> Forall2 (fun a b => f a = Ok b) l bs.
Proof.
  revert bs. induction l as [|a l IH]; intros bs E.
  - inversion E; subst. constructor.
  - simpl in E. apply res_bind_Ok in E. destruct E as (b & Eb & E).
    apply res_bind_Ok in E. destruct E as (bs' & Ebs & E).
    inversion E; subst bs. constructor; [exact Eb|]. apply IH. exact Ebs.
Qed.

Section InitialPropagation.
Context `{Conversions}.
Variable objectives : list Objective.t.
Variable pulse_options : PulseOptionsDict.
Variable tlist : list R.
Variable propagator : Plugged -> State -> R -> list Plugged -> bool -> State.
Variable store_all_pulses : bool.

Abbreviation initialization info_hook :=
  (krotov_initialization objectives pulse_options tlist propagator info_hook
     store_all_pulses).

(** X7: iteration 0 is the plain forward propagation under the guess
    pulses: when the initialization completes there is one trajectory for
    each objective, from its initial state, each slot one forward step of
    the propagator from the slot before, over the time step from
    [tlist[n]] to [tlist[n+1]], with the Hamiltonian and the dissipation
    operators of the objective into which [plug_in_pulse_values] has put
    the guess pulses at index [n]; [fw_states_T] holds the states of
    the last slots, [tau_vals] their overlaps with the target states, and
    both are what [result.states] and [result.tau_vals] record. *)
Theorem initial_forward_propagation info_hook w pm ol st w' :
  initialization info_hook w = Ok ((pm, ol, st), w') ->
  length (forward_states st) = length objectives /\
  length (fw_states_T st) = length objectives /\
  Result.tau_vals (result st) = [tau_vals st] /\
  Result.states (result st) = fw_states_T st /\
  forall i obj, objectives !! i = Some obj ->
    exists mapping fw sT,
      pm !! i = Some mapping /\ forward_states st !! i = Some fw /\
      length fw = length tlist /\
      fw !! 0 = Some (Some (Objective.initial_state obj)) /\
      (forall n, n + 1 < length tlist ->
         exists s ham c_ops dt,
           plugged_in obj (guess_pulses st) mapping tlist n w' ham c_ops
             dt /\
           fw !! n = Some (Some s) /\
           fw !! (n + 1) = Some (Some (propagator ham s dt c_ops false))) /\
      fw !! (length tlist - 1) = Some (Some sT) /\
      fw_states_T st !! i = Some sT /\
      tau_vals st !! i = Some (overlap sT (Objective.target_state obj)).
Proof.
  intros E. apply krotov_initialization_record in E.
  destruct E as (gc & w1 & hook & _ & _ & Efs & EfwT & Htau & -> & _ & Hres).
  apply mapM_reads_inv in Efs;
    [|intros i; apply reads_forward_propagation].
  destruct Efs as [_ Hfs].
  apply mapM_res_inv in EfwT.
  apply Forall2_length in Hfs as Hlen1. rewrite length_seq in Hlen1.
  apply Forall2_length in EfwT as Hlen2.
  rewrite Hres. cbn [Result.tau_vals Result.states].
  splits; try congruence;
    [etrans; [symmetry; exact Hlen2|symmetry; exact Hlen1]|].
  intros i obj Hobj. apply lookup_lt_Some in Hobj as Hi.
  destruct (lookup_lt_is_Some_2 (forward_states st) i) as [fw Hfw];
    [lia|].
  destruct (Forall2_lookup_r _ _ _ _ _ Hfs Hfw) as (i' & Hi' & Eprop).
  apply lookup_seq in Hi'. destruct Hi' as [-> _]. simpl in Eprop.
  apply forward_propagation_inv in Eprop.
  destruct Eprop as (obj' & mapping & Hobj' & Hmap & Hlen & Hfirst & Hrec).
  rewrite Hobj in Hobj'. inversion Hobj'; subst obj'; clear Hobj'.
  destruct (Forall2_lookup_l _ _ _ _ _ EfwT Hfw) as (sT & HsT & Eget).
  simpl in Eget. apply get_state_Ok in Eget. rewrite Hlen in Eget.
  exists mapping, fw, sT. splits; try assumption.
  - intros n Hn. destruct (Hrec n Hn) as (s & ham & c_ops & dt & Hop & Hs).
    exists s, ham, c_ops, dt. split; [|exact Hs].
    match goal with
    | |- plugged_in _ _ _ _ _ ?w2 _ _ _ =>
        eapply (operators_at_Ok _ _ _ _ _ _ _ _ _ w2)
    end.
    eapply reads_same_heap; [apply reads_operators_at| |exact Hop].
    split; reflexivity.
  - rewrite Htau. apply lookup_zip_with_Some. eauto.
Qed.

End InitialPropagation.

(** ** Forward propagation inside an iteration *)

Section ForwardCoupling.
Context `{Conversions}.
Variable objectives : list Objective.t.
Variable pulses_mapping : list objective_mapping.
Variable options_list : list PulseOptions.
Variable tlist : list R.
Variable propagator : Plugged -> State -> R -> list Plugged -> bool -> State.

Lemma forward_propagation_step_inv i (states : list (list (option State)))
    objs pulses pm tl n w s w' :
  _forward_propagation_step propagator i states objs pulses pm tl n w
    = Ok (s, w') ->
  exists obj mapping s0 ham c_ops dt,
    w' = w /\ objs !! i = Some obj /\ pm !! i = Some mapping /\
    state_at states i n = Some s0 /\
    operators_at obj pulses mapping tl n w = Ok ((ham, c_ops, dt), w) /\
    s = propagator ham s0 dt c_ops false.
Proof.
  intros E. unfold _forward_propagation_step in E.
  apply M_bind_Ok in E. destruct E as (tr & w1 & Etr & E).
  apply lift_Ok in Etr. destruct Etr as [Etr ->].
  apply M_bind_Ok in E. destruct E as (s0 & w1 & Es0 & E).
  apply lift_Ok in Es0. destruct Es0 as [Es0 ->].
  apply M_bind_Ok in E. destruct E as (obj & w1 & Eobj & E).
  apply lift_Ok in Eobj. destruct Eobj as [Eobj ->].
  apply M_bind_Ok in E. destruct E as (mapping & w1 & Emap & E).
  apply lift_Ok in Emap. destruct Emap as [Emap ->].
  apply M_bind_Ok in E. destruct E as ([[ham c_ops] dt] & w1 & Eop & E).
  apply reads_unchanged in Eop as Hw1; [subst w1|apply reads_operators_at].
  inversion E; subst s w'; clear E.
  apply getitem_Ok in Etr, Eobj, Emap. apply get_state_Ok in Es0.
  exists obj, mapping, s0, ham, c_ops, dt. splits; try assumption;
    try reflexivity.
  eapply state_at_Some; eassumption.
Qed.

Lemma store_forward_states_slot (fws : list State) n idxs
    (fs fs' : list (list (option State))) :
  foldM (fun forward_states i_obj =>
           s ← getitem fws i_obj;
           trajectory ← getitem forward_states i_obj;
           trajectory ← setitem trajectory (n + 1) (Some s);
           setitem forward_states i_obj trajectory) idxs fs = Ok fs' ->
  NoDup idxs ->
  (forall i, i ∉ idxs -> fs' !! i = fs !! i) /\
  (forall i, i ∈ idxs ->
     exists s, fws !! i = Some s /\ state_at fs' i (n + 1) = Some s).
Proof.
  revert fs. induction idxs as [|i0 idxs IH]; intros fs E Hnd.
  - inversion E; subst. split; [reflexivity|]. intros i Hi. inversion Hi.
  - rewrite foldM_cons in E.
    apply res_bind_Ok in E. destruct E as (fs1 & E1 & E).
    apply NoDup_cons in Hnd. destruct Hnd as [Hi0 Hnd].
    destruct (IH _ E Hnd) as [Hother Hslot]. clear IH E.
    apply res_bind_Ok in E1. destruct E1 as (s & Es & E1).
    apply res_bind_Ok in E1. destruct E1 as (tr & Etr & E1).
    apply res_bind_Ok in E1. destruct E1 as (tr' & Etr' & E1).
    apply getitem_Ok in Es, Etr. apply setitem_Ok in Etr', E1.
    destruct Etr' as [Hn ->], E1 as [Hlt ->].
    split.
    + intros i Hi. apply not_elem_of_cons in Hi. destruct Hi as [Hne Hi].
      rewrite Hother by exact Hi. apply list_lookup_insert_ne. congruence.
    + intros i Hi. apply elem_of_cons in Hi. destruct Hi as [->|Hi].
      * exists s. split; [exact Es|]. unfold state_at.
        rewrite Hother by exact Hi0.
        rewrite list_lookup_insert_eq by exact Hlt. simpl.
        rewrite list_lookup_insert_eq by exact Hn. reflexivity.
      * apply Hslot. exact Hi.
Qed.

(** One pass of the loop over the midpoints: the states it stores. *)
Lemma time_step_forward g o bws norms delta fs fws n t w delta' fs' fws' w' :
  time_step objectives pulses_mapping options_list tlist propagator g o bws
    norms (delta, fs, fws) (n, t) w = Ok ((delta', fs', fws'), w') ->
  exists states,
    fws' = Some states /\ length states = length objectives /\
    forall i, i < length objectives ->
      exists s,
        states !! i = Some s /\ state_at fs' i (n + 1) = Some s /\
        _forward_propagation_step propagator i fs objectives o
          pulses_mapping tlist n w' = Ok (s, w').
Proof.
  intros E. unfold time_step in E.
  apply M_bind_Ok in E. destruct E as (gitems' & w1 & Eg & E).
  unfold read_list in Eg. apply lift_Ok in Eg. destruct Eg as [Eg ->].
  apply M_bind_Ok in E. destruct E as (delta1 & w1 & Eup & E).
  apply M_bind_Ok in E. destruct E as (fws1 & w2 & Efw & E).
  apply mapM_reads_inv in Efw;
    [|intros i; apply reads_forward_propagation_step].
  destruct Efw as [-> Hsteps].
  apply M_bind_Ok in E. destruct E as (fs1 & w2 & Est & E).
  apply lift_Ok in Est. destruct Est as [Est ->].
  inversion E; subst delta1 fs1 fws' w1; clear E.
  apply store_forward_states_slot in Est; [|apply NoDup_seq].
  destruct Est as [_ Hslot].
  exists fws1. split; [reflexivity|]. split.
  - apply Forall2_length in Hsteps. rewrite length_seq in Hsteps. congruence.
  - intros i Hi. destruct (Hslot i) as (s & Hs & Hst).
    { apply elem_of_seq. lia. }
    exists s. splits; try assumption.
    destruct (Forall2_lookup_r _ _ _ _ _ Hsteps Hs) as (i' & Hi' & Estep).
    apply lookup_seq in Hi'. destruct Hi' as [-> _]. exact Estep.
Qed.

(** The whole loop over the midpoints: every stored state is one step of
    the propagator from the state stored before it, with the operators of
    the store [w_n] in which the pulses have been updated up to this
    midpoint and not beyond. *)
Lemma time_loop_forward g o bws norms gitems oitems ts :
  forall n0 delta fs fws w delta' fs' fws' w',
  foldM (time_step objectives pulses_mapping options_list tlist propagator g
           o bws norms)
        (zip (seq n0 (length ts)) ts) (delta, fs, fws) w
    = Ok ((delta', fs', fws'), w') ->
  lists w !! g = Some gitems -> lists w !! o = Some oitems ->
  NoDup oitems -> length oitems = length gitems ->
  (forall p row m x,
     delta !! p = Some row -> row !! m = Some x -> n0 <= m -> x = C0) ->
  (forall j i, j < length ts -> i < length objectives ->
     exists w_n obj mapping s ham c_ops dt,
       objectives !! i = Some obj /\ pulses_mapping !! i = Some mapping /\
       state_at fs' i (n0 + j) = Some s /\
       operators_at obj o mapping tlist (n0 + j) w_n
         = Ok ((ham, c_ops, dt), w_n) /\
       state_at fs' i (n0 + j + 1)
         = Some (propagator ham s dt c_ops false) /\
       lists w_n = lists w /\
       forall p l a, oitems !! p = Some l -> arrays w !! l = Some a ->
         exists a_n a',
           arrays w_n !! l = Some a_n /\ arrays w' !! l = Some a' /\
           (forall m, m <= n0 + j -> tolist a_n !! m = tolist a' !! m) /\
           (forall m, n0 + j < m -> tolist a_n !! m = tolist a !! m) /\
           dtype_of a_n = dtype_of a') /\
  (0 < length ts ->
   exists states,
     fws' = Some states /\ length states = length objectives /\
     forall i, i < length objectives ->
       exists s, states !! i = Some s /\
                 state_at fs' i (n0 + length ts) = Some s).
Proof.
  induction ts as [|t ts IH];
    intros n0 delta fs fws w delta' fs' fws' w' E Hg Ho Hnd Hlen Hzero.
  - split; [intros j i Hj; inversion Hj|intros Hpos; inversion Hpos].
  - change (zip (seq n0 (length (t :: ts))) (t :: ts))
      with ((n0, t) :: zip (seq (S n0) (length ts)) ts) in E.
    rewrite foldM_cons in E.
    apply M_bind_Ok in E. destruct E as ([[delta1 fs1] fws1] & w1 & E1 & E).
    pose proof (time_step_inv _ _ _ _ _ _ _ _ _ _ _ _ _ _ _ _ _ _ _ _ _ E1
                  Hg Ho Hnd Hlen)
      as (Hl1 & Htq1 & Hlen1 & Hframe1 & Hdelta1 & Hfs1 & _ & Hpulse1).
    pose proof (time_step_forward _ _ _ _ _ _ _ _ _ _ _ _ _ _ E1)
      as (states1 & Hfws1 & Hlens1 & Hstep1).
    assert (forall p row m x,
              delta1 !! p = Some row -> row !! m = Some x -> S n0 <= m ->
              x = C0) as Hzero1.
    { intros p row m x Hrow Hx Hm.
      destruct (decide (p < length gitems)) as [Hp|Hp].
      - destruct (lookup_lt_is_Some_2 oitems p) as [l Hl]; [lia|].
        destruct (Hpulse1 p l Hl)
          as (? & ? & ? & row0 & x0 & ups & _ & _ & _ & Hrow0 & _ & _
              & Hrow1 & _).
        rewrite Hrow1 in Hrow. inversion Hrow; subst row.
        rewrite list_lookup_insert_ne in Hx by lia.
        eapply Hzero; [exact Hrow0|exact Hx|lia].
      - rewrite Hdelta1 in Hrow by lia.
        eapply Hzero; [exact Hrow|exact Hx|lia]. }
    pose proof Hg as Hg1. pose proof Ho as Ho1. rewrite <- Hl1 in Hg1, Ho1.
    pose proof (time_loop_inv _ _ _ _ _ _ _ _ _ _ _ _ _ _ _ _ _ _ _ _ _ E
                  Hg1 Ho1 Hnd Hlen Hzero1)
      as (Hl2 & _ & _ & _ & Hfs2 & Hpulse2).
    destruct (IH _ _ _ _ _ _ _ _ _ E Hg1 Ho1 Hnd Hlen Hzero1)
      as [Hrest Hlast].
    (* the arrays of the optimized pulses after the first pass *)
    assert (forall p l a, oitems !! p = Some l -> arrays w !! l = Some a ->
              exists a1 a',
                arrays w1 !! l = Some a1 /\ arrays w' !! l = Some a' /\
                (forall m, m <> n0 -> tolist a1 !! m = tolist a !! m) /\
                (forall m, m < S n0 -> tolist a' !! m = tolist a1 !! m) /\
                dtype_of a' = dtype_of a1) as Harr.
    { intros p l a Hpl Ha.
      destruct (Hpulse1 p l Hpl)
        as (options & a0 & v & row & x & updates & _ & Ha0 & _ & _ & _ & _
            & _ & Ha1).
      rewrite Ha in Ha0. inversion Ha0; subst a0; clear Ha0.
      destruct (Hpulse2 p l _ Hpl Ha1) as (a' & Ha' & _ & Hsame & _ & Hdt).
      eexists _, a'. splits; [exact Ha1|exact Ha'| | |exact Hdt].
      - intros m Hm. rewrite tolist_array_set.
        apply list_lookup_insert_ne. congruence.
      - intros m Hm. apply Hsame. left. exact Hm. }
    split.
    + intros j i Hj Hi. destruct j as [|j].
      * destruct (Hstep1 i Hi) as (s1 & _ & Hslot & Estep).
        apply forward_propagation_step_inv in Estep.
        destruct Estep as (obj & mapping & s0 & ham & c_ops & dt & _ & Hobj
                           & Hmap & Hs0 & Hop & ->).
        exists w1, obj, mapping, s0, ham, c_ops, dt.
        rewrite Nat.add_0_r. splits; try assumption.
        -- rewrite Hfs2 by lia. rewrite Hfs1 by lia. exact Hs0.
        -- rewrite Hfs2 by lia. exact Hslot.
        -- intros p l a Hpl Ha.
           destruct (Harr p l a Hpl Ha)
             as (a1 & a' & Ha1 & Ha' & Hne & Hlt & Hdt).
           exists a1, a'. splits; try assumption.
           ++ intros m Hm. symmetry. apply Hlt. lia.
           ++ intros m Hm. apply Hne. lia.
           ++ symmetry. exact Hdt.
      * destruct (Hrest j i) as (w_n & obj & mapping & s & ham & c_ops & dt
                                 & Hobj & Hmap & Hs & Hop & Hs' & Hln & Hpn);
          [simpl in Hj; lia|exact Hi|].
        exists w_n, obj, mapping, s, ham, c_ops, dt.
        replace (n0 + S j) with (S n0 + j) by lia.
        splits; try assumption; [congruence|].
        intros p l a Hpl Ha.
        destruct (Harr p l a Hpl Ha) as (a1 & a' & Ha1 & Ha' & Hne & Hlt & _).
        destruct (Hpn p l a1 Hpl Ha1)
          as (a_n & a'' & Han & Ha'' & Hle & Hgt & Hdt).
        rewrite Ha' in Ha''. inversion Ha''; subst a''; clear Ha''.
        exists a_n, a'. splits; try assumption.
        intros m Hm. rewrite Hgt by exact Hm. apply Hne. lia.
    + intros _. destruct ts as [|t' ts'].
      * inversion E; subst delta' fs' fws' w'; clear E.
        exists states1. splits; try assumption.
        intros i Hi. destruct (Hstep1 i Hi) as (s & Hs & Hslot & _).
        exists s. split; [exact Hs|exact Hslot].
      * destruct Hlast as (states & Hfws' & Hlens & Hslots); [simpl; lia|].
        exists states. splits; try assumption.
        intros i Hi. destruct (Hslots i Hi) as (s & Hs & Hslot).
        exists s. split; [exact Hs|].
        replace (n0 + length (t :: t' :: ts'))
          with (S n0 + length (t' :: ts')) by (simpl; lia).
        exact Hslot.
Qed.

End ForwardCoupling.

(** ** The sequential update *)

Section SequentialUpdate.
Context `{Conversions}.
Variable objectives : list Objective.t.
Variable pulse_options : PulseOptionsDict.
Variable tlist : list R.
Variable propagator : Plugged -> State -> R -> list Plugged -> bool -> State.
Variable chi_constructor :
  list State -> list Objective.t -> list (list complex) -> list State.
Variable store_all_pulses : bool.

Abbreviation initialization info_hook :=
  (krotov_initialization objectives pulse_options tlist propagator info_hook
     store_all_pulses).

Abbreviation iteration pulses_mapping options_list info_hook :=
  (krotov_iteration_body objectives (adjoint <$> objectives) pulses_mapping
     options_list tlist (_tlist_midpoints tlist) propagator chi_constructor
     info_hook store_all_pulses).

Lemma initial_forward_states_slot (objs : list Objective.t) idxs
    (fs fs' : list (list (option State))) :
  foldM (fun forward_states i_obj =>
           obj ← getitem objs i_obj;
           trajectory ← getitem forward_states i_obj;
           trajectory ←
             setitem trajectory 0 (Some (Objective.initial_state obj));
           setitem forward_states i_obj trajectory) idxs fs = Ok fs' ->
  NoDup idxs ->
  (forall i, i ∉ idxs -> fs' !! i = fs !! i) /\
  (forall i, i ∈ idxs ->
     exists obj, objs !! i = Some obj /\
                 state_at fs' i 0 = Some (Objective.initial_state obj)).
Proof.
  revert fs. induction idxs as [|i0 idxs IH]; intros fs E Hnd.
  - inversion E; subst. split; [reflexivity|]. intros i Hi. inversion Hi.
  - rewrite foldM_cons in E.
    apply res_bind_Ok in E. destruct E as (fs1 & E1 & E).
    apply NoDup_cons in Hnd. destruct Hnd as [Hi0 Hnd].
    destruct (IH _ E Hnd) as [Hother Hslot]. clear IH E.
    apply res_bind_Ok in E1. destruct E1 as (obj & Eobj & E1).
    apply res_bind_Ok in E1. destruct E1 as (tr & Etr & E1).
    apply res_bind_Ok in E1. destruct E1 as (tr' & Etr' & E1).
    apply getitem_Ok in Eobj, Etr. apply setitem_Ok in Etr', E1.
    destruct Etr' as [Hn ->], E1 as [Hlt ->].
    split.
    + intros i Hi. apply not_elem_of_cons in Hi. destruct Hi as [Hne Hi].
      rewrite Hother by exact Hi. apply list_lookup_insert_ne. congruence.
    + intros i Hi. apply elem_of_cons in Hi. destruct Hi as [->|Hi].
      * exists obj. split; [exact Eobj|]. unfold state_at.
        rewrite Hother by exact Hi0.
        rewrite list_lookup_insert_eq by exact Hlt. simpl.
        rewrite list_lookup_insert_eq by exact Hn. reflexivity.
      * apply Hslot. exact Hi.
Qed.

Lemma krotov_iteration_body_forward pm ol info_hook st k w st' w' :
  iteration pm ol info_hook st k w = Ok (st', w') ->
  pulses_wf w (guess_pulses st) ->
  forall i obj, objectives !! i = Some obj ->
    state_at (forward_states st') i 0
      = Some (Objective.initial_state obj) /\
    (forall n, n < length (_tlist_midpoints tlist) ->
       exists w_n mapping s ham c_ops dt,
         pm !! i = Some mapping /\
         state_at (forward_states st') i n = Some s /\
         plugged_in obj (guess_pulses st') mapping tlist n w_n ham c_ops dt /\
         state_at (forward_states st') i (n + 1)
           = Some (propagator ham s dt c_ops false) /\
         n_pulses w_n (guess_pulses st') = n_pulses w' (guess_pulses st') /\
         (forall p, pulse_dtype w_n (guess_pulses st') p
                    = pulse_dtype w' (guess_pulses st') p) /\
         forall p m,
           pulse_at w_n (guess_pulses st') p m
           = if decide (m <= n) then pulse_at w' (guess_pulses st') p m
             else pulse_at w (guess_pulses st) p m) /\
    (0 < length (_tlist_midpoints tlist) ->
     exists s,
       fw_states_T st' !! i = Some s /\
       state_at (forward_states st') i (length (_tlist_midpoints tlist))
         = Some s).
Proof.
  intros E (gitems & Hg & Hnd & Hval) i obj Hobj.
  apply lookup_lt_Some in Hobj as Hi.
  apply krotov_iteration_body_inv in E.
  destruct E as (bws & fs0 & gitems' & o & w_b & delta & fs & fws & w_c
                 & _ & Efs0 & Hg' & Edc & Eloop & -> & Hgo & Hopt & Hbws & Hfs
                 & _ & HfwT & _).
  rewrite Hg in Hg'. inversion Hg'; subst gitems'; clear Hg'.
  change (lists (tick w)) with (lists w) in *.
  destruct (deepcopy_inv _ _ _ _ gitems Edc Hg Hnd Hval)
    as (contents & Hc & -> & Harr & Hlists & Htq).
  simpl in Harr, Hlists.
  change (lists (tick w)) with (lists w) in *.
  apply Forall2_length in Hc as Hclen.
  apply lookup_lt_Some in Hg as Hglt.
  assert (lists w_b !! guess_pulses st = Some gitems) as Hgb.
  { rewrite Hlists. rewrite lookup_app_l; assumption. }
  assert (lists w_b !! length (lists w)
          = Some (seq (length (arrays w)) (length gitems))) as Hob.
  { rewrite Hlists. apply list_lookup_middle. reflexivity. }
  assert (forall p row m x,
            replicate (length gitems)
              (replicate (length (_tlist_midpoints tlist)) C0) !! p
            = Some row -> row !! m = Some x -> 0 <= m -> x = C0) as Hzero.
  { intros p row m x Hrow Hx _.
    apply lookup_replicate in Hrow. destruct Hrow as [-> _].
    apply lookup_replicate in Hx. destruct Hx as [-> _]. reflexivity. }
  unfold enumerate in Eloop.
  pose proof (time_loop_inv objectives pm ol tlist propagator _ _ _ _ gitems
                _ (_tlist_midpoints tlist) 0 _ _ _ _ _ _ _ _ Eloop Hgb Hob
                (NoDup_seq _ _) (length_seq _ _) Hzero)
    as (Hl & _ & Hlen & Hframe & Hfs0 & Hpulse).
  pose proof (time_loop_forward objectives pm ol tlist propagator _ _ _ _
                gitems _ (_tlist_midpoints tlist) 0 _ _ _ _ _ _ _ _ Eloop
                Hgb Hob (NoDup_seq _ _) (length_seq _ _) Hzero)
    as [Hsteps Hlast].
  apply initial_forward_states_slot in Efs0; [|apply NoDup_seq].
  destruct Efs0 as [_ Hinit].
  rewrite Hfs, HfwT, Hgo. splits.
  - rewrite Hfs0 by lia. destruct (Hinit i) as (obj' & Hobj' & Hslot).
    { apply elem_of_seq. lia. }
    rewrite Hobj in Hobj'. inversion Hobj'; subst obj'. exact Hslot.
  - intros n Hn.
    destruct (Hsteps n i Hn Hi)
      as (w_n & obj' & mapping & s & ham & c_ops & dt & Hobj' & Hmap & Hs
          & Hop & Hs' & Hln & Hpn).
    rewrite Hobj in Hobj'. inversion Hobj'; subst obj'; clear Hobj'.
    simpl in Hs, Hop, Hs'.
    exists w_n, mapping, s, ham, c_ops, dt. splits; try assumption.
    + apply operators_at_Ok in Hop. apply Hop.
    + unfold n_pulses. change (lists (tick w_c)) with (lists w_c).
      rewrite Hln, Hl. reflexivity.
    + intros p. unfold pulse_dtype, pulse_array.
      change (lists (tick w_c)) with (lists w_c).
      change (arrays (tick w_c)) with (arrays w_c).
      rewrite Hln, Hl, Hob. simpl.
      destruct (gitems !! p) as [gl|] eqn:Hgl; simpl.
      * apply lookup_lt_Some in Hgl as Hp.
        rewrite lookup_seq_lt by exact Hp. simpl.
        destruct (Forall2_lookup_l _ _ _ _ _ Hc Hgl) as (a & Ha & Hgla).
        destruct (Hpn p (length (arrays w) + p) a)
          as (a_n & a' & Han & Ha' & _ & _ & Hdt).
        { apply lookup_seq_lt. exact Hp. }
        { rewrite Harr. rewrite lookup_app_r by lia.
          replace (length (arrays w) + p - length (arrays w)) with p by lia.
          exact Ha. }
        rewrite Han, Ha'. simpl. rewrite Hdt. reflexivity.
      * apply lookup_ge_None in Hgl. rewrite lookup_seq_ge by exact Hgl.
        reflexivity.
    + intros p m. unfold pulse_at, pulse_array.
      change (lists (tick w_c)) with (lists w_c).
      change (arrays (tick w_c)) with (arrays w_c).
      rewrite Hln, Hl, Hob, Hg. simpl.
      destruct (gitems !! p) as [gl|] eqn:Hgl; simpl.
      * apply lookup_lt_Some in Hgl as Hp.
        rewrite lookup_seq_lt by exact Hp. simpl.
        destruct (Forall2_lookup_l _ _ _ _ _ Hc Hgl) as (a & Ha & Hgla).
        simpl in Hgla.
        destruct (Hpn p (length (arrays w) + p) a)
          as (a_n & a' & Han & Ha' & Hle & Hgt & _).
        { apply lookup_seq_lt. exact Hp. }
        { rewrite Harr. rewrite lookup_app_r by lia.
          replace (length (arrays w) + p - length (arrays w)) with p by lia.
          exact Ha. }
        rewrite Han, Ha', Hgla. simpl. case_decide as Hm.
        -- apply Hle. simpl. exact Hm.
        -- apply Hgt. simpl. lia.
      * apply lookup_ge_None in Hgl. rewrite lookup_seq_ge by exact Hgl.
        simpl. case_decide; reflexivity.
  - intros Hpos. destruct (Hlast Hpos) as (states & Hst & _ & Hslots).
    inversion Hst; subst states; clear Hst.
    destruct (Hslots i Hi) as (s & Hs & Hslot). exists s. auto.
Qed.

(** X8: the forward propagation of an iteration is sequential: the
    trajectory of every objective starts from its initial state, and the
    state of slot [n+1] is one forward step of the propagator from the
    state of slot [n], over the time step from [tlist[n]] to
    [tlist[n+1]], with the Hamiltonian and the dissipation operators of
    the objective into which [plug_in_pulse_values] has put, at index [n],
    the arrays of a store [w_n]; there the optimized pulses are as many as
    in the end and of the same dtype, and have their final values on the
    intervals up to [n] and still the values of the guess pulses on the
    later ones; [fw_states_T] holds the states of the slot after the last
    midpoint. *)
Theorem forward_propagation_uses_updated_pulses info_hook w0 pm ol st0 w1
    its st w k st' w' :
  initialization info_hook w0 = Ok ((pm, ol, st0), w1) ->
  foldM (iteration pm ol info_hook) its st0 w1 = Ok (st, w) ->
  iteration pm ol info_hook st k w = Ok (st', w') ->
  forall i obj, objectives !! i = Some obj ->
    state_at (forward_states st') i 0
      = Some (Objective.initial_state obj) /\
    (forall n, n < length (_tlist_midpoints tlist) ->
       exists w_n mapping s ham c_ops dt,
         pm !! i = Some mapping /\
         state_at (forward_states st') i n = Some s /\
         plugged_in obj (guess_pulses st') mapping tlist n w_n ham c_ops dt /\
         state_at (forward_states st') i (n + 1)
           = Some (propagator ham s dt c_ops false) /\
         n_pulses w_n (guess_pulses st') = n_pulses w' (guess_pulses st') /\
         (forall p, pulse_dtype w_n (guess_pulses st') p
                    = pulse_dtype w' (guess_pulses st') p) /\
         forall p m,
           pulse_at w_n (guess_pulses st') p m
           = if decide (m <= n) then pulse_at w' (guess_pulses st') p m
             else pulse_at w (guess_pulses st) p m) /\
    (0 < length (_tlist_midpoints tlist) ->
     exists s,
       fw_states_T st' !! i = Some s /\
       state_at (forward_states st') i (length (_tlist_midpoints tlist))
         = Some s).
Proof.
  intros Einit Eloop E.
  apply krotov_initialization_wf in Einit.
  pose proof (krotov_loop_wf _ _ _ _ _ _ _ _ _ _ _ _ _ Eloop Einit) as Hwf.
  eapply krotov_iteration_body_forward; eassumption.
Qed.

End SequentialUpdate.

(** ** What a completed iteration implies *)

Section CompletedIteration.
Context `{Conversions}.
Variable objectives : list Objective.t.
Variable pulse_options : PulseOptionsDict.
Variable tlist : list R.
Variable propagator : Plugged -> State -> R -> list Plugged -> bool -> State.
Variable chi_constructor :
  list State -> list Objective.t -> list (list complex) -> list State.
Variable store_all_pulses : bool.

Abbreviation initialization info_hook :=
  (krotov_initialization objectives pulse_options tlist propagator info_hook
     store_all_pulses).

Abbreviation iteration pulses_mapping options_list info_hook :=
  (krotov_iteration_body objectives (adjoint <$> objectives) pulses_mapping
     options_list tlist (_tlist_midpoints tlist) propagator chi_constructor
     info_hook store_all_pulses).

(** X19: an iteration of a run, on a time grid with a midpoint, completes
    only if [_derivative_wrt_pulse] has returned for every pulse and every
    objective: for each of them either no term of the Hamiltonian depends
    on the pulse, or no dissipation operator of the objective does. *)
Theorem completed_iteration_has_no_driven_dissipator info_hook w0 pm ol st0
    w1 its st w k st' w' :
  initialization info_hook w0 = Ok ((pm, ol, st0), w1) ->
  foldM (iteration pm ol info_hook) its st0 w1 = Ok (st, w) ->
  iteration pm ol info_hook st k w = Ok (st', w') ->
  0 < length (_tlist_midpoints tlist) ->
  forall p n_p i obj,
    n_pulses w (guess_pulses st) = Some n_p -> p < n_p ->
    objectives !! i = Some obj ->
    exists mapping slot ham_mapping,
      pm !! i = Some mapping /\ mapping !! 0 = Some slot /\
      slot !! p = Some ham_mapping /\
      (ham_mapping = [] \/
       forall i_c, i_c < length (Objective.c_ops obj) ->
         exists c_slot,
           mapping !! (i_c + 1) = Some c_slot /\ c_slot !! p = Some []).
Proof.
  intros Einit Eloop E Hmid p n_p i obj Hnp Hp Hobj.
  apply krotov_initialization_wf in Einit.
  pose proof (krotov_loop_wf _ _ _ _ _ _ _ _ _ _ _ _ _ Eloop Einit) as Hwf.
  destruct (krotov_iteration_body_effect _ _ _ _ _ _ _ _ _ _ _ _ _ _ _ E
              Hwf)
    as (gitems & bws & Hg & _ & _ & _ & _ & _ & _ & Hpulse).
  unfold n_pulses in Hnp. rewrite Hg in Hnp. inversion Hnp; subst n_p.
  destruct (lookup_lt_is_Some_2 gitems p Hp) as [gl Hgl].
  destruct Hwf as (gitems' & Hg2 & _ & Hval).
  rewrite Hg in Hg2. inversion Hg2; subst gitems'.
  destruct (lookup_lt_is_Some_2 (arrays w) gl) as [a Ha].
  { eapply Forall_lookup_1 in Hval; [exact Hval|exact Hgl]. }
  destruct (Hpulse p gl a Hgl Ha) as (a' & _ & _ & _ & Hupd & _).
  destruct (lookup_lt_is_Some_2 (_tlist_midpoints tlist) 0 Hmid) as [t Ht].
  destruct (Hupd 0 t Ht) as (options & v & updates & _ & _ & Hups & _).
  assert (enumerate objectives !! i = Some (i, obj)) as Hio.
  { unfold enumerate. apply lookup_zip_with_Some. exists i, obj.
    split; [reflexivity|]. split; [|exact Hobj].
    apply lookup_seq_lt. eapply lookup_lt_Some, Hobj. }
  destruct (Forall2_lookup_l _ _ _ _ _ Hups Hio) as (u & _ & Hu).
  destruct Hu as (chi & mapping & mu & psi & nrm & _ & Hmap & Hmu & _).
  simpl in Hmap, Hmu.
  apply derivative_wrt_pulse_Ok in Hmu.
  destruct Hmu as (slot & hm & Hslot & Hhm & Hcases).
  exists mapping, slot, hm. splits; try assumption.
  destruct Hcases as [[-> _]|(_ & _ & Hall)]; [left; reflexivity|right].
  exact Hall.
Qed.

(** X20: in every iteration of a run the optimized pulses are as many
    arrays as the guess pulses, each of the dtype and the length of the
    guess pulse it was copied from and at least as long as the list of
    midpoints; beyond the midpoints the values are those of the guess
    pulse. *)
Theorem optimized_pulses_have_the_shape_of_the_guess info_hook w0 pm ol st0
    w1 its st w k st' w' :
  initialization info_hook w0 = Ok ((pm, ol, st0), w1) ->
  foldM (iteration pm ol info_hook) its st0 w1 = Ok (st, w) ->
  iteration pm ol info_hook st k w = Ok (st', w') ->
  n_pulses w' (guess_pulses st') = n_pulses w (guess_pulses st) /\
  forall p n_p,
    n_pulses w (guess_pulses st) = Some n_p -> p < n_p ->
    exists a a',
      pulse_array w (guess_pulses st) p = Some a /\
      pulse_array w' (guess_pulses st') p = Some a' /\
      dtype_of a' = dtype_of a /\
      length (tolist a') = length (tolist a) /\
      length (_tlist_midpoints tlist) <= length (tolist a) /\
      forall m, length (_tlist_midpoints tlist) <= m ->
        tolist a' !! m = tolist a !! m.
Proof.
  intros Einit Eloop E.
  apply krotov_initialization_wf in Einit.
  pose proof (krotov_loop_wf _ _ _ _ _ _ _ _ _ _ _ _ _ Eloop Einit) as Hwf.
  destruct (krotov_iteration_body_effect _ _ _ _ _ _ _ _ _ _ _ _ _ _ _ E
              Hwf)
    as (gitems & bws & Hg & Hg' & _ & Hl' & _ & _ & _ & Hpulse).
  destruct Hwf as (gitems' & Hg2 & _ & Hval).
  rewrite Hg in Hg2. inversion Hg2; subst gitems'; clear Hg2.
  assert (lists w' !! guess_pulses st'
          = Some (seq (length (arrays w)) (length gitems))) as Ho.
  { rewrite Hg', Hl'. apply list_lookup_middle. reflexivity. }
  split.
  - unfold n_pulses. rewrite Ho, Hg. simpl. rewrite length_seq.
    reflexivity.
  - intros p n_p Hnp Hp.
    unfold n_pulses in Hnp. rewrite Hg in Hnp. inversion Hnp; subst n_p.
    destruct (lookup_lt_is_Some_2 gitems p Hp) as [gl Hgl].
    destruct (lookup_lt_is_Some_2 (arrays w) gl) as [a Ha].
    { eapply Forall_lookup_1 in Hval; [exact Hval|exact Hgl]. }
    destruct (Hpulse p gl a Hgl Ha)
      as (a' & Ha' & Hlen & Hsame & Hupd & Hdt).
    exists a, a'. splits.
    + unfold pulse_array. rewrite Hg. simpl. rewrite Hgl. simpl. exact Ha.
    + unfold pulse_array. rewrite Ho. simpl.
      rewrite lookup_seq_lt by exact Hp. simpl. exact Ha'.
    + exact Hdt.
    + exact Hlen.
    + destruct (_tlist_midpoints tlist) as [|t0 ts] eqn:Hmid using rev_ind;
        [simpl; lia|].
      destruct (Hupd (length ts) t0) as (? & v & ? & _ & Hv & _).
      { apply list_lookup_middle. reflexivity. }
      apply lookup_lt_Some in Hv. rewrite length_app. simpl. lia.
    + exact Hsame.
Qed.

End CompletedIteration.

(** ** The store during a run *)

Lemma if_true (b : bool) (A B : Prop) : b = true -> A -> if b then A else B.
Proof. intros -> HA. exact HA. Qed.

Lemma if_false (b : bool) (A B : Prop) :
  b = false -> B -> if b then A else B.
Proof. intros -> HB. exact HB. Qed.

Section Store.
Context `{Conversions}.
Variable objectives : list Objective.t.
Variable pulse_options : PulseOptionsDict.
Variable tlist : list R.
Variable propagator : Plugged -> State -> R -> list Plugged -> bool -> State.
Variable chi_constructor :
  list State -> list Objective.t -> list (list complex) -> list State.
Variable store_all_pulses : bool.

Abbreviation initialization info_hook :=
  (krotov_initialization objectives pulse_options tlist propagator info_hook
     store_all_pulses).

Abbreviation iteration pulses_mapping options_list info_hook :=
  (krotov_iteration_body objectives (adjoint <$> objectives) pulses_mapping
     options_list tlist (_tlist_midpoints tlist) propagator chi_constructor
     info_hook store_all_pulses).

(** The loop allocates; it writes to what it has allocated only. *)
Lemma krotov_loop_frame pm ol info_hook its st w st' w' :
  foldM (iteration pm ol info_hook) its st w = Ok (st', w') ->
  pulses_wf w (guess_pulses st) ->
  length (lists w) <= length (lists w') /\
  (forall l a, arrays w !! l = Some a -> arrays w' !! l = Some a) /\
  (forall l items, lists w !! l = Some items -> lists w' !! l = Some items) /\
  (forall o, optimized_pulses st' = Some o ->
     optimized_pulses st = Some o \/ length (lists w) <= o).
Proof.
  revert st w. induction its as [|k its IH]; intros st w E Hwf.
  - inversion E; subst. splits; auto.
  - rewrite foldM_cons in E.
    apply M_bind_Ok in E. destruct E as (st1 & w1 & E1 & E).
    pose proof (krotov_iteration_body_wf _ _ _ _ _ _ _ _ _ _ _ _ _ _ _ E1
                  Hwf) as Hwf1.
    destruct (krotov_iteration_body_effect _ _ _ _ _ _ _ _ _ _ _ _ _ _ _ E1
                Hwf)
      as (gitems & bws & Hg & Hg' & Hopt & Hl' & Hlen & Hframe & _ & _).
    destruct (IH _ _ E Hwf1) as (Hlen' & Ha & Hl & Ho).
    assert (length (lists w1) = S (length (lists w))) as Hlen1.
    { rewrite Hl', length_app. simpl. lia. }
    splits.
    + lia.
    + intros l a Hla. apply Ha. rewrite Hframe; [exact Hla|].
      eapply lookup_lt_Some, Hla.
    + intros l items Hli. apply Hl. rewrite Hl'.
      apply lookup_app_l_Some. exact Hli.
    + intros o Ho'. right. destruct (Ho o Ho') as [Ho1|Hge]; [|lia].
      rewrite Hopt in Ho1. inversion Ho1. lia.
Qed.

(** The history of pulses, when it is kept. *)
Lemma krotov_loop_all_pulses pm ol info_hook its st w st' w' :
  foldM (iteration pm ol info_hook) its st w = Ok (st', w') ->
  pulses_wf w (guess_pulses st) ->
  store_all_pulses = true ->
  Forall (fun l => l < length (lists w)) (Result.all_pulses (result st)) ->
  NoDup (Result.all_pulses (result st)) ->
  last (Result.all_pulses (result st)) = Some (guess_pulses st) ->
  Forall (fun l => l < length (lists w')) (Result.all_pulses (result st')) /\
  NoDup (Result.all_pulses (result st')) /\
  last (Result.all_pulses (result st')) = Some (guess_pulses st') /\
  head (Result.all_pulses (result st'))
    = head (Result.all_pulses (result st)) /\
  length (Result.all_pulses (result st'))
    = length (Result.all_pulses (result st)) + length its.
Proof.
  intros E Hwf Hstore. revert st w E Hwf.
  induction its as [|k its IH]; intros st w E Hwf Hall Hnd Hlast.
  - inversion E; subst. splits; auto.
  - rewrite foldM_cons in E.
    apply M_bind_Ok in E. destruct E as (st1 & w1 & E1 & E).
    pose proof (krotov_iteration_body_wf _ _ _ _ _ _ _ _ _ _ _ _ _ _ _ E1
                  Hwf) as Hwf1.
    destruct (krotov_iteration_body_effect _ _ _ _ _ _ _ _ _ _ _ _ _ _ _ E1
                Hwf)
      as (gitems & bws & Hg & Hg' & Hopt & Hl' & _).
    apply krotov_iteration_body_record in E1.
    destruct E1 as (o & bws' & toc & Ho & _ & _ & _ & _ & Hres).
    assert (Result.all_pulses (result st1)
            = Result.all_pulses (result st) ++ [length (lists w)]) as Hap.
    { rewrite Hres. cbn [Result.all_pulses]. rewrite Hstore. congruence. }
    assert (length (lists w1) = S (length (lists w))) as Hlen1.
    { rewrite Hl', length_app. simpl. lia. }
    destruct (IH _ _ E Hwf1) as (Hall' & Hnd' & Hlast' & Hhead' & Hlen').
    + rewrite Hap. apply Forall_app. split.
      * eapply Forall_impl; [exact Hall|]. simpl. intros. lia.
      * constructor; [lia|constructor].
    + rewrite Hap. apply NoDup_app. splits.
      * exact Hnd.
      * intros x Hx Hx'. apply list_elem_of_singleton in Hx'. subst x.
        eapply Forall_forall in Hall; [|exact Hx]. lia.
      * apply NoDup_singleton.
    + rewrite Hap, last_snoc. congruence.
    + splits; try assumption.
      * rewrite Hhead', Hap.
        destruct (Result.all_pulses (result st)); [discriminate Hlast|].
        reflexivity.
      * rewrite Hlen', Hap, length_app. simpl. lia.
Qed.

(** What the loop after the run writes to. *)
Lemma finalization_loop_frame (result : Result.t) o items :
  Result.optimized_controls result = Some o ->
  forall w w' u,
  foldM (fun (_ : unit) '(i, pulse) =>
           a ← read_array pulse;
           new ← alloc_array (pulse_onto_tlist a);
           controls ←
             match Result.optimized_controls result with
             | Some controls => mret controls
             | None => raise TypeError
             end;
           current ← read_list controls;
           current ← lift (setitem current i new);
           write_list controls current)
        items tt w = Ok (u, w') ->
  (exists new, arrays w' = arrays w ++ new) /\
  length (lists w') = length (lists w) /\
  (forall l, l <> o -> lists w' !! l = lists w !! l) /\
  time_queries w' = time_queries w.
Proof.
  intros Hoc.
  induction items as [|[j pulse] rest IH]; intros w w' u E.
  - inversion E; subst. splits; auto. exists []. rewrite app_nil_r.
    reflexivity.
  - rewrite foldM_cons in E.
    apply M_bind_Ok in E. destruct E as ([] & w2 & E1 & E).
    apply M_bind_Ok in E1. destruct E1 as (a & w1 & Ea & E1).
    unfold read_array in Ea. apply lift_Ok in Ea. destruct Ea as [Ea ->].
    apply M_bind_Ok in E1. destruct E1 as (new & w1 & Enew & E1).
    inversion Enew; subst new w1; clear Enew.
    rewrite Hoc in E1.
    apply M_bind_Ok in E1. destruct E1 as (controls & w1 & Ec & E1).
    inversion Ec; subst controls w1; clear Ec.
    apply M_bind_Ok in E1. destruct E1 as (current & w1 & Ecur & E1).
    unfold read_list in Ecur. apply lift_Ok in Ecur.
    destruct Ecur as [Ecur ->].
    apply M_bind_Ok in E1. destruct E1 as (current' & w1 & Eset & E1).
    apply lift_Ok in Eset. destruct Eset as [Eset ->].
    unfold write_list in E1. simpl in E1.
    destruct (setitem (lists w) o _) as [ls|] eqn:Els; [|discriminate E1].
    inversion E1; subst w2; clear E1.
    apply setitem_Ok in Els. destruct Els as [Holt ->].
    apply IH in E. destruct E as ([new Hnew] & Hlen & Hl & Htq).
    unfold set_arrays, set_lists in Hnew, Hlen, Hl, Htq.
    cbn [arrays lists time_queries] in Hnew, Hlen, Hl, Htq.
    splits.
    + exists ([pulse_onto_tlist a] ++ new). rewrite Hnew, app_assoc.
      reflexivity.
    + rewrite Hlen. apply length_insert.
    + intros l Hne. rewrite Hl by exact Hne.
      apply list_lookup_insert_ne. congruence.
    + exact Htq.
Qed.

Lemma krotov_finalization_frame st w r w' o :
  krotov_finalization st w = Ok (r, w') ->
  Result.optimized_controls (result st) = Some o ->
  (forall l a, arrays w !! l = Some a -> arrays w' !! l = Some a) /\
  length (lists w') = length (lists w) /\
  (forall l, l <> o -> lists w' !! l = lists w !! l) /\
  time_queries w' = S (time_queries w).
Proof.
  intros E Hoc. unfold krotov_finalization in E.
  apply M_bind_Ok in E. destruct E as (stop & w1 & Estop & E).
  inversion Estop; subst stop w1; clear Estop.
  apply M_bind_Ok in E. destruct E as (pulses & w1 & Ep & E).
  destruct (optimized_pulses st); [|discriminate Ep].
  inversion Ep; subst pulses w1; clear Ep.
  apply M_bind_Ok in E. destruct E as (items' & w1 & Ei & E).
  unfold read_list in Ei. apply lift_Ok in Ei. destruct Ei as [Ei ->].
  apply M_bind_Ok in E. destruct E as (u & w1 & Eloop & E).
  inversion E; subst r w1; clear E.
  eapply (finalization_loop_frame _ o) in Eloop; [|exact Hoc].
  destruct Eloop as ([new Hnew] & Hlen & Hl & Htq).
  cbn [arrays lists time_queries] in Hnew, Hlen, Hl, Htq.
  splits; try assumption.
  intros l a Hla. rewrite Hnew. apply lookup_app_l_Some. exact Hla.
Qed.

(** The state of the store and of the local variables when the loop of a
    completed run ends. *)
Lemma optimize_pulses_stages sigma iter_start iter_stop check_convergence
    state_dependent_constraint info_hook w r w' :
  optimize_pulses objectives pulse_options tlist propagator chi_constructor
    sigma iter_start iter_stop check_convergence state_dependent_constraint
    info_hook store_all_pulses w = Ok (r, w') ->
  exists pm ol st0 w1 st w2 o,
    initialization info_hook w = Ok ((pm, ol, st0), w1) /\
    foldM (iteration pm ol info_hook)
      (py_range (iter_start + 1) (iter_stop + 1)) st0 w1 = Ok (st, w2) /\
    krotov_finalization st w2 = Ok (r, w') /\
    pulses_wf w1 (guess_pulses st0) /\
    pulses_wf w2 o /\
    optimized_pulses st = Some o /\ guess_pulses st = o /\
    Result.optimized_controls (result st) = Some o /\
    length (lists w1) <= o.
Proof.
  intros E. apply optimize_pulses_Ok in E.
  destruct E as (pm & ol & st0 & w1 & st & w2 & Einit & Eloop & Efin).
  pose proof (krotov_initialization_wf _ _ _ _ _ _ _ _ _ _ _ Einit) as Hwf1.
  pose proof (krotov_loop_wf _ _ _ _ _ _ _ _ _ _ _ _ _ Eloop Hwf1) as Hwf2.
  pose proof Efin as Hfin. apply krotov_finalization_inv in Hfin.
  destruct Hfin as ([o Ho] & _).
  pose proof Einit as Hinv. apply krotov_initialization_inv in Hinv.
  destruct Hinv as (? & ? & _ & _ & _ & _ & Hnone & _).
  destruct (krotov_loop_optimized _ _ _ _ _ _ _ _ _ _ _ _ _ Eloop)
    with (o := o) as [Hog Hoc]; [intros o' Ho'; congruence|exact Ho|].
  destruct (krotov_loop_frame _ _ _ _ _ _ _ _ Eloop Hwf1)
    as (_ & _ & _ & Hnew).
  destruct (Hnew o Ho) as [Ho0|Hge]; [congruence|].
  exists pm, ol, st0, w1, st, w2, o. rewrite <- Hog in Hwf2.
  splits; auto.
Qed.

(** X13: with [store_all_pulses] a completed run has stored one list of
    pulses for each recorded iteration, no list twice, the first one the
    guess pulses and the last one the very list that
    [result.optimized_controls] names (the one that the finalization
    overwrites with the controls on the time grid); without it
    [all_pulses] stays empty. *)
Theorem all_pulses_of_a_run sigma iter_start iter_stop check_convergence
    state_dependent_constraint info_hook w r w' :
  optimize_pulses objectives pulse_options tlist propagator chi_constructor
    sigma iter_start iter_stop check_convergence state_dependent_constraint
    info_hook store_all_pulses w = Ok (r, w') ->
  if store_all_pulses
  then length (Result.all_pulses r) = length (Result.iters r) /\
       NoDup (Result.all_pulses r) /\
       head (Result.all_pulses r) = Some (length (lists w)) /\
       last (Result.all_pulses r) = Result.optimized_controls r
  else Result.all_pulses r = [].
Proof.
  intros E. pose proof E as Hh. apply optimize_pulses_history in Hh.
  destruct Hh as (Hiters & _ & _).
  apply optimize_pulses_stages in E.
  destruct E as (pm & ol & st0 & w1 & st & w2 & o & Einit & Eloop & Efin
                 & Hwf1 & Hwf2 & Ho & Hg & Hoc & Hge).
  apply krotov_finalization_record in Efin. subst r.
  cbn [Result.all_pulses Result.iters Result.optimized_controls
       Result.set_end_local_time] in *.
  pose proof Einit as Hrec. apply krotov_initialization_record in Hrec.
  destruct Hrec as (gc & w0 & hook & Ei & _ & _ & _ & _ & Hw1 & _ & Hres).
  apply initialize_krotov_controls_inv in Ei.
  destruct Ei as (_ & _ & Hg0 & pulses & _ & _ & Hl0 & _).
  destruct (bool_dec store_all_pulses true) as [Hstore|Hstore].
  - apply if_true; [exact Hstore|].
    destruct (krotov_loop_all_pulses _ _ _ _ _ _ _ _ Eloop Hwf1 Hstore)
      as (_ & Hnd & Hlast & Hhead & Hlen).
    + rewrite Hres. cbn [Result.all_pulses]. rewrite Hstore.
      constructor; [|constructor].
      subst w1. simpl. rewrite Hl0, length_app. simpl. lia.
    + rewrite Hres. cbn [Result.all_pulses]. rewrite Hstore.
      apply NoDup_singleton.
    + rewrite Hres. cbn [Result.all_pulses]. rewrite Hstore. reflexivity.
    + rewrite Hres in Hhead, Hlen. cbn [Result.all_pulses] in Hhead, Hlen.
      rewrite Hstore in Hhead, Hlen.
      splits.
      * rewrite Hlen, Hiters. reflexivity.
      * exact Hnd.
      * rewrite Hhead. simpl. congruence.
      * rewrite Hlast, Hoc. congruence.
  - apply not_true_is_false in Hstore. apply if_false; [exact Hstore|].
    assert (forall its st w st' w',
              foldM (iteration pm ol info_hook) its st w = Ok (st', w') ->
              Result.all_pulses (result st') = Result.all_pulses (result st))
      as Hkeep.
    { clear -Hstore. induction its as [|k its IH]; intros st w st' w' E.
      - inversion E; subst. reflexivity.
      - rewrite foldM_cons in E.
        apply M_bind_Ok in E. destruct E as (st1 & w1 & E1 & E).
        apply IH in E. rewrite E.
        apply krotov_iteration_body_record in E1.
        destruct E1 as (o & bws & toc & _ & _ & _ & _ & _ & ->).
        cbn [Result.all_pulses]. rewrite Hstore. reflexivity. }
    rewrite (Hkeep _ _ _ _ _ Eloop), Hres. cbn [Result.all_pulses].
    rewrite Hstore. reflexivity.
Qed.

(** X14: a completed run has changed no array and no list that existed
    when it was started: it writes only to what it has allocated. *)
Theorem optimize_pulses_frame sigma iter_start iter_stop check_convergence
    state_dependent_constraint info_hook w r w' :
  optimize_pulses objectives pulse_options tlist propagator chi_constructor
    sigma iter_start iter_stop check_convergence state_dependent_constraint
    info_hook store_all_pulses w = Ok (r, w') ->
  (forall l a, arrays w !! l = Some a -> arrays w' !! l = Some a) /\
  (forall l items, lists w !! l = Some items -> lists w' !! l = Some items).
Proof.
  intros E. apply optimize_pulses_stages in E.
  destruct E as (pm & ol & st0 & w1 & st & w2 & o & Einit & Eloop & Efin
                 & Hwf1 & Hwf2 & Ho & Hg & Hoc & Hge).
  apply krotov_initialization_inv in Einit.
  destruct Einit as (gc & w0 & Ei & Ha1 & Hl1 & _).
  apply initialize_krotov_controls_inv in Ei.
  destruct Ei as (_ & _ & _ & pulses & _ & Ha0 & Hl0 & _).
  destruct (krotov_loop_frame _ _ _ _ _ _ _ _ Eloop Hwf1)
    as (_ & Ha & Hl & _).
  destruct (krotov_finalization_frame _ _ _ _ _ Efin Hoc)
    as (Ha' & _ & Hl' & _).
  split.
  - intros l a Hla. apply Ha', Ha. rewrite Ha1, Ha0.
    apply lookup_app_l_Some. exact Hla.
  - intros l items Hli. rewrite Hl'.
    + apply Hl. rewrite Hl1, Hl0. apply lookup_app_l_Some. exact Hli.
    + apply lookup_lt_Some in Hli. rewrite Hl1, Hl0, length_app in Hge.
      simpl in Hge. lia.
Qed.

(** X15: after a completed run the list of guess pulses, the first list
    that the run allocated, still holds one array for each discretized
    guess control, [control_onto_interval] of that control: no iteration
    and no finalization has written to it. *)
Theorem guess_pulses_survive_the_run sigma iter_start iter_stop
    check_convergence state_dependent_constraint info_hook w r w' :
  optimize_pulses objectives pulse_options tlist propagator chi_constructor
    sigma iter_start iter_stop check_convergence state_dependent_constraint
    info_hook store_all_pulses w = Ok (r, w') ->
  n_pulses w' (length (lists w)) = Some (length (Result.guess_controls r)) /\
  forall p,
    pulse_array w' (length (lists w)) p
    = (fun control =>
         control_onto_interval control tlist (_tlist_midpoints tlist))
        <$> Result.guess_controls r !! p.
Proof.
  intros E. apply optimize_pulses_stages in E.
  destruct E as (pm & ol & st0 & w1 & st & w2 & o & Einit & Eloop & Efin
                 & Hwf1 & Hwf2 & Ho & Hg & Hoc & Hge).
  destruct (krotov_loop_frame _ _ _ _ _ _ _ _ Eloop Hwf1)
    as (_ & Ha & Hl & _).
  destruct (krotov_finalization_frame _ _ _ _ _ Efin Hoc)
    as (Ha' & _ & Hl' & _).
  pose proof Eloop as Hrec. apply krotov_loop_record in Hrec.
  destruct Hrec as (_ & _ & _ & _ & _ & Hgc & _).
  apply krotov_finalization_record in Efin. subst r.
  cbn [Result.guess_controls Result.set_end_local_time]. rewrite Hgc.
  apply krotov_initialization_record in Einit.
  destruct Einit as (gc & w0 & hook & Ei & _ & _ & _ & _ & Hw1 & _ & Hres).
  rewrite Hres. cbn [Result.guess_controls]. clear Hres Hgc.
  apply initialize_krotov_controls_pulses in Ei.
  destruct Ei as (_ & Ha0 & Hl0 & _).
  assert (arrays w1 = arrays w0) as Ha1 by (subst w1; reflexivity).
  assert (lists w1 = lists w0) as Hl1 by (subst w1; reflexivity).
  assert (lists w' !! length (lists w)
          = Some (seq (length (arrays w)) (length gc))) as Hg'.
  { rewrite Hl'.
    - apply Hl. rewrite Hl1, Hl0. apply list_lookup_middle. reflexivity.
    - rewrite Hl1, Hl0, length_app in Hge. simpl in Hge. lia. }
  unfold n_pulses, pulse_array. rewrite Hg'. simpl.
  rewrite length_seq. split; [reflexivity|].
  intros p. destruct (gc !! p) as [control|] eqn:Hp; simpl.
  - apply lookup_lt_Some in Hp as Hlt.
    rewrite lookup_seq_lt by exact Hlt. simpl.
    apply Ha', Ha. rewrite Ha1, Ha0.
    rewrite lookup_app_r by lia.
    replace (length (arrays w) + p - length (arrays w)) with p by lia.
    rewrite list_lookup_fmap, Hp. reflexivity.
  - apply lookup_ge_None in Hp. rewrite lookup_seq_ge by exact Hp.
    reflexivity.
Qed.

(** X16: the controls that a completed run returns are the optimized
    pulses of the last iteration, put onto the time grid: the list that
    [result.optimized_controls] names is the list [optimized_pulses] of the
    last pass of the loop, a list that the run has allocated, with as many
    entries after the finalization as before, entry [p] now being
    [pulse_onto_tlist] of the array that it held when the loop ended. *)
Theorem returned_controls_are_on_tlist sigma iter_start iter_stop
    check_convergence state_dependent_constraint info_hook w r w' :
  optimize_pulses objectives pulse_options tlist propagator chi_constructor
    sigma iter_start iter_stop check_convergence state_dependent_constraint
    info_hook store_all_pulses w = Ok (r, w') ->
  exists pm ol st0 w1 st w2 o,
    initialization info_hook w = Ok ((pm, ol, st0), w1) /\
    foldM (iteration pm ol info_hook)
      (py_range (iter_start + 1) (iter_stop + 1)) st0 w1 = Ok (st, w2) /\
    optimized_pulses st = Some o /\
    Result.optimized_controls r = Some o /\
    lists w !! o = None /\
    n_pulses w' o = n_pulses w2 o /\
    forall p, pulse_array w' o p = pulse_onto_tlist <$> pulse_array w2 o p.
Proof.
  intros E. apply optimize_pulses_stages in E.
  destruct E as (pm & ol & st0 & w1 & st & w2 & o & Einit & Eloop & Efin
                 & Hwf1 & Hwf2 & Ho & Hg & Hoc & Hge).
  destruct Hwf2 as (items & Hitems & _ & Hval).
  destruct (krotov_finalization_effect _ _ _ _ _ _ Efin Ho Hoc Hitems Hval)
    as (Hoc' & Hn' & Hp').
  exists pm, ol, st0, w1, st, w2, o. splits; try assumption.
  apply lookup_ge_None.
  apply krotov_initialization_inv in Einit.
  destruct Einit as (gc & w0 & Ei & Ha1 & Hl1 & _).
  apply initialize_krotov_controls_inv in Ei.
  destruct Ei as (_ & _ & _ & pulses & _ & Ha0 & Hl0 & _).
  rewrite Hl1, Hl0, length_app in Hge. simpl in Hge. lia.
Qed.

End Store.

(** ** Runs that cannot complete *)

Section Failures.
Context `{Conversions}.
Variable objectives : list Objective.t.
Variable pulse_options : PulseOptionsDict.
Variable tlist : list R.
Variable propagator : Plugged -> State -> R -> list Plugged -> bool -> State.
Variable chi_constructor :
  list State -> list Objective.t -> list (list complex) -> list State.
Variable store_all_pulses : bool.

Abbreviation initialization info_hook :=
  (krotov_initialization objectives pulse_options tlist propagator info_hook
     store_all_pulses).

Abbreviation iteration pulses_mapping options_list info_hook :=
  (krotov_iteration_body objectives (adjoint <$> objectives) pulses_mapping
     options_list tlist (_tlist_midpoints tlist) propagator chi_constructor
     info_hook store_all_pulses).

Lemma krotov_initialization_unbound info_hook w pm ol st w' :
  initialization info_hook w = Ok ((pm, ol, st), w') ->
  optimized_pulses st = None /\ fw_states st = None.
Proof.
  intros E. unfold krotov_initialization in E.
  apply M_bind_Ok in E. destruct E as ([[[gc g] pm'] ol'] & w1 & Einit & E).
  apply M_bind_Ok in E. destruct E as (start & w2 & Estart & E).
  apply M_bind_Ok in E. destruct E as (tic & w3 & Etic & E).
  apply M_bind_Ok in E. destruct E as (fs & w4 & Efs & E).
  apply M_bind_Ok in E. destruct E as (toc & w5 & Etoc & E).
  apply M_bind_Ok in E. destruct E as (fwT & w6 & EfwT & E).
  apply M_bind_Ok in E. destruct E as (info & w7 & Einfo & E).
  inversion E; subst. split; reflexivity.
Qed.

(** X17: on a time grid without midpoints no run completes, whatever
    [iter_start] and [iter_stop] are: the loop over the midpoints is what
    binds [fw_states], and the loop over the iterations what binds
    [optimized_pulses]. *)
Theorem no_midpoint_no_result sigma iter_start iter_stop check_convergence
    state_dependent_constraint info_hook w :
  _tlist_midpoints tlist = [] ->
  exists e,
    optimize_pulses objectives pulse_options tlist propagator chi_constructor
      sigma iter_start iter_stop check_convergence state_dependent_constraint
      info_hook store_all_pulses w = Raise e.
Proof.
  intros Hmid.
  destruct (optimize_pulses objectives pulse_options tlist propagator
              chi_constructor sigma iter_start iter_stop check_convergence
              state_dependent_constraint info_hook store_all_pulses w)
    as [[r w']|e] eqn:E; [exfalso|eauto].
  apply optimize_pulses_Ok in E.
  destruct E as (pm & ol & st0 & w1 & st & w2 & Einit & Eloop & Efin).
  apply krotov_initialization_unbound in Einit.
  destruct Einit as [Hnone Hfw].
  destruct (py_range (iter_start + 1) (iter_stop + 1)) as [|k its].
  - inversion Eloop; subst st w2; clear Eloop.
    apply krotov_finalization_inv in Efin. destruct Efin as ([o Ho] & _).
    congruence.
  - rewrite foldM_cons in Eloop.
    apply M_bind_Ok in Eloop. destruct Eloop as (st1 & w3 & E1 & _).
    apply krotov_iteration_body_inv in E1.
    destruct E1 as (bws & fs0 & gitems & o & w_b & delta & fs & fws & w_c
                    & _ & _ & _ & _ & Etime & _).
    rewrite Hmid in Etime. inversion Etime. congruence.
Qed.

(** X18: an exception of [pulse_options_dict_to_list] or, when that
    returns, of the discretization of a guess control is the exception of
    the run. *)
Theorem configuration_error_is_raised sigma iter_start iter_stop
    check_convergence state_dependent_constraint info_hook w e :
  (pulse_options_dict_to_list pulse_options (extract_controls objectives)
   ≫= fun _ =>
        mapM (fun control => discretize control tlist)
             (extract_controls objectives)) = Raise e ->
  optimize_pulses objectives pulse_options tlist propagator chi_constructor
    sigma iter_start iter_stop check_convergence state_dependent_constraint
    info_hook store_all_pulses w = Raise e.
Proof.
  intros E. unfold optimize_pulses, krotov_initialization,
    _initialize_krotov_controls.
  destruct (pulse_options_dict_to_list pulse_options
              (extract_controls objectives)) as [ol|e1].
  - simpl in E. unfold mbind at 1 2 3, M_bind at 1 2 3. unfold lift at 1.
    unfold mbind at 1, M_bind at 1. rewrite E. reflexivity.
  - inversion E; subst e1. reflexivity.
Qed.

End Failures.

(** * The properties on the concrete setting *)

Section ScenarioFacts.
Import Scenario.

Abbreviation one := (fun _ : R => 1%R).
Abbreviation zero := (fun _ : R => 0%R).

(** The mappings that the conversions extract for the two objectives of the
    setting whose control enters two terms of the Hamiltonian, or a
    dissipation operator only. *)
Example two_terms_mapping :
  extract_controls_mapping [two_terms] (extract_controls [two_terms])
  = [[[[1; 2]]]].
Proof. reflexivity. Qed.

Example dissipative_mapping :
  extract_controls_mapping [dissipative] (extract_controls [dissipative])
  = [[[[]]; [[0]]]].
Proof. reflexivity. Qed.

Lemma derivative_of_positions_raises_IndexError_witness :
  [[[1; 2]]] !! 0 = Some [[1; 2]] /\
  [[1; 2]] !! 0 = Some [1; 2] /\
  2 ∈ drop 1 [1; 2] /\
  length [1; 2] <= 2 /\
  _derivative_wrt_pulse two_terms 0 [[[1; 2]]] 0 = Raise IndexError.
Proof.
  assert (2 ∈ drop 1 [1; 2]) as Hin by (apply elem_of_cons; left; reflexivity).
  split; [reflexivity|]. split; [reflexivity|]. split; [exact Hin|].
  split; [simpl; lia|].
  apply (derivative_of_positions_raises_IndexError two_terms 0 [[[1; 2]]]
           [[1; 2]] 0 [1; 2] 2); first [reflexivity | exact Hin | simpl; lia].
Defined.

Lemma derivative_of_no_position_skips_dissipation_check_witness :
  [[[]]; [[0]]] !! 0 = Some [[]] /\
  [[]] !! 0 = Some ([] : list nat) /\
  _derivative_wrt_pulse dissipative 0 [[[]]; [[0]]] 0 = Ok (DInt 0).
Proof.
  split; [reflexivity|]. split; [reflexivity|].
  apply (derivative_of_no_position_skips_dissipation_check dissipative 0
           [[[]]; [[0]]] [[]] 0); reflexivity.
Defined.

(** Without an info hook the run of the setting stops with the
    [TypeError] of calling [None]. *)
Example run_without_info_hook :
  run one 0 2 None None = Raise TypeError.
Proof. vm_compute. reflexivity. Qed.

Lemma check_convergence_does_not_stop_the_loop_witness :
  exists r w,
    (forall result : Result.t, (fun _ => true) result = true) /\
    run one 0 2 (Some (fun _ => true)) (Some report_tau)
    = run one 0 2 None (Some report_tau) /\
    run one 0 2 (Some (fun _ => true)) (Some report_tau) = Ok (r, w) /\
    Result.iters r = 0%Z :: py_range (0 + 1) (2 + 1).
Proof.
  destruct (check_convergence_does_not_stop_the_loop [flip] (options one)
              grid identity_propagator target_chi false None 0 2
              (fun _ => true) None (Some report_tau) empty_world
              (fun _ => eq_refl)) as [Hsame Hiters].
  eexists. eexists. split; [reflexivity|].
  split; [exact Hsame|].
  split; [vm_compute; reflexivity|].
  eapply Hiters. vm_compute. reflexivity.
Defined.

Lemma iter_seconds_of_three_iterations_witness :
  exists r w,
    run one 0 2 None (Some report_tau) = Ok (r, w) /\
    Result.iters r = [0; 1; 2]%Z /\
    length (Result.iter_seconds r) = 4 /\
    length (Result.info_vals r) = 3.
Proof.
  eexists. eexists. split; [vm_compute; reflexivity|].
  eapply (iter_seconds_of_three_iterations [flip] (options one) grid
            identity_propagator target_chi false None None None
            (Some report_tau) empty_world).
  vm_compute. reflexivity.
Defined.

Lemma no_iteration_is_unbound_local_witness :
  (0 <= 0)%Z /\
  py_range (0 + 1) (0 + 1) = [] /\
  (exists e, run one 0 0 None (Some report_tau) = Raise e) /\
  (forall pm ol st0 w1,
     start one = Ok ((pm, ol, st0), w1) ->
     run one 0 0 None (Some report_tau) = Raise UnboundLocalError).
Proof.
  split; [lia|].
  apply (no_iteration_is_unbound_local [flip] (options one) grid
           identity_propagator target_chi false None 0 0 None None
           (Some report_tau) empty_world).
  lia.
Defined.

Lemma backward_propagation_normalized_and_backwards_witness :
  exists pm ol st0 w1 st' w',
    start one = Ok ((pm, ol, st0), w1) /\
    iteration pm ol st0 1 w1 = Ok (st', w') /\
    exists bws,
      backward_states st' = Some bws /\
      length bws = length [flip] /\
      forall i bw, bws !! i = Some bw ->
        exists chi adj mapping,
          target_chi (fw_states_T st0) [flip] (Result.tau_vals (result st0))
            !! i = Some chi /\
          (adjoint <$> [flip]) !! i = Some adj /\
          pm !! i = Some mapping /\
          length bw = length grid /\
          bw !! (length grid - 1)
            = Some (Some (state_div chi (state_norm chi))) /\
          forall n, n + 1 < length grid ->
            exists s ham c_ops dt,
              plugged_in adj (guess_pulses st0) mapping grid n w1 ham c_ops
                dt /\
              bw !! (n + 1) = Some (Some s) /\
              bw !! n = Some (Some (identity_propagator ham s dt c_ops true)).
Proof.
  let r := eval vm_compute in (start one) in
  lazymatch r with
  | Ok (?pm, ?ol, ?st0, ?w1) =>
      let r' := eval vm_compute in (iteration pm ol st0 1%Z w1) in
      lazymatch r' with
      | Ok (?st', ?w') =>
          exists pm, ol, st0, w1, st', w';
          split; [vm_compute; reflexivity|];
          split; [vm_compute; reflexivity|];
          apply (backward_propagation_normalized_and_backwards [flip] grid
                   identity_propagator target_chi false pm ol
                   (Some report_tau) st0 1%Z w1 st' w');
          vm_compute; reflexivity
      end
  end.
Defined.





Lemma zero_shape_keeps_guess_pulses_witness :
  exists pm ol st0 w1,
    start zero = Ok ((pm, ol, st0), w1) /\
    (forall options t,
       options ∈ ol -> t ∈ midpoints grid -> shape options t = 0%R) /\
    (forall its st w,
       foldM (iteration pm ol) its st0 w1 = Ok (st, w) ->
       forall o, optimized_pulses st = Some o ->
         n_pulses w o = n_pulses w1 (guess_pulses st0) /\
         forall p, pulse_array w o p = pulse_array w1 (guess_pulses st0) p) /\
    (forall iter_start iter_stop r w',
       run zero iter_start iter_stop None (Some report_tau) = Ok (r, w') ->
       exists o,
         Result.optimized_controls r = Some o /\
         n_pulses w' o = n_pulses w1 (guess_pulses st0) /\
         forall p,
           pulse_array w' o p
           = array_onto_tlist <$> pulse_array w1 (guess_pulses st0) p).
Proof.
  let r := eval vm_compute in (start zero) in
  lazymatch r with
  | Ok (?pm, ?ol, ?st0, ?w1) =>
      exists pm, ol, st0, w1;
      assert (start zero = Ok ((pm, ol, st0), w1)) as Estart
        by (vm_compute; reflexivity);
      assert (forall (options : PulseOptions) (t : R),
                options ∈ ol -> t ∈ midpoints grid ->
                shape options t = 0%R) as Hzero
        by (intros options t Ho _; apply list_elem_of_singleton in Ho;
            subst options; reflexivity);
      destruct (zero_shape_keeps_guess_pulses [flip] (options zero) grid
                  identity_propagator target_chi false (Some report_tau)
                  empty_world pm ol st0 w1 Estart Hzero) as [Hloop Hrun];
      split; [exact Estart|];
      split; [exact Hzero|];
      split; [exact Hloop|];
      intros iter_start iter_stop r0 w' E;
      exact (Hrun None iter_start iter_stop None None r0 w' E)
  end.
Defined.

Lemma copy_on_update_witness :
  exists pm ol st0 w1 st w st' w',
    start one = Ok ((pm, ol, st0), w1) /\
    foldM (iteration pm ol) [1%Z] st0 w1 = Ok (st, w) /\
    iteration pm ol st 2 w = Ok (st', w') /\
    (forall l a, arrays w !! l = Some a -> arrays w' !! l = Some a) /\
    (forall l items,
       lists w !! l = Some items -> lists w' !! l = Some items) /\
    exists o items,
      optimized_pulses st' = Some o /\ guess_pulses st' = o /\
      lists w !! o = None /\ lists w' !! o = Some items /\
      Forall (fun l => arrays w !! l = None /\ is_Some (arrays w' !! l))
             items.
Proof.
  do 8 eexists.
  split; [vm_compute; reflexivity|].
  split; [vm_compute; reflexivity|].
  split; [vm_compute; reflexivity|].
  eapply (copy_on_update [flip] (options one) grid identity_propagator
            target_chi false (Some report_tau) empty_world _ _ _ _ [1%Z] _ _
            2%Z).
  - vm_compute. reflexivity.
  - vm_compute. reflexivity.
  - vm_compute. reflexivity.
Defined.

(** ** The further properties *)

Example driven_dissipative_mapping :
  extract_controls_mapping [driven_dissipative]
    (extract_controls [driven_dissipative])
  = [[[[1]]; [[0]]]].
Proof. reflexivity. Qed.

Example damped_mapping :
  extract_controls_mapping [damped] (extract_controls [damped])
  = [[[[1]]; [[]]]].
Proof. reflexivity. Qed.

Lemma derivative_wrt_pulse_errors_witness :
  _derivative_wrt_pulse driven_dissipative 0 [[[1]]; [[0]]] 0
    = Raise NotImplementedError /\
  (NotImplementedError = IndexError \/
   (NotImplementedError = NotImplementedError /\
    (exists slot ham_mapping,
       [[[1]]; [[0]]] !! 0 = Some slot /\ slot !! 0 = Some ham_mapping /\
       ham_mapping <> []) /\
    exists i_c slot c_mapping,
      i_c < length (Objective.c_ops driven_dissipative) /\
      [[[1]]; [[0]]] !! (i_c + 1) = Some slot /\
      slot !! 0 = Some c_mapping /\ c_mapping <> [])).
Proof.
  split; [reflexivity|].
  apply (derivative_wrt_pulse_errors driven_dissipative 0 [[[1]]; [[0]]] 0
           NotImplementedError).
  reflexivity.
Defined.

Lemma derivative_wrt_pulse_one_term_witness :
  [[[1]]; [[]]] !! 0 = Some [[1]] /\
  [[1]] !! 0 = Some [1] /\
  Objective.H damped !! 1 = Some (sigma_x, Some eps) /\
  (forall i_c, i_c < length (Objective.c_ops damped) ->
     exists c_slot c_mapping,
       [[[1]]; [[]]] !! (i_c + 1) = Some c_slot /\
       c_slot !! 0 = Some c_mapping) /\
  (_derivative_wrt_pulse damped 0 [[[1]]; [[]]] 0
   = Ok (DOp (term_operator (sigma_x, Some eps))) <->
   forall i_c c_slot c_mapping,
     i_c < length (Objective.c_ops damped) ->
     [[[1]]; [[]]] !! (i_c + 1) = Some c_slot ->
     c_slot !! 0 = Some c_mapping -> c_mapping = []) /\
  (_derivative_wrt_pulse damped 0 [[[1]]; [[]]] 0
   = Raise NotImplementedError <->
   exists i_c c_slot c_mapping,
     i_c < length (Objective.c_ops damped) /\
     [[[1]]; [[]]] !! (i_c + 1) = Some c_slot /\
     c_slot !! 0 = Some c_mapping /\ c_mapping <> []).
Proof.
  assert (forall i_c, i_c < length (Objective.c_ops damped) ->
            exists c_slot c_mapping,
              [[[1]]; [[]]] !! (i_c + 1) = Some c_slot /\
              c_slot !! 0 = Some (c_mapping : list nat)) as Hwf.
  { intros i_c Hi. simpl in Hi. destruct i_c as [|i_c]; [|lia].
    exists [[]], []. split; reflexivity. }
  split; [reflexivity|]. split; [reflexivity|]. split; [reflexivity|].
  split; [exact Hwf|].
  apply (derivative_wrt_pulse_one_term damped 0 [[[1]]; [[]]] [[1]] 0 1
           (sigma_x, Some eps)); first [reflexivity | exact Hwf].
Defined.

Lemma forward_propagation_trajectory_witness :
  exists pm ol st0 w1 fw w',
    start one = Ok ((pm, ol, st0), w1) /\
    _forward_propagation identity_propagator 0 [flip] (guess_pulses st0) pm
      grid w1 = Ok (fw, w') /\
    exists obj mapping,
      [flip] !! 0 = Some obj /\ pm !! 0 = Some mapping /\
      w' = w1 /\ length fw = length grid /\
      fw !! 0 = Some (Some (Objective.initial_state obj)) /\
      (forall n, n + 1 < length grid ->
         exists s ham c_ops dt,
           plugged_in obj (guess_pulses st0) mapping grid n w1 ham c_ops
             dt /\
           fw !! n = Some (Some s) /\
           fw !! (n + 1)
             = Some (Some (identity_propagator ham s dt c_ops false))) /\
      (forall n, n < length grid -> exists s, fw !! n = Some (Some s)).
Proof.
  do 6 eexists.
  split; [vm_compute; reflexivity|].
  split; [vm_compute; reflexivity|].
  eapply (forward_propagation_trajectory (H := physics) identity_propagator 0 [flip]).
  vm_compute. reflexivity.
Defined.


(** A pulse shorter than the list of intervals: the forward propagation
    stops with the [IndexError] of [plug_in_pulse_values]. *)
Example forward_propagation_with_a_short_pulse :
  pulse_array used_world 0 0 = Some (FloatArray [2]%R) /\
  _forward_propagation identity_propagator 0 [flip] 0 [[[[1]]]] grid
    used_world = Raise IndexError.
Proof. split; reflexivity. Qed.

Lemma forward_propagation_step_follows_trajectory_witness :
  exists pm ol st0 w1 fw w',
    start one = Ok ((pm, ol, st0), w1) /\
    _forward_propagation identity_propagator 0 [flip] (guess_pulses st0) pm
      grid w1 = Ok (fw, w') /\
    [fw] !! 0 = Some fw /\ 2 + 1 < length grid /\
    exists s,
      _forward_propagation_step identity_propagator 0 [fw] [flip]
        (guess_pulses st0) pm grid 2 w1 = Ok (s, w1) /\
      fw !! (2 + 1) = Some (Some s).
Proof.
  do 6 eexists.
  split; [vm_compute; reflexivity|].
  split; [vm_compute; reflexivity|].
  split; [reflexivity|]. split; [simpl; lia|].
  eapply (forward_propagation_step_follows_trajectory (H := physics) identity_propagator 0
            [flip]).
  - vm_compute. reflexivity.
  - reflexivity.
  - simpl. lia.
Defined.

Lemma result_records_the_inputs_witness :
  exists r w',
    run one 0 2 None (Some report_tau) = Ok (r, w') /\
    Result.tlist r = grid /\
    Result.tlist_midpoints r = _tlist_midpoints grid /\
    Result.objectives r = [flip] /\
    Result.controls_mapping r
      = extract_controls_mapping [flip] (extract_controls [flip]) /\
    mapM (fun control => discretize control grid) (extract_controls [flip])
      = Ok (Result.guess_controls r) /\
    Result.start_local_time r = Some (localtime (time_queries empty_world)) /\
    is_Some (Result.end_local_time r).
Proof.
  do 2 eexists. split; [vm_compute; reflexivity|].
  eapply (result_records_the_inputs [flip] (options one) grid
            identity_propagator target_chi false None 0 2 None None
            (Some report_tau) empty_world).
  vm_compute. reflexivity.
Defined.

Lemma result_records_the_iterations_witness :
  exists r w',
    run one 0 2 None (Some report_tau) = Ok (r, w') /\
    length (Result.tau_vals r) = length (Result.iters r) /\
    last (Result.tau_vals r)
      = Some (zip_with (fun s obj => overlap s (Objective.target_state obj))
                       (Result.states r) [flip]).
Proof.
  do 2 eexists. split; [vm_compute; reflexivity|].
  eapply (result_records_the_iterations [flip] (options one) grid
            identity_propagator target_chi false None 0 2 None None
            (Some report_tau) empty_world).
  vm_compute. reflexivity.
Defined.



Lemma all_pulses_of_a_run_witness :
  exists r w',
    run_all 0 2 = Ok (r, w') /\
    length (Result.all_pulses r) = length (Result.iters r) /\
    NoDup (Result.all_pulses r) /\
    head (Result.all_pulses r) = Some (length (lists used_world)) /\
    last (Result.all_pulses r) = Result.optimized_controls r.
Proof.
  do 2 eexists. split; [vm_compute; reflexivity|].
  eapply (all_pulses_of_a_run [flip] (options one) grid identity_propagator
            target_chi true None 0 2 None None (Some report_tau)
            used_world).
  vm_compute. reflexivity.
Defined.

Lemma optimize_pulses_frame_witness :
  exists r w',
    run_all 0 2 = Ok (r, w') /\
    (forall l a,
       arrays used_world !! l = Some a -> arrays w' !! l = Some a) /\
    (forall l items,
       lists used_world !! l = Some items -> lists w' !! l = Some items).
Proof.
  do 2 eexists. split; [vm_compute; reflexivity|].
  eapply (optimize_pulses_frame [flip] (options one) grid
            identity_propagator target_chi true None 0 2 None None
            (Some report_tau) used_world).
  vm_compute. reflexivity.
Defined.

Lemma guess_pulses_survive_the_run_witness :
  exists r w',
    run_all 0 2 = Ok (r, w') /\
    n_pulses w' (length (lists used_world))
      = Some (length (Result.guess_controls r)) /\
    forall p,
      pulse_array w' (length (lists used_world)) p
      = (fun control =>
           control_onto_interval control grid (_tlist_midpoints grid))
          <$> Result.guess_controls r !! p.
Proof.
  do 2 eexists. split; [vm_compute; reflexivity|].
  eapply (guess_pulses_survive_the_run [flip] (options one) grid
            identity_propagator target_chi true None 0 2 None None
            (Some report_tau) used_world).
  vm_compute. reflexivity.
Defined.

Lemma returned_controls_are_on_tlist_witness :
  exists r w',
    run_all 0 2 = Ok (r, w') /\
    exists pm ol st0 w1 st w2 o,
      krotov_initialization [flip] (options one) grid identity_propagator
        (Some report_tau) true used_world = Ok ((pm, ol, st0), w1) /\
      foldM (krotov_iteration_body [flip] (adjoint <$> [flip]) pm ol grid
               (_tlist_midpoints grid) identity_propagator target_chi
               (Some report_tau) true)
        (py_range (0 + 1) (2 + 1)) st0 w1 = Ok (st, w2) /\
      optimized_pulses st = Some o /\
      Result.optimized_controls r = Some o /\
      lists used_world !! o = None /\
      n_pulses w' o = n_pulses w2 o /\
      forall p, pulse_array w' o p = pulse_onto_tlist <$> pulse_array w2 o p.
Proof.
  do 2 eexists. split; [vm_compute; reflexivity|].
  eapply (returned_controls_are_on_tlist [flip] (options one) grid
            identity_propagator target_chi true None 0 2 None None
            (Some report_tau) used_world).
  vm_compute. reflexivity.
Defined.

Lemma no_midpoint_no_result_witness :
  _tlist_midpoints [0%R] = [] /\
  exists e,
    optimize_pulses [flip] (options one) [0%R] identity_propagator
      target_chi None 0 2 None None (Some report_tau) false empty_world
    = Raise e.
Proof.
  split; [reflexivity|].
  apply (no_midpoint_no_result [flip] (options one) [0%R]
           identity_propagator target_chi false None 0 2 None None
           (Some report_tau) empty_world).
  reflexivity.
Defined.

Lemma configuration_error_is_raised_witness :
  (pulse_options_dict_to_list [] (extract_controls [flip])
   ≫= fun _ =>
        mapM (fun control => discretize control grid)
             (extract_controls [flip])) = Raise KeyError /\
  optimize_pulses [flip] [] grid identity_propagator target_chi None 0 2
    None None (Some report_tau) false empty_world = Raise KeyError.
Proof.
  split; [reflexivity|].
  apply (configuration_error_is_raised [flip] [] grid identity_propagator
           target_chi false None 0 2 None None (Some report_tau)
           empty_world KeyError).
  reflexivity.
Defined.

Lemma forward_propagation_uses_updated_pulses_witness :
  exists pm ol st0 w1 st' w',
    start_with flip (fun _ => 7 / 8)%R = Ok ((pm, ol, st0), w1) /\
    foldM (iteration_with flip pm ol) [] st0 w1 = Ok (st0, w1) /\
    iteration_with flip pm ol st0 1 w1 = Ok (st', w') /\
    [flip] !! 0 = Some flip /\
    state_at (forward_states st') 0 0
      = Some (Objective.initial_state flip) /\
    (forall n, n < length (_tlist_midpoints grid) ->
       exists w_n mapping s ham c_ops dt,
         pm !! 0 = Some mapping /\
         state_at (forward_states st') 0 n = Some s /\
         plugged_in flip (guess_pulses st') mapping grid n w_n ham c_ops
           dt /\
         state_at (forward_states st') 0 (n + 1)
           = Some (identity_propagator ham s dt c_ops false) /\
         n_pulses w_n (guess_pulses st') = n_pulses w' (guess_pulses st') /\
         (forall p, pulse_dtype w_n (guess_pulses st') p
                    = pulse_dtype w' (guess_pulses st') p) /\
         forall p m,
           pulse_at w_n (guess_pulses st') p m
           = if decide (m <= n) then pulse_at w' (guess_pulses st') p m
             else pulse_at w1 (guess_pulses st0) p m) /\
    (0 < length (_tlist_midpoints grid) ->
     exists s,
       fw_states_T st' !! 0 = Some s /\
       state_at (forward_states st') 0 (length (_tlist_midpoints grid))
         = Some s).
Proof.
  do 6 eexists.
  split; [vm_compute; reflexivity|].
  split; [reflexivity|].
  split; [vm_compute; reflexivity|].
  split; [reflexivity|].
  eapply (forward_propagation_uses_updated_pulses [flip]
            (options (fun _ => 7 / 8)%R) grid identity_propagator
            rotated_chi false (Some report_tau) empty_world)
    with (its := []) (k := 1%Z).
  - vm_compute. reflexivity.
  - reflexivity.
  - vm_compute. reflexivity.
  - reflexivity.
Defined.

Lemma initial_forward_propagation_witness :
  exists pm ol st w',
    start one = Ok ((pm, ol, st), w') /\
    length (forward_states st) = length [flip] /\
    length (fw_states_T st) = length [flip] /\
    Result.tau_vals (result st) = [tau_vals st] /\
    Result.states (result st) = fw_states_T st /\
    forall i obj, [flip] !! i = Some obj ->
      exists mapping fw sT,
        pm !! i = Some mapping /\ forward_states st !! i = Some fw /\
        length fw = length grid /\
        fw !! 0 = Some (Some (Objective.initial_state obj)) /\
        (forall n, n + 1 < length grid ->
           exists s ham c_ops dt,
             plugged_in obj (guess_pulses st) mapping grid n w' ham
               c_ops dt /\
             fw !! n = Some (Some s) /\
             fw !! (n + 1)
               = Some (Some (identity_propagator ham s dt c_ops false))) /\
        fw !! (length grid - 1) = Some (Some sT) /\
        fw_states_T st !! i = Some sT /\
        tau_vals st !! i = Some (overlap sT (Objective.target_state obj)).
Proof.
  do 4 eexists.
  split; [vm_compute; reflexivity|].
  eapply (initial_forward_propagation [flip] (options one) grid
            identity_propagator false (Some report_tau) empty_world).
  vm_compute. reflexivity.
Defined.

Lemma completed_iteration_has_no_driven_dissipator_witness :
  exists pm ol st0 w1 st' w',
    start one = Ok ((pm, ol, st0), w1) /\
    foldM (iteration pm ol) [] st0 w1 = Ok (st0, w1) /\
    iteration pm ol st0 1 w1 = Ok (st', w') /\
    0 < length (_tlist_midpoints grid) /\
    n_pulses w1 (guess_pulses st0) = Some 1 /\ 0 < 1 /\
    [flip] !! 0 = Some flip /\
    exists mapping slot ham_mapping,
      pm !! 0 = Some mapping /\ mapping !! 0 = Some slot /\
      slot !! 0 = Some ham_mapping /\
      (ham_mapping = [] \/
       forall i_c, i_c < length (Objective.c_ops flip) ->
         exists c_slot,
           mapping !! (i_c + 1) = Some c_slot /\ c_slot !! 0 = Some []).
Proof.
  do 6 eexists.
  split; [vm_compute; reflexivity|].
  split; [reflexivity|].
  split; [vm_compute; reflexivity|].
  split; [simpl; lia|].
  split; [reflexivity|].
  split; [lia|].
  split; [reflexivity|].
  eapply (completed_iteration_has_no_driven_dissipator [flip] (options one)
            grid identity_propagator target_chi false (Some report_tau)
            empty_world)
    with (its := []) (k := 1%Z) (n_p := 1).
  - vm_compute. reflexivity.
  - reflexivity.
  - vm_compute. reflexivity.
  - simpl. lia.
  - reflexivity.
  - lia.
  - reflexivity.
Defined.

Lemma optimized_pulses_have_the_shape_of_the_guess_witness :
  exists pm ol st0 w1 st' w',
    start one = Ok ((pm, ol, st0), w1) /\
    foldM (iteration pm ol) [] st0 w1 = Ok (st0, w1) /\
    iteration pm ol st0 1 w1 = Ok (st', w') /\
    n_pulses w' (guess_pulses st') = n_pulses w1 (guess_pulses st0) /\
    forall p n_p,
      n_pulses w1 (guess_pulses st0) = Some n_p -> p < n_p ->
      exists a a',
        pulse_array w1 (guess_pulses st0) p = Some a /\
        pulse_array w' (guess_pulses st') p = Some a' /\
        dtype_of a' = dtype_of a /\
        length (tolist a') = length (tolist a) /\
        length (_tlist_midpoints grid) <= length (tolist a) /\
        forall m, length (_tlist_midpoints grid) <= m ->
          tolist a' !! m = tolist a !! m.
Proof.
  do 6 eexists.
  split; [vm_compute; reflexivity|].
  split; [reflexivity|].
  split; [vm_compute; reflexivity|].
  eapply (optimized_pulses_have_the_shape_of_the_guess [flip] (options one)
            grid identity_propagator target_chi false (Some report_tau)
            empty_world)
    with (its := []) (k := 1%Z).
  - vm_compute. reflexivity.
  - reflexivity.
  - vm_compute. reflexivity.
Defined.

End ScenarioFacts.
